(** * AutoFP8: per-tensor FP8 quantization and the three-phase module rewrite

    A shallow embedding of [quantize.py].

    Numbers.  There are two levels.  In the first, tensor elements and
    scales are exact rationals ([Q]), kept in lowest terms: the rounding
    of the tensor's own dtype is left out, the rounding of the cast to
    [float8_e4m3fn] is modelled.  An exact quotient by zero does not
    exist: where the source goes on with an infinity or a NaN and raises
    nothing, this level stops with [NonFinite].  The graph, the three
    phases and the forward passes are modelled at this level.  The second
    level, [Float], is the arithmetic of the dtype itself: every
    operation rounded to the format, with overflow, infinities and NaN.
    It carries [per_tensor_quantize] and
    [FP8StaticLinear.per_tensor_quantize], and what is said about the
    epsilon guard and about zero scales is said there.

    Tensors.  A tensor is a list of rows; the element-wise operations and
    [aminmax] do not look at the shape, the matrix product does.

    Graph.  [model.model] is a tree of named modules: a module is bound
    at one name only.  The loops of the three phases run on the generator
    [named_modules()] while they rebind modules of the graph it walks; the
    generator is modelled with its suspended calls, and reads the graph as
    it is whenever it is resumed.

    What is outside the file is a parameter: the device capability, the
    native [torch._scaled_mm], and the forward calls the surrounding
    network makes on the layers during calibration. *)

From Stdlib Require Import QArith Qminmax Qabs Qreduction Qpower Qround Lqa.
From Stdlib Require Import List String Ascii Bool Arith Lia.
Import ListNotations.

Open Scope Q_scope.

(** ** Errors *)

Inductive error : Type :=
| RuntimeError      (* raised by a torch operator: empty reduction, shape mismatch *)
| NonFinite         (* no exception of the source: an exact quotient by zero, where
                       the source goes on with an infinity or a NaN (see [Float]) *)
| AttributeError    (* [get_submodule] cannot resolve a dotted path *)
| NotRepresentable  (* a submodule bound under an affine layer: outside this model *)
| OutOfFuel.        (* the traversal loop was cut short *)

Inductive result (A : Type) : Type :=
| Ok (a : A)
| Err (e : error).

Arguments Ok {A} a.
Arguments Err {A} e.

Definition bind {A B : Type} (r : result A) (k : A -> result B) : result B :=
  match r with
  | Ok a => k a
  | Err e => Err e
  end.

Notation "x <- r ;; k" := (bind r (fun x => k))
  (at level 61, r at next level, right associativity).
Notation "' p <- r ;; k" := (bind r (fun p => k))
  (at level 61, p pattern, r at next level, right associativity).

Fixpoint mapM {A B : Type} (f : A -> result B) (l : list A) : result (list B) :=
  match l with
  | [] => Ok []
  | a :: l' => b <- f a ;; bs <- mapM f l' ;; Ok (b :: bs)
  end.

(** ** Scalars *)

Definition qmul (a b : Q) : Q := Qred (a * b).

(** The exact quotient.  By zero there is none: the source raises
    nothing there and goes on with an infinity or a NaN, which
    [Float.div] gives. *)
Definition qdiv (a b : Q) : result Q :=
  if Qeq_bool b 0 then Err NonFinite else Ok (Qred (a / b)).

Definition reciprocal (a : Q) : result Q := qdiv 1 a.

(** [x.clamp(min=lo)] and [x.clamp(min=lo, max=hi)]. *)
Definition clamp_min (x lo : Q) : Q := Qmax x lo.
Definition clamp (x lo hi : Q) : Q := Qmin (Qmax x lo) hi.

(** [a > b] on scalars. *)
Definition Qgtb (a b : Q) : bool := negb (Qle_bool a b).

(** ** The float8_e4m3fn format

    Codes 0..126 are the non-negative finite values: code [8*e + m] stands
    for [m * 2^-9] when [e = 0] and for [(8 + m) * 2^(e-1) * 2^-9]
    otherwise.  Code 126 is [finfo.max]; code 127 is NaN. *)

Definition e4m3fn_value (c : nat) : Q :=
  let e := (c / 8)%nat in
  let m := (c mod 8)%nat in
  if (e =? 0)%nat then Qred (Z.of_nat m # 512)
  else Qred ((Z.of_nat (8 + m) * 2 ^ Z.of_nat (e - 1))%Z # 512).

Definition finfo_max : Q := 448.
Definition finfo_min : Q := -448.

(** Round to nearest, ties to the even code: [c] is the code reached so
    far, [n] the number of codes above it. *)
Fixpoint nearest_code (a : Q) (c n : nat) : nat :=
  match n with
  | O => c
  | S n' =>
      let lo := e4m3fn_value c in
      let hi := e4m3fn_value (S c) in
      if Qle_bool hi a then nearest_code a (S c) n'
      else match Qcompare (a - lo) (hi - a) with
           | Lt => c
           | Gt => S c
           | Eq => if Nat.even c then c else S c
           end
  end.

(** [x.to(torch.float8_e4m3fn)] for [x] within [finfo.min, finfo.max]. *)
Definition to_float8_e4m3fn (x : Q) : Q :=
  if Qle_bool 0 x then e4m3fn_value (nearest_code x 0 126)
  else Qred (- e4m3fn_value (nearest_code (- x) 0 126)).

(** ** Tensors *)

Definition tensor : Type := list (list Q).

Definition elements (t : tensor) : list Q := List.concat t.

Definition tmap (f : Q -> Q) (t : tensor) : tensor := map (map f) t.

(** [tensor.aminmax()]: torch raises on a tensor without elements. *)
Definition aminmax (t : tensor) : result (Q * Q) :=
  match elements t with
  | [] => Err RuntimeError
  | x :: xs => Ok (fold_left Qmin xs x, fold_left Qmax xs x)
  end.

Definition epsilon : Q := 1 # 1000000000000.

(** [per_tensor_quantize] at the exact level: no operation is rounded
    but the cast to [float8_e4m3fn].  In the dtype of the tensor it is
    [Float.per_tensor_quantize]. *)
Definition per_tensor_quantize (t : tensor) : result (tensor * Q) :=
  '(min_val, max_val) <- aminmax t ;;
  let amax := Qmax (Qabs min_val) (Qabs max_val) in
  scale <- qdiv finfo_max (clamp_min amax epsilon) ;;
  let qweight := tmap (fun x => clamp (qmul x scale) finfo_min finfo_max) t in
  let qweight := tmap to_float8_e4m3fn qweight in
  scale <- reciprocal scale ;;
  Ok (qweight, scale).

(** The scale of step 3, before it is inverted. *)
Definition raw_scale (min_val max_val : Q) : Q :=
  Qred (finfo_max / clamp_min (Qmax (Qabs min_val) (Qabs max_val)) epsilon).

(** ** Matrix product *)

(** Scalar product of two rows; torch raises on rows of different length. *)
Fixpoint dot (a b : list Q) : result Q :=
  match a, b with
  | [], [] => Ok 0
  | x :: a', y :: b' => r <- dot a' b' ;; Ok (Qred (x * y + r))
  | _, _ => Err RuntimeError
  end.

Fixpoint add_rows (a b : list Q) : result (list Q) :=
  match a, b with
  | [], [] => Ok []
  | x :: a', y :: b' => r <- add_rows a' b' ;; Ok (Qred (x + y) :: r)
  | _, _ => Err RuntimeError
  end.

(** [torch.nn.functional.linear(input, weight, bias)]: [input @ weight.T + bias]. *)
Definition linear (input weight : tensor) (bias : option (list Q)) : result tensor :=
  mapM (fun row =>
          out <- mapM (dot row) weight ;;
          match bias with
          | None => Ok out
          | Some b => add_rows out b
          end) input.

(** [t * s] for a scalar [s]. *)
Definition tscale (t : tensor) (s : Q) : tensor := tmap (fun x => qmul x s) t.

(** [(9, 0) <= capability] on capability tuples. *)
Definition capability_geb (c d : nat * nat) : bool :=
  (fst d <? fst c)%nat || ((fst d =? fst c)%nat && (snd d <=? snd c)%nat).

Section Gemm.

(** [torch.cuda.get_device_capability()] of the executing device. *)
Variable cuda_compute_capability : nat * nat.

(** [torch._scaled_mm(A, B.t(), scale_a, scale_b, bias)], the native
    primitive of capable hardware: [scaled_mm A B scale_a scale_b bias]. *)
Variable scaled_mm : tensor -> tensor -> Q -> Q -> option (list Q) -> result tensor.

(** The casts to [out_dtype] are the identity on exact numbers. *)
Definition fp8_gemm (A : tensor) (A_scale : Q) (B : tensor) (B_scale : Q)
           (bias : option (list Q)) : result tensor :=
  if capability_geb cuda_compute_capability (9, 0)%nat then
    scaled_mm A B A_scale B_scale bias
  else
    linear (tscale A A_scale) (tscale B B_scale) bias.

(** *** FP8StaticLinearQuantizer

    [forward] returns the output and the value of [self.act_scale] after
    the call. *)
Definition FP8StaticLinearQuantizer_forward
           (weight : tensor) (weight_scale : Q) (act_scale : option Q)
           (x : tensor) : result (tensor * option Q) :=
  '(qinput, x_act_scale) <- per_tensor_quantize x ;;
  let act_scale :=
    match act_scale with
    | None => x_act_scale
    | Some a => if Qgtb x_act_scale a then x_act_scale else a
    end in
  output <- fp8_gemm qinput act_scale weight weight_scale None ;;
  Ok (output, Some act_scale).

(** *** FP8StaticLinear

    [act_scale] is [None] for the parameter without elements that
    [torch.nn.Parameter(None)] builds.  With the scale zero the exact
    level has no quotient ([NonFinite]); what the source returns there is
    in [Float.FP8StaticLinear_per_tensor_quantize]. *)
Definition FP8StaticLinear_per_tensor_quantize
           (t : tensor) (inv_scale : Q) : result tensor :=
  quotient <- mapM (mapM (fun x => qdiv x inv_scale)) t ;;
  let qweight := tmap (fun x => clamp x finfo_min finfo_max) quotient in
  Ok (tmap to_float8_e4m3fn qweight).

Definition FP8StaticLinear_forward
           (weight : tensor) (weight_scale : Q) (act_scale : option Q)
           (x : tensor) : result tensor :=
  match act_scale with
  | None => Err RuntimeError
  | Some act_scale =>
      qinput <- FP8StaticLinear_per_tensor_quantize x act_scale ;;
      fp8_gemm qinput act_scale weight weight_scale None
  end.

(** *** FP8DynamicLinear *)
Definition FP8DynamicLinear_forward
           (weight : tensor) (weight_scale : Q) (x : tensor) : result tensor :=
  '(qinput, x_scale) <- per_tensor_quantize x ;;
  fp8_gemm qinput x_scale weight weight_scale None.

(** Successive forward calls on one observer, the state threaded through. *)
Fixpoint calibration_passes (weight : tensor) (weight_scale : Q)
         (act_scale : option Q) (xs : list tensor) : result (option Q) :=
  match xs with
  | [] => Ok act_scale
  | x :: xs' =>
      '(_, act_scale) <- FP8StaticLinearQuantizer_forward weight weight_scale act_scale x ;;
      calibration_passes weight weight_scale act_scale xs'
  end.

End Gemm.

(** The activation scale a forward pass computes for its input. *)
Definition per_pass_scale (x : tensor) : result Q :=
  '(_, x_act_scale) <- per_tensor_quantize x ;; Ok x_act_scale.

(** The stored scale after a pass that observed [x_act_scale]. *)
Definition running_max (act_scale : option Q) (x_act_scale : Q) : option Q :=
  match act_scale with
  | None => Some x_act_scale
  | Some a => Some (if Qgtb x_act_scale a then x_act_scale else a)
  end.

(** Order on stored scales: an absent scale is below every scale. *)
Definition scale_le (a b : option Q) : Prop :=
  match a, b with
  | None, _ => True
  | Some _, None => False
  | Some x, Some y => x <= y
  end.

(** ** Dotted names *)

Open Scope string_scope.

(** ["." in name] *)
Fixpoint contains_dot (s : string) : bool :=
  match s with
  | EmptyString => false
  | String c s' => Ascii.eqb c "." || contains_dot s'
  end.

(** [name.rsplit(".", 1)[0]]: [name] up to its last dot, all of [name]
    when it has none. *)
Fixpoint rsplit_head (s : string) : string :=
  match s with
  | EmptyString => EmptyString
  | String c s' =>
      if contains_dot s' then String c (rsplit_head s')
      else if Ascii.eqb c "." then EmptyString
      else String c (rsplit_head s')
  end.

(** [name[n:]] *)
Fixpoint slice_from (n : nat) (s : string) : string :=
  match n, s with
  | O, _ => s
  | S n', String _ s' => slice_from n' s'
  | S _, EmptyString => EmptyString
  end.

(** [target.split(".")] *)
Fixpoint split_dot (s : string) : list string :=
  match s with
  | EmptyString => [EmptyString]
  | String c s' =>
      if Ascii.eqb c "." then EmptyString :: split_dot s'
      else match split_dot s' with
           | atom :: atoms => String c atom :: atoms
           | [] => [String c EmptyString]
           end
  end.

(** [prefix + ("." if prefix else "") + name] *)
Definition submodule_prefix (prefix name : string) : string :=
  prefix ++ (if String.eqb prefix "" then "" else ".") ++ name.

(** ** The module graph

    [model.model] and its submodules.  The four affine kinds are the
    classes of the source and [torch.nn.Linear]; they register parameters
    only, so they have no submodules.  [Module] is any other module, with
    its ordered dictionary [_modules]. *)

#[warnings="-register-all"]
Inductive module : Type :=
| Linear (weight : tensor) (bias : option (list Q))
| FP8DynamicLinear (weight : tensor) (weight_scale : Q)
| FP8StaticLinearQuantizer (weight : tensor) (weight_scale : Q) (act_scale : option Q)
| FP8StaticLinear (weight : tensor) (weight_scale : Q) (act_scale : option Q)
| Module (children : list (string * module)).

(** [dict[key]] and [dict[key] = value] on an ordered dictionary: an
    existing key keeps its position, a new key goes last. *)
Fixpoint dict_get (key : string) (d : list (string * module)) : option module :=
  match d with
  | [] => None
  | (k, v) :: d' => if String.eqb k key then Some v else dict_get key d'
  end.

Fixpoint dict_set (key : string) (value : module) (d : list (string * module))
  : list (string * module) :=
  match d with
  | [] => [(key, value)]
  | (k, v) :: d' =>
      if String.eqb k key then (k, value) :: d' else (k, v) :: dict_set key value d'
  end.

(** [setattr(parent, name, value)] for a module [value]. *)
Definition setattr (parent : module) (name : string) (value : module) : result module :=
  match parent with
  | Module children => Ok (Module (dict_set name value children))
  | _ => Err NotRepresentable
  end.

(** [get_submodule]: walk down the atoms of the dotted path. *)
Fixpoint get_atoms (m : module) (atoms : list string) : result module :=
  match atoms with
  | [] => Ok m
  | item :: atoms' =>
      match m with
      | Module children =>
          match dict_get item children with
          | Some child => get_atoms child atoms'
          | None => Err AttributeError
          end
      | _ => Err AttributeError
      end
  end.

Definition get_submodule (m : module) (target : string) : result module :=
  if String.eqb target "" then Ok m else get_atoms m (split_dot target).

(** [get_submodule] returns a reference into the graph, and what is done
    to the referenced module is done to the graph: [with_submodule]
    resolves [target] as [get_submodule] does, applies [f] to the module
    found and leaves the outcome where the module was. *)
Fixpoint with_atoms (m : module) (atoms : list string)
         (f : module -> result module) : result module :=
  match atoms with
  | [] => f m
  | item :: atoms' =>
      match m with
      | Module children =>
          match dict_get item children with
          | Some child =>
              child' <- with_atoms child atoms' f ;;
              Ok (Module (dict_set item child' children))
          | None => Err AttributeError
          end
      | _ => Err AttributeError
      end
  end.

Definition with_submodule (m : module) (target : string)
           (f : module -> result module) : result module :=
  if String.eqb target "" then f m else with_atoms m (split_dot target) f.

(** The rebinding that ends each of the three loops:
    [parent_name], [child_name], [parent], [setattr(parent, child_name, value)]. *)
Definition rebind (root : module) (name : string) (value : module) : result module :=
  if contains_dot name then
    let parent_name := rsplit_head name in
    let child_name := slice_from (String.length parent_name + 1) name in
    with_submodule root parent_name (fun parent => setattr parent child_name value)
  else
    setattr root name value.

(** ** named_modules

    [named_modules()] is a generator: a stack of suspended calls, each with
    its [prefix], the module [self] it runs on (its position in the graph,
    as child indices from the root) and the position [pos] its iteration
    over [self._modules.items()] has reached.  Each resumption reads the
    graph as it is then. *)

Record frame : Type := Frame {
  prefix : string;
  self : list nat;
  pos : nat
}.

Inductive generator : Type :=
| Fresh
| Running (stack : list frame).

Fixpoint module_at (m : module) (path : list nat) : option module :=
  match path with
  | [] => Some m
  | i :: path' =>
      match m with
      | Module children =>
          match nth_error children i with
          | Some (_, child) => module_at child path'
          | None => None
          end
      | _ => None
      end
  end.

Fixpoint resume (root : module) (stack : list frame)
  : option ((string * module) * list frame) :=
  match stack with
  | [] => None
  | fr :: stack' =>
      match module_at root (self fr) with
      | Some (Module children) =>
          match nth_error children (pos fr) with
          | Some (name, m) =>
              let sub := submodule_prefix (prefix fr) name in
              Some ((sub, m),
                    Frame sub (self fr ++ [pos fr]) 0
                      :: Frame (prefix fr) (self fr) (S (pos fr)) :: stack')
          | None => resume root stack'
          end
      | _ => resume root stack'
      end
  end.

(** [next(generator)]: [None] is StopIteration. *)
Definition next (root : module) (g : generator)
  : option ((string * module) * generator) :=
  match g with
  | Fresh => Some (("", root), Running [Frame "" [] 0])
  | Running stack =>
      match resume root stack with
      | Some (item, stack') => Some (item, Running stack')
      | None => None
      end
  end.

(** [for name, m in root.named_modules(): body]; the body may rebind
    modules of the graph the generator is walking. *)
Fixpoint for_named_modules (fuel : nat)
         (body : module -> string -> module -> result module)
         (root : module) (g : generator) : result module :=
  match fuel with
  | O => Err OutOfFuel
  | S fuel' =>
      match next root g with
      | None => Ok root
      | Some ((name, m), g') =>
          root' <- body root name m ;;
          for_named_modules fuel' body root' g'
      end
  end.

(** The same loop, with the pairs the generator has yielded. *)
Fixpoint for_named_modules_yields (fuel : nat)
         (body : module -> string -> module -> result module)
         (root : module) (g : generator)
  : result (module * list (string * module)) :=
  match fuel with
  | O => Err OutOfFuel
  | S fuel' =>
      match next root g with
      | None => Ok (root, [])
      | Some ((name, m), g') =>
          root' <- body root name m ;;
          '(final, yields) <- for_named_modules_yields fuel' body root' g' ;;
          Ok (final, (name, m) :: yields)
      end
  end.

(** Number of modules of a graph. *)
Fixpoint size (m : module) : nat :=
  match m with
  | Module children => S (list_sum (map (fun kc => size (snd kc)) children))
  | _ => 1%nat
  end.

(** Enough iterations for one traversal: one per module and the last
    [next], which stops. *)
Definition fuel (root : module) : nat := S (size root).

(** [list(root.named_modules())]: the traversal of a graph nobody rebinds. *)
Definition named_modules (root : module) : result (list (string * module)) :=
  '(_, yields) <- for_named_modules_yields (fuel root) (fun r _ _ => Ok r) root Fresh ;;
  Ok yields.

(** ** The three phases *)

Definition quantize_weights_body (root : module) (name : string) (linear : module)
  : result module :=
  match linear with
  | Linear weight _ =>
      '(quant_weight, quant_scale) <- per_tensor_quantize weight ;;
      let quant_linear := FP8DynamicLinear quant_weight quant_scale in
      rebind root name quant_linear
  | _ => Ok root
  end.

Definition quantize_weights (model : module) : result module :=
  for_named_modules (fuel model) quantize_weights_body model Fresh.

Definition replace_with_quantizer_body (root : module) (name : string)
           (dynamic_quant_linear : module) : result module :=
  match dynamic_quant_linear with
  | FP8DynamicLinear weight weight_scale =>
      let quantizer := FP8StaticLinearQuantizer weight weight_scale None in
      rebind root name quantizer
  | _ => Ok root
  end.

Definition replace_with_static_body (root : module) (name : string)
           (quantizer : module) : result module :=
  match quantizer with
  | FP8StaticLinearQuantizer weight weight_scale act_scale =>
      let static_proj := FP8StaticLinear weight weight_scale act_scale in
      rebind root name static_proj
  | _ => Ok root
  end.

Fixpoint foldM {A B : Type} (f : B -> A -> result B) (l : list A) (b : B) : result B :=
  match l with
  | [] => Ok b
  | a :: l' => b' <- f b a ;; foldM f l' b'
  end.

Section Pipeline.

Variable cuda_compute_capability : nat * nat.
Variable scaled_mm : tensor -> tensor -> Q -> Q -> option (list Q) -> result tensor.

(** What [model(row)] does to the observers: the forward calls it makes
    on named modules of the graph, in order, each with its input.  It is
    given by the network around the layers, which is not part of this
    file. *)
Variable forward_calls : module -> list nat -> list (string * tensor).

(** One forward call on the module bound at [name]: an observer updates
    its [act_scale]; the other kinds keep no state, and their forward is
    not run here, so what it may raise is not modelled: the properties of
    calibration are about the runs that return. *)
Definition call_forward (root : module) (call : string * tensor) : result module :=
  let '(name, x) := call in
  with_submodule root name
    (fun m =>
       match m with
       | FP8StaticLinearQuantizer weight weight_scale act_scale =>
           '(_, act_scale) <-
             FP8StaticLinearQuantizer_forward cuda_compute_capability scaled_mm
               weight weight_scale act_scale x ;;
           Ok (FP8StaticLinearQuantizer weight weight_scale act_scale)
       | _ => Ok m
       end).

Definition run_model (root : module) (row : list nat) : result module :=
  foldM call_forward (forward_calls root row) root.

Definition replace_with_quantizer (model : module) : result module :=
  for_named_modules (fuel model) replace_with_quantizer_body model Fresh.

Definition calibration (model : module) (calibration_tokens : list (list nat))
  : result module :=
  foldM run_model calibration_tokens model.

Definition replace_with_static (model : module) : result module :=
  for_named_modules (fuel model) replace_with_static_body model Fresh.

Definition quantize_activations (model : module) (calibration_tokens : list (list nat))
  : result module :=
  model <- replace_with_quantizer model ;;
  model <- calibration model calibration_tokens ;;
  replace_with_static model.

End Pipeline.

(** ** Well-formed graphs and the rewrite a phase amounts to *)

(** Names torch accepts for a submodule: not empty, without a dot. *)
Definition valid_name (k : string) : bool :=
  negb (String.eqb k "") && negb (contains_dot k).

Fixpoint unique (keys : list string) : bool :=
  match keys with
  | [] => true
  | k :: keys' => negb (existsb (String.eqb k) keys') && unique keys'
  end.

(** The keys of an ordered dictionary of submodules. *)
Definition children_ok (children : list (string * module)) : bool :=
  unique (map fst children) && forallb valid_name (map fst children).

Fixpoint well_formed (m : module) : bool :=
  match m with
  | Module children =>
      children_ok children && forallb (fun kc => well_formed (snd kc)) children
  | _ => true
  end.

(** A graph whose root is a container, as [model.model] is. *)
Definition well_formed_model (model : module) : bool :=
  match model with
  | Module _ => well_formed model
  | _ => false
  end.

Definition is_leaf (m : module) : bool :=
  match m with
  | Module _ => false
  | _ => true
  end.

(** What a loop does with the module it is handed: [None] is [continue],
    otherwise the module to bind in its place (or the error raised while
    building it). *)
Definition replacement : Type := module -> option (result module).

Definition body_of (f : replacement) (root : module) (name : string) (m : module)
  : result module :=
  match f m with
  | None => Ok root
  | Some r => value <- r ;; rebind root name value
  end.

Definition to_dynamic : replacement := fun m =>
  match m with
  | Linear weight _ =>
      Some ('(quant_weight, quant_scale) <- per_tensor_quantize weight ;;
            Ok (FP8DynamicLinear quant_weight quant_scale))
  | _ => None
  end.

Definition to_quantizer : replacement := fun m =>
  match m with
  | FP8DynamicLinear weight weight_scale =>
      Some (Ok (FP8StaticLinearQuantizer weight weight_scale None))
  | _ => None
  end.

Definition to_static : replacement := fun m =>
  match m with
  | FP8StaticLinearQuantizer weight weight_scale act_scale =>
      Some (Ok (FP8StaticLinear weight weight_scale act_scale))
  | _ => None
  end.

(** The graph with every module a loop replaces replaced, in the order of
    the traversal. *)
Fixpoint rewrite (f : replacement) (m : module) : result module :=
  match m with
  | Module children =>
      children' <- mapM (fun kc => c <- rewrite f (snd kc) ;; Ok (fst kc, c)) children ;;
      Ok (Module children')
  | _ => match f m with
         | None => Ok m
         | Some r => r
         end
  end.

Definition rewrite_children (f : replacement) (children : list (string * module))
  : result (list (string * module)) :=
  mapM (fun kc => c <- rewrite f (snd kc) ;; Ok (fst kc, c)) children.

(** The (name, module) pairs of a graph, parents before children. *)
Fixpoint flatten (name : string) (m : module) : list (string * module) :=
  (name, m) ::
  match m with
  | Module children =>
      List.concat (map (fun kc => flatten (submodule_prefix name (fst kc)) (snd kc)) children)
  | _ => []
  end.

Definition flatten_children (name : string) (children : list (string * module))
  : list (string * module) :=
  List.concat (map (fun kc => flatten (submodule_prefix name (fst kc)) (snd kc)) children).

Definition count_children (children : list (string * module)) : nat :=
  list_sum (map (fun kc => size (snd kc)) children).

(** ** Contexts: a graph with one module taken out

    Innermost layer first: the siblings before and after the hole, and the
    key the hole is bound to. *)

Record layer : Type := Layer {
  before : list (string * module);
  key : string;
  after : list (string * module)
}.

Definition context : Type := list layer.

Fixpoint plug (ctx : context) (m : module) : module :=
  match ctx with
  | [] => m
  | l :: ctx' => plug ctx' (Module (before l ++ (key l, m) :: after l))
  end.

Fixpoint path_of (ctx : context) : list nat :=
  match ctx with
  | [] => []
  | l :: ctx' => path_of ctx' ++ [List.length (before l)]
  end.

Fixpoint name_of (ctx : context) : string :=
  match ctx with
  | [] => ""
  | l :: ctx' => submodule_prefix (name_of ctx') (key l)
  end.

Fixpoint atoms_of (ctx : context) : list string :=
  match ctx with
  | [] => []
  | l :: ctx' => atoms_of ctx' ++ [key l]
  end.

Definition layer_ok (l : layer) : Prop :=
  valid_name (key l) = true /\ ~ In (key l) (map fst (before l)).

Definition context_ok (ctx : context) : Prop := Forall layer_ok ctx.

(** The keys of a dictionary of which [done] has been iterated over and
    [todo] has not. *)
Definition keys_ok (done todo : list (string * module)) : Prop :=
  unique (map fst done ++ map fst todo) = true /\
  forallb valid_name (map fst todo) = true /\
  forallb (fun kc => well_formed (snd kc)) todo = true.

(** [r] with [l] put before the pairs it yields. *)
Definition with_yields (l : list (string * module))
           (r : result (module * list (string * module)))
  : result (module * list (string * module)) :=
  '(final, yields) <- r ;; Ok (final, (l ++ yields)%list).

(** ** Notions the properties are stated with *)

(** The state of a loop after [k] iterations, or at its end if that comes
    first: the graph and the generator. *)
Fixpoint loop_state (k : nat) (body : module -> string -> module -> result module)
         (root : module) (g : generator) : result (module * generator) :=
  match k with
  | O => Ok (root, g)
  | S k' =>
      match next root g with
      | None => Ok (root, g)
      | Some ((name, m), g') =>
          root' <- body root name m ;;
          loop_state k' body root' g'
      end
  end.

(** Snapshot first: while the traversal has a module left to yield, the
    graph is still the one the loop began with. *)
Definition rebinds_after_traversal
           (body : module -> string -> module -> result module) (model : module) : Prop :=
  forall k root g,
    loop_state k body model Fresh = Ok (root, g) ->
    next root g <> None -> root = model.

(** [isinstance(m, torch.nn.Linear)] *)
Definition isinstance_Linear (m : module) : bool :=
  match m with
  | Linear _ _ => true
  | _ => false
  end.

(** The graph with the bias of every affine layer taken away. *)
Fixpoint without_bias (m : module) : module :=
  match m with
  | Linear weight _ => Linear weight None
  | Module children =>
      Module (map (fun kc => (fst kc, without_bias (snd kc))) children)
  | _ => m
  end.

(** How a pair of the rewritten graph relates to the pair of the graph
    before: same name, and the very same module unless the loop replaces
    it; a container stays a container. *)
Definition rewritten (f : replacement) (p p' : string * module) : Prop :=
  fst p' = fst p /\
  is_leaf (snd p') = is_leaf (snd p) /\
  (is_leaf (snd p) = true -> rewrite f (snd p) = Ok (snd p')).

(** Same dotted names, at any prefix. *)
Definition same_names (m m' : module) : Prop :=
  forall name, map fst (flatten name m') = map fst (flatten name m).

(** What a forward call may change: nothing of the names, of what is a
    container, of well-formedness. *)
Definition same_skeleton (m m' : module) : Prop :=
  same_names m m' /\
  is_leaf m' = is_leaf m /\
  (well_formed m = true -> well_formed m' = true).

(** Every affine layer has a weight with at least one element. *)
Definition weights_not_empty (model : module) : Prop :=
  Forall (fun p => match snd p with
                   | Linear weight _ => elements weight <> []
                   | _ => True
                   end) (flatten "" model).

(** A loop has kept the names of the graph, and changed only the modules
    it replaces. *)
Definition names_preserved (f : replacement) (model model' : module) : Prop :=
  exists l l',
    named_modules model = Ok l /\ named_modules model' = Ok l' /\
    map fst l' = map fst l /\ Forall2 (rewritten f) l l'.

Definition names_kept (model model' : module) : Prop :=
  exists l l',
    named_modules model = Ok l /\ named_modules model' = Ok l' /\
    map fst l' = map fst l.

(** The pairs a loop is handed are the pairs of the graph it began with,
    and it ends with the rewritten graph. *)
Definition yields_original_modules
           (body : module -> string -> module -> result module)
           (f : replacement) (model : module) : Prop :=
  exists yields,
    named_modules model = Ok yields /\
    for_named_modules_yields (fuel model) body model Fresh
    = (model' <- rewrite f model ;; Ok (model', yields)).

(** The body of a loop puts the replacement into the graph before the
    generator is resumed. *)
Definition rebinds_at_once
           (body : module -> string -> module -> result module)
           (f : replacement) : Prop :=
  forall l ctx c,
    context_ok (l :: ctx) -> is_leaf c = true ->
    body (plug (l :: ctx) c) (name_of (l :: ctx)) c
    = (v <- rewrite f c ;; Ok (plug (l :: ctx) v)).

(** What Phase 3 makes of a pair: an observer becomes the static layer
    with the observer's [act_scale], whatever it is. *)
Definition frozen (p p' : string * module) : Prop :=
  fst p' = fst p /\
  match snd p with
  | FP8StaticLinearQuantizer weight weight_scale act_scale =>
      snd p' = FP8StaticLinear weight weight_scale act_scale
  | Module _ => is_leaf (snd p') = false
  | m => snd p' = m
  end.

(** The check before Phase 3: a pipeline that has an observer with an
    absent scale when calibration is over raises. *)
Definition rejects_uncalibrated
           (cuda_compute_capability : nat * nat)
           (scaled_mm : tensor -> tensor -> Q -> Q -> option (list Q) -> result tensor)
           (forward_calls : module -> list nat -> list (string * tensor))
           (model : module) (calibration_tokens : list (list nat)) : Prop :=
  forall observed name weight weight_scale,
    (m <- replace_with_quantizer model ;;
     calibration cuda_compute_capability scaled_mm forward_calls m calibration_tokens)
    = Ok observed ->
    In (name, FP8StaticLinearQuantizer weight weight_scale None) (flatten "" observed) ->
    exists e,
      quantize_activations cuda_compute_capability scaled_mm forward_calls
        model calibration_tokens = Err e.

(** ** Sample graphs *)

(** The graph of the scenario, with modules [a], [a.b], [a.b.c], and a
    second affine layer [fc]. *)
Definition sample_model : module :=
  Module [("a", Module [("b", Module [("c", Linear [[2; 2]] (Some [1]))]);
                        ("norm", Module [])]);
          ("fc", Linear [[1; -4]] None)].

Definition two_layers : module :=
  Module [("a", Linear [[2; 2]] None); ("b", Linear [[1; -4]] None)].

Definition one_dynamic_layer : module :=
  Module [("fc", FP8DynamicLinear [[448; 448]] (1 # 224))].

Close Scope string_scope.

(** ** Further notions: the format, dequantization *)





(** ** new_dtype_byte_size

    A dtype is given by its name, [str(dtype)], an ASCII string;
    [dtype == torch.bool] is the comparison of the names.  [None] is the
    [ValueError]. *)

(** [\d] *)
Definition is_digit (c : ascii) : bool :=
  (48 <=? nat_of_ascii c)%nat && (nat_of_ascii c <=? 57)%nat.

(** The digits a string begins with: what the greedy [(\d+)] takes. *)
Fixpoint digits_prefix (s : string) : string :=
  match s with
  | EmptyString => EmptyString
  | String c s' => if is_digit c then String c (digits_prefix s') else EmptyString
  end.

(** [re.search(r"[^\d](\d+)_?", s)]: the group of the leftmost match, which
    begins at the first character that is not a digit and is followed by
    one. *)
Fixpoint bit_search (s : string) : option string :=
  match s with
  | EmptyString => None
  | String c s' =>
      match s' with
      | EmptyString => None
      | String d _ =>
          if negb (is_digit c) && is_digit d then Some (digits_prefix s')
          else bit_search s'
      end
  end.

(** [int(digits)] *)
Fixpoint int_from (acc : Z) (s : string) : Z :=
  match s with
  | EmptyString => acc
  | String c s' => int_from (10 * acc + Z.of_nat (nat_of_ascii c - 48))%Z s'
  end.

Definition int (s : string) : Z := int_from 0 s.

Definition new_dtype_byte_size (dtype : string) : option Q :=
  if String.eqb dtype "torch.bool" then Some (1 # 8)
  else
    match bit_search dtype with
    | None => None
    | Some group => Some (inject_Z (int group / 8))
    end.

(** Strings of digits, and strings without a digit. *)
Fixpoint all_digits (s : string) : bool :=
  match s with
  | EmptyString => true
  | String c s' => is_digit c && all_digits s'
  end.

Fixpoint no_digits (s : string) : bool :=
  match s with
  | EmptyString => true
  | String c s' => negb (is_digit c) && no_digits s'
  end.

Definition starts_with_digit (s : string) : bool :=
  match s with
  | EmptyString => false
  | String c _ => is_digit c
  end.

(** ** Further notions: the graph through the pipeline *)

(** An affine layer whose weight has no element. *)
Definition empty_weight (p : string * module) : Prop :=
  match snd p with
  | Linear weight _ => elements weight = []
  | _ => False
  end.

(** What calibration may change of a pair: the [act_scale] of an
    observer. *)
Definition observed (p p' : string * module) : Prop :=
  fst p' = fst p /\
  match snd p with
  | FP8StaticLinearQuantizer weight weight_scale _ =>
      exists act_scale, snd p' = FP8StaticLinearQuantizer weight weight_scale act_scale
  | Module _ => is_leaf (snd p') = false
  | m => snd p' = m
  end.

Definition same_but_scales (m m' : module) : Prop :=
  forall name, Forall2 observed (flatten name m) (flatten name m').

(** What [quantize_weights] followed by [quantize_activations] makes of a
    pair: every affine layer ends as a static layer, an [nn.Linear] with
    its weight quantized per tensor, a layer of this file with the weight
    and the weight scale it had. *)
Definition fully_quantized (p p' : string * module) : Prop :=
  fst p' = fst p /\
  match snd p with
  | Linear weight _ =>
      exists qweight scale act_scale,
        per_tensor_quantize weight = Ok (qweight, scale) /\
        snd p' = FP8StaticLinear qweight scale act_scale
  | FP8DynamicLinear weight weight_scale =>
      exists act_scale, snd p' = FP8StaticLinear weight weight_scale act_scale
  | FP8StaticLinearQuantizer weight weight_scale _ =>
      exists act_scale, snd p' = FP8StaticLinear weight weight_scale act_scale
  | FP8StaticLinear weight weight_scale act_scale =>
      snd p' = FP8StaticLinear weight weight_scale act_scale
  | Module _ => is_leaf (snd p') = false
  end.


(** A graph on which [quantize_activations] finds nothing to replace and
    nothing to calibrate: it has no dynamic layer and no observer. *)
Fixpoint settled (m : module) : bool :=
  match m with
  | FP8DynamicLinear _ _ => false
  | FP8StaticLinearQuantizer _ _ _ => false
  | Module children => forallb (fun kc => settled (snd kc)) children
  | _ => true
  end.

Definition settled_pair (p : string * module) : Prop :=
  match snd p with
  | FP8DynamicLinear _ _ => False
  | FP8StaticLinearQuantizer _ _ _ => False
  | _ => True
  end.

(** ** The arithmetic of a dtype

    The definitions above compute on exact rationals.  The source
    computes in the dtype of its tensor: every operation is rounded to the
    dtype, a result too large for it is an infinity, a quotient by zero is
    an infinity or a NaN, and nothing is raised.  [Float] models that
    arithmetic for the binary formats (IEEE 754, round to nearest, ties to
    even), with one zero, and gives [per_tensor_quantize] and
    [FP8StaticLinear.per_tensor_quantize] over it.  An operation on
    float16 or bfloat16 operands that is carried out in float32 and
    rounded again gives the same result as the one rounding here: 24
    bits are at least twice the bits of these formats plus two. *)

Module Float.

Inductive value : Type :=
| Finite (q : Q)
| PosInf
| NegInf
| NaN.

(** A binary format: the bits of the significand (the implicit one
    included) and the exponents of the smallest and largest normal
    numbers. *)
Record format : Type := Format {
  precision : Z;
  emin : Z;
  emax : Z
}.

Definition float16 : format := Format 11 (-14) 15.
Definition bfloat16 : format := Format 8 (-126) 127.
Definition float32 : format := Format 24 (-126) 127.

Definition pow2 (e : Z) : Q := 2 ^ e.

(** The exponent of the last place of the subnormal numbers, and the
    smallest positive number of the format. *)
Definition etiny (f : format) : Z := (emin f - (precision f - 1))%Z.
Definition min_positive (f : format) : Q := pow2 (etiny f).

(** The largest finite number of the format. *)
Definition max_finite (f : format) : Q :=
  inject_Z (2 ^ precision f - 1) * pow2 (emax f - (precision f - 1)).

(** [floor (log2 x)] for a positive [x]. *)
Definition floor_log2 (x : Q) : Z :=
  let k := (Z.log2 (Qnum x) - Z.log2 (Z.pos (Qden x)))%Z in
  if Qle_bool (pow2 k) x then k else (k - 1)%Z.

(** The integer nearest to [y], the even one of two. *)
Definition round_half_even (y : Q) : Z :=
  let n := Qfloor y in
  match Qcompare (y - inject_Z n) (1 # 2) with
  | Lt => n
  | Gt => (n + 1)%Z
  | Eq => if Z.even n then n else (n + 1)%Z
  end.

(** A positive [x] rounded to the format: to a multiple of the unit in
    the last place of its binade; past the largest finite number the
    result is the infinity. *)
Definition round_positive (f : format) (x : Q) : value :=
  let e := Z.max (floor_log2 x - (precision f - 1)) (etiny f) in
  let r := inject_Z (round_half_even (x / pow2 e)) * pow2 e in
  if Qle_bool r (max_finite f) then Finite (Qred r) else PosInf.

Definition opposite (v : value) : value :=
  match v with
  | Finite q => Finite (Qred (- q))
  | PosInf => NegInf
  | NegInf => PosInf
  | NaN => NaN
  end.

Definition round (f : format) (x : Q) : value :=
  if Qeq_bool x 0 then Finite 0
  else if Qle_bool 0 x then round_positive f x
  else opposite (round_positive f (- x)).

(** [a / b] in the format; the zero of the model is the positive one. *)
Definition div (f : format) (a b : value) : value :=
  match a, b with
  | NaN, _ | _, NaN => NaN
  | Finite x, Finite y =>
      if Qeq_bool y 0 then
        if Qeq_bool x 0 then NaN else if Qle_bool 0 x then PosInf else NegInf
      else round f (x / y)
  | Finite _, _ => Finite 0
  | PosInf, Finite y => if Qle_bool 0 y then PosInf else NegInf
  | NegInf, Finite y => if Qle_bool 0 y then NegInf else PosInf
  | _, _ => NaN
  end.

(** [a * b] in the format. *)
Definition mul (f : format) (a b : value) : value :=
  match a, b with
  | NaN, _ | _, NaN => NaN
  | Finite x, Finite y => round f (x * y)
  | Finite x, PosInf | PosInf, Finite x =>
      if Qeq_bool x 0 then NaN else if Qle_bool 0 x then PosInf else NegInf
  | Finite x, NegInf | NegInf, Finite x =>
      if Qeq_bool x 0 then NaN else if Qle_bool 0 x then NegInf else PosInf
  | PosInf, PosInf | NegInf, NegInf => PosInf
  | _, _ => NegInf
  end.

Definition abs (v : value) : value :=
  match v with
  | Finite q => Finite (Qabs q)
  | NaN => NaN
  | _ => PosInf
  end.

(** [a <= b] on values other than NaN. *)
Definition leb (a b : value) : bool :=
  match a, b with
  | NegInf, _ | _, PosInf => true
  | Finite x, Finite y => Qle_bool x y
  | _, _ => false
  end.

(** [torch.max(a, b)] and [torch.min(a, b)]: a NaN operand gives NaN. *)
Definition max (a b : value) : value :=
  match a, b with
  | NaN, _ | _, NaN => NaN
  | _, _ => if leb a b then b else a
  end.

Definition min (a b : value) : value :=
  match a, b with
  | NaN, _ | _, NaN => NaN
  | _, _ => if leb a b then a else b
  end.

(** [v.clamp(min=lo)] and [v.clamp(min=lo, max=hi)]: NaN stays NaN. *)
Definition clamp_min (v lo : value) : value := max v lo.
Definition clamp (v : value) (lo hi : Q) : value :=
  min (max v (Finite lo)) (Finite hi).

(** [v.to(torch.float8_e4m3fn)] after the clamp to [finfo.min, finfo.max]:
    a number within the range is rounded, NaN stays NaN.  The format has
    no infinity and the cast does not saturate; the two quantizers clamp
    before they cast, so the last two cases never come up in them. *)
Definition to_float8_e4m3fn (v : value) : value :=
  match v with
  | Finite q =>
      if Qle_bool (Qabs q) finfo_max then Finite (to_float8_e4m3fn q) else NaN
  | _ => NaN
  end.

(** [v.float()] *)
Definition float (v : value) : value :=
  match v with
  | Finite q => round float32 q
  | _ => v
  end.

(** [v.reciprocal()] of a float32 scalar. *)
Definition reciprocal (v : value) : value := div float32 (Finite 1) v.

Definition tensor : Type := list (list value).

Definition elements (t : tensor) : list value := List.concat t.

Definition tmap (g : value -> value) (t : tensor) : tensor := map (map g) t.

(** [tensor.aminmax()]: raises on a tensor without elements. *)
Definition aminmax (t : tensor) : result (value * value) :=
  match elements t with
  | [] => Err RuntimeError
  | x :: xs => Ok (fold_left min xs x, fold_left max xs x)
  end.

(** [amax.clamp(min=1e-12)], the divisor of [per_tensor_quantize]: the
    bound is taken in the dtype of the tensor. *)
Definition denominator (f : format) (t : tensor) : result value :=
  '(min_val, max_val) <- aminmax t ;;
  let amax := max (abs min_val) (abs max_val) in
  Ok (clamp_min amax (round f epsilon)).

(** [per_tensor_quantize] on a tensor of dtype [f]. *)
Definition per_tensor_quantize (f : format) (t : tensor) : result (tensor * value) :=
  d <- denominator f t ;;
  let scale := div f (Finite finfo_max) d in
  let qweight := tmap (fun x => clamp (mul f x scale) finfo_min finfo_max) t in
  let qweight := tmap to_float8_e4m3fn qweight in
  let scale := reciprocal (float scale) in
  Ok (qweight, scale).

(** [FP8StaticLinear.per_tensor_quantize] on a tensor of dtype [f];
    [inv_scale] is the scale as the division takes it, in the dtype of
    the tensor. *)
Definition FP8StaticLinear_per_tensor_quantize
           (f : format) (t : tensor) (inv_scale : value) : tensor :=
  let qweight := tmap (fun x => clamp (div f x inv_scale) finfo_min finfo_max) t in
  tmap to_float8_e4m3fn qweight.

End Float.

(** ** Notions on the arithmetic of a dtype *)

(** A finite number, one that satisfies [P]. *)
Definition finite_with (P : Q -> Prop) (v : Float.value) : Prop :=
  exists q, v = Float.Finite q /\ P q.


(** A finite number within the range of the format. *)
Definition finite_in (f : Float.format) : Float.value -> Prop :=
  finite_with (fun q => Qabs q <= Float.max_finite f).

Definition is_zero : Float.value -> Prop := finite_with (fun q => q == 0).

(** The call returned, with a scale that is a positive number. *)
Definition positive_scale (r : result (Float.tensor * Float.value)) : Prop :=
  exists q s, r = Ok (q, Float.Finite s) /\ 0 < s.

(** What the rounding argument for the scale of [per_tensor_quantize]
    needs of a format: [1e-12] rounds to a positive number of the format,
    and neither [finfo.max / denominator], nor its conversion to float32,
    nor the reciprocal leaves the range in which rounding stays within a
    factor of two. *)
Definition guard_ok (f : Float.format) : bool :=
  match Float.round f epsilon with
  | Float.Finite e =>
      negb (Qle_bool e 0) && Qle_bool e (Float.max_finite f) &&
      (1 <=? Float.precision f)%Z &&
      Qle_bool (Float.min_positive f) (448 / Float.max_finite f) &&
      Qle_bool (2 * (448 / e)) (Float.max_finite f) &&
      Qle_bool (Float.min_positive Float.float32) (224 / Float.max_finite f) &&
      Qle_bool (2 * (896 / e)) (Float.max_finite Float.float32) &&
      Qle_bool (Float.min_positive Float.float32) (e / 1792) &&
      Qle_bool (2 * (Float.max_finite f / 112)) (Float.max_finite Float.float32)
  | _ => false
  end.
(* ------------------------------------------------------------------ *)
(** * Properties *)

Example e4m3fn_max : e4m3fn_value 126 = finfo_max.
Proof. reflexivity. Qed.

Example quantize_twos :
  per_tensor_quantize [[2; 2]; [2; 2]] = Ok ([[448; 448]; [448; 448]], 1 # 224).
Proof. vm_compute. reflexivity. Qed.

Example quantize_zeros :
  per_tensor_quantize [[0; 0]] = Ok ([[0; 0]], 1 # 448000000000000).
Proof. vm_compute. reflexivity. Qed.

Example quantize_mixed :
  per_tensor_quantize [[1; -4; 3#10]] = Ok ([[112; -448; 32]], 1 # 112).
Proof. vm_compute. reflexivity. Qed.

(** ** Scalar facts *)

Lemma epsilon_pos : 0 < epsilon.
Proof. reflexivity. Qed.

Lemma clamp_min_epsilon_pos (a : Q) : 0 < clamp_min a epsilon.
Proof.
  unfold clamp_min.
  apply Qlt_le_trans with epsilon; [apply epsilon_pos | apply Q.le_max_r].
Qed.

Lemma Qeq_bool_pos (a : Q) : 0 < a -> Qeq_bool a 0 = false.
Proof.
  intro H. destruct (Qeq_bool a 0) eqn:E; [|reflexivity].
  apply Qeq_bool_eq in E. rewrite E in H. discriminate H.
Qed.

Lemma qdiv_pos (a b : Q) : 0 < b -> qdiv a b = Ok (Qred (a / b)).
Proof. intro H. unfold qdiv. now rewrite Qeq_bool_pos. Qed.

Lemma Qdiv_pos (a b : Q) : 0 < a -> 0 < b -> 0 < a / b.
Proof.
  intros Ha Hb. unfold Qdiv.
  apply Qmult_lt_0_compat; [assumption | now apply Qinv_lt_0_compat].
Qed.

Lemma Qred_pos (a : Q) : 0 < a -> 0 < Qred a.
Proof. intro H. now rewrite Qred_correct. Qed.

(** ** aminmax *)

Lemma aminmax_empty (t : tensor) :
  elements t = [] -> aminmax t = Err RuntimeError.
Proof. unfold aminmax. now intros ->. Qed.

Lemma aminmax_nonempty (t : tensor) :
  elements t <> [] -> exists mn mx, aminmax t = Ok (mn, mx).
Proof.
  unfold aminmax. destruct (elements t) as [|x xs]; [congruence|].
  intros _. eauto.
Qed.

Lemma fold_min_le (xs : list Q) (x : Q) :
  fold_left Qmin xs x <= x /\ Forall (fun y => fold_left Qmin xs x <= y) xs.
Proof.
  revert x. induction xs as [|y ys IH]; intro x; simpl.
  - split; [apply Qle_refl | constructor].
  - destruct (IH (Qmin x y)) as [H1 H2]. split.
    + eapply Qle_trans; [exact H1 | apply Q.le_min_l].
    + constructor; [|exact H2].
      eapply Qle_trans; [exact H1 | apply Q.le_min_r].
Qed.

Lemma fold_max_ge (xs : list Q) (x : Q) :
  x <= fold_left Qmax xs x /\ Forall (fun y => y <= fold_left Qmax xs x) xs.
Proof.
  revert x. induction xs as [|y ys IH]; intro x; simpl.
  - split; [apply Qle_refl | constructor].
  - destruct (IH (Qmax x y)) as [H1 H2]. split.
    + eapply Qle_trans; [apply Q.le_max_l | exact H1].
    + constructor; [|exact H2].
      eapply Qle_trans; [apply Q.le_max_r | exact H1].
Qed.

Lemma Qmin_cases (a b : Q) : Qmin a b = a \/ Qmin a b = b.
Proof.
  unfold Qmin, GenericMinMax.gmin. destruct (a ?= b); auto.
Qed.

Lemma Qmax_cases (a b : Q) : Qmax a b = a \/ Qmax a b = b.
Proof.
  unfold Qmax, GenericMinMax.gmax. destruct (a ?= b); auto.
Qed.

Lemma fold_min_in (xs : list Q) (x : Q) : In (fold_left Qmin xs x) (x :: xs).
Proof.
  revert x. induction xs as [|y ys IH]; intro x; [left; reflexivity|].
  cbn [fold_left]. destruct (IH (Qmin x y)) as [H|H].
  - destruct (Qmin_cases x y) as [E|E].
    + left. rewrite <- H. now symmetry.
    + right; left. rewrite <- H. now symmetry.
  - right; right; exact H.
Qed.

Lemma fold_max_in (xs : list Q) (x : Q) : In (fold_left Qmax xs x) (x :: xs).
Proof.
  revert x. induction xs as [|y ys IH]; intro x; [left; reflexivity|].
  cbn [fold_left]. destruct (IH (Qmax x y)) as [H|H].
  - destruct (Qmax_cases x y) as [E|E].
    + left. rewrite <- H. now symmetry.
    + right; left. rewrite <- H. now symmetry.
  - right; right; exact H.
Qed.

(** [aminmax] returns the least and the greatest element. *)
Lemma aminmax_spec (t : tensor) (mn mx : Q) :
  aminmax t = Ok (mn, mx) ->
  In mn (elements t) /\ In mx (elements t) /\
  forall x, In x (elements t) -> mn <= x /\ x <= mx.
Proof.
  unfold aminmax. destruct (elements t) as [|x xs]; [discriminate|].
  intro H. injection H as <- <-.
  split; [apply fold_min_in|]. split; [apply fold_max_in|].
  intros y Hy.
  destruct (fold_min_le xs x) as [L1 L2], (fold_max_ge xs x) as [U1 U2].
  rewrite Forall_forall in L2, U2.
  destruct Hy as [<-|Hy]; auto.
Qed.

(** ** per_tensor_quantize, unfolded *)

Lemma raw_scale_pos (mn mx : Q) : 0 < raw_scale mn mx.
Proof.
  unfold raw_scale. apply Qred_pos, Qdiv_pos; [reflexivity|].
  apply clamp_min_epsilon_pos.
Qed.

Lemma per_tensor_quantize_ok (t : tensor) (mn mx : Q) :
  aminmax t = Ok (mn, mx) ->
  per_tensor_quantize t =
    Ok (tmap to_float8_e4m3fn
          (tmap (fun x => clamp (qmul x (raw_scale mn mx)) finfo_min finfo_max) t),
        Qred (1 / raw_scale mn mx)).
Proof.
  intro H. unfold per_tensor_quantize. rewrite H. cbn [bind].
  rewrite (qdiv_pos _ _ (clamp_min_epsilon_pos _)). cbn [bind].
  unfold reciprocal. rewrite (qdiv_pos _ _ (raw_scale_pos mn mx)). reflexivity.
Qed.

Lemma per_tensor_quantize_empty (t : tensor) :
  elements t = [] -> per_tensor_quantize t = Err RuntimeError.
Proof.
  intro H. unfold per_tensor_quantize. now rewrite (aminmax_empty _ H).
Qed.

Lemma elements_tmap (f : Q -> Q) (t : tensor) :
  elements (tmap f t) = map f (elements t).
Proof.
  unfold elements, tmap. now rewrite concat_map.
Qed.

Lemma tmap_tmap (f g : Q -> Q) (t : tensor) :
  tmap f (tmap g t) = tmap (fun x => f (g x)) t.
Proof.
  unfold tmap. rewrite map_map. apply map_ext. intro row. apply map_map.
Qed.

(** ** The absolute maximum *)

Lemma Qabs_between (mn mx x : Q) :
  mn <= x -> x <= mx -> Qabs x <= Qmax (Qabs mn) (Qabs mx).
Proof.
  intros Hl Hu. destruct (Qlt_le_dec x 0) as [Hneg|Hpos].
  - rewrite (Qabs_neg x) by now apply Qlt_le_weak.
    apply Qle_trans with (Qabs mn); [|apply Q.le_max_l].
    rewrite <- (Qabs_opp mn). apply Qle_trans with (- mn); [|apply Qle_Qabs].
    now apply Qopp_le_compat.
  - rewrite (Qabs_pos x) by assumption.
    apply Qle_trans with (Qabs mx); [|apply Q.le_max_r].
    apply Qle_trans with mx; [assumption | apply Qle_Qabs].
Qed.

Lemma amax_spec (t : tensor) (mn mx : Q) :
  aminmax t = Ok (mn, mx) ->
  (forall x, In x (elements t) -> Qabs x <= Qmax (Qabs mn) (Qabs mx)) /\
  (exists x, In x (elements t) /\ Qabs x = Qmax (Qabs mn) (Qabs mx)).
Proof.
  intro H. destruct (aminmax_spec _ _ _ H) as (Hmn & Hmx & Hb). split.
  - intros x Hx. destruct (Hb x Hx). now apply Qabs_between.
  - destruct (Qmax_cases (Qabs mn) (Qabs mx)) as [E|E]; rewrite E; eauto.
Qed.

Lemma raw_scale_of_amax (mn mx a : Q) :
  Qmax (Qabs mn) (Qabs mx) == a -> epsilon <= a ->
  raw_scale mn mx = Qred (finfo_max / a).
Proof.
  intros Ha He. unfold raw_scale, clamp_min. apply Qred_complete.
  rewrite Ha. now rewrite (Q.max_l a epsilon).
Qed.

(* ------------------------------------------------------------------ *)
(** * C3: the scale formula and the all-2.0 scenario *)





(* ------------------------------------------------------------------ *)
(** * C4: the observer keeps the running maximum *)

Lemma Qgtb_true (a b : Q) : Qgtb a b = true <-> b < a.
Proof.
  unfold Qgtb. rewrite negb_true_iff. split; intro H.
  - apply Qnot_le_lt. intro L. apply Qle_bool_iff in L. congruence.
  - destruct (Qle_bool a b) eqn:E; [|reflexivity].
    apply Qle_bool_iff in E. exfalso. now apply (Qlt_not_le _ _ H).
Qed.

Lemma Qgtb_false (a b : Q) : Qgtb a b = false <-> a <= b.
Proof.
  unfold Qgtb. rewrite negb_false_iff. apply Qle_bool_iff.
Qed.

Lemma scale_le_refl (a : option Q) : scale_le a a.
Proof. destruct a; simpl; [apply Qle_refl | exact I]. Qed.

Lemma scale_le_trans (a b c : option Q) :
  scale_le a b -> scale_le b c -> scale_le a c.
Proof.
  destruct a, b, c; simpl; try tauto. apply Qle_trans.
Qed.

Lemma running_max_ge (a : option Q) (s : Q) :
  scale_le a (running_max a s) /\ scale_le (Some s) (running_max a s).
Proof.
  destruct a as [a|]; simpl.
  - destruct (Qgtb s a) eqn:E.
    + apply Qgtb_true in E. split; [now apply Qlt_le_weak | apply Qle_refl].
    + apply Qgtb_false in E. split; [apply Qle_refl | exact E].
  - split; [exact I | apply Qle_refl].
Qed.

Lemma fold_running_max_mono (ss : list Q) (a : option Q) :
  scale_le a (fold_left running_max ss a).
Proof.
  revert a. induction ss as [|s ss IH]; intro a; simpl.
  - apply scale_le_refl.
  - eapply scale_le_trans; [apply running_max_ge | apply IH].
Qed.

(** Folding [running_max] from the absent scale yields the greatest of
    the observed scales. *)
Lemma fold_running_max_spec (ss : list Q) (a : option Q) :
  (a = None -> ss <> [] ->
   exists m, fold_left running_max ss a = Some m /\ In m ss) /\
  (forall s, In s ss -> scale_le (Some s) (fold_left running_max ss a)) /\
  (forall a0, a = Some a0 ->
   exists m, fold_left running_max ss a = Some m /\ (m = a0 \/ In m ss)).
Proof.
  revert a. induction ss as [|s ss IH]; intro a.
  - split; [congruence|]. split; [intros ? []|].
    intros a0 ->. simpl. eauto.
  - cbn [fold_left].
    destruct (IH (running_max a s)) as (_ & IHle & IHsome).
    assert (Hsome : exists m, fold_left running_max ss (running_max a s) = Some m /\
                              ((exists a0, a = Some a0 /\ m = a0) \/ In m (s :: ss))).
    { destruct a as [a0|]; simpl running_max in *.
      - destruct (IHsome _ eq_refl) as (m & Hm & Hin). exists m. split; [exact Hm|].
        destruct Hin as [->|Hin]; [|right; now right].
        destruct (Qgtb s a0); [right; now left | left; eauto].
      - destruct (IHsome _ eq_refl) as (m & Hm & Hin). exists m. split; [exact Hm|].
        right. destruct Hin as [->|Hin]; [now left | now right]. }
    split; [|split].
    + intros -> _. destruct Hsome as (m & Hm & [(a0 & Ha & _)|Hin]); [discriminate|].
      eauto.
    + intros s' [<-|Hin]; [|now apply IHle].
      eapply scale_le_trans; [apply (proj2 (running_max_ge a s))|].
      apply fold_running_max_mono.
    + intros a0 ->. destruct Hsome as (m & Hm & [(a1 & Ha & ->)|Hin]).
      * injection Ha as <-. eauto.
      * eauto.
Qed.

Section Observer.

Variable cuda_compute_capability : nat * nat.
Variable scaled_mm : tensor -> tensor -> Q -> Q -> option (list Q) -> result tensor.
Variables (weight : tensor) (weight_scale : Q).

Let forward := FP8StaticLinearQuantizer_forward
                 cuda_compute_capability scaled_mm weight weight_scale.
Let passes := calibration_passes
                cuda_compute_capability scaled_mm weight weight_scale.

Lemma forward_updates_scale (a : option Q) (x out : tensor) (a' : option Q) :
  forward a x = Ok (out, a') ->
  exists s, per_pass_scale x = Ok s /\ a' = running_max a s.
Proof.
  unfold forward, FP8StaticLinearQuantizer_forward, per_pass_scale.
  destruct (per_tensor_quantize x) as [[q s]|e]; [|discriminate]. cbn [bind].
  destruct (fp8_gemm _ _ _ _ _ _ _) as [o|e]; [|discriminate]. cbn [bind].
  intro H. injection H as _ <-. exists s. split; [reflexivity|].
  now destruct a.
Qed.

Lemma passes_fold (xs : list tensor) (a a' : option Q) :
  passes a xs = Ok a' ->
  exists ss, mapM per_pass_scale xs = Ok ss /\ a' = fold_left running_max ss a.
Proof.
  revert a. induction xs as [|x xs IH]; intro a; cbn [passes calibration_passes].
  - intro H. injection H as <-. exists []. now split.
  - fold forward. destruct (forward a x) as [[out a1]|e] eqn:E; [|discriminate].
    cbn [bind]. intro H. destruct (forward_updates_scale _ _ _ _ E) as (s & Hs & ->).
    destruct (IH _ H) as (ss & Hss & ->).
    exists (s :: ss). cbn [mapM]. rewrite Hs, Hss. now split.
Qed.

End Observer.

(** C4: through any sequence of calibration forward passes of an observer
    the stored activation scale never decreases; a pass returns exactly
    when the quantization of its input and the gemm do, and stores the
    running maximum; the first pass stores its scale whatever it is;
    started from the absent scale, the stored scale after the passes is
    the greatest of the per-pass scales. *)
Theorem calibration_running_max
        (cuda_compute_capability : nat * nat)
        (scaled_mm : tensor -> tensor -> Q -> Q -> option (list Q) -> result tensor)
        (weight : tensor) (weight_scale : Q) :
  let forward := FP8StaticLinearQuantizer_forward
                   cuda_compute_capability scaled_mm weight weight_scale in
  let passes := calibration_passes
                  cuda_compute_capability scaled_mm weight weight_scale in
  (forall xs a a',
      passes a xs = Ok a' -> scale_le a a') /\
  (forall a x out a',
      forward a x = Ok (out, a') <->
      exists qinput s a1,
        per_tensor_quantize x = Ok (qinput, s) /\
        running_max a s = Some a1 /\ a' = Some a1 /\
        fp8_gemm cuda_compute_capability scaled_mm qinput a1 weight weight_scale None
        = Ok out) /\
  (forall x out a',
      forward None x = Ok (out, a') ->
      exists s, per_pass_scale x = Ok s /\ a' = Some s) /\
  (forall x xs final,
      passes None (x :: xs) = Ok final ->
      exists ss m,
        mapM per_pass_scale (x :: xs) = Ok ss /\ final = Some m /\
        In m ss /\ forall s, In s ss -> s <= m).
Proof.
  cbv zeta. split; [|split; [|split]].
  - intros xs a a' H.
    destruct (passes_fold _ _ _ _ _ _ _ H) as (ss & _ & ->).
    apply fold_running_max_mono.
  - intros a x out a'. unfold FP8StaticLinearQuantizer_forward. split.
    + destruct (per_tensor_quantize x) as [[q s]|e]; [|discriminate]. cbn [bind].
      destruct (fp8_gemm _ _ _ _ _ _ _) as [o|e] eqn:E; [|discriminate]. cbn [bind].
      intros [= <- <-]. exists q, s. eexists. split; [reflexivity|].
      split; [|split; [reflexivity | exact E]]. now destruct a.
    + intros (q & s & a1 & -> & Ha & -> & Hg). cbn [bind].
      assert (a1 = match a with
                   | Some a0 => if Qgtb s a0 then s else a0
                   | None => s
                   end) as <- by (destruct a; cbn in Ha; congruence).
      now rewrite Hg.
  - intros x out a' H.
    destruct (forward_updates_scale _ _ _ _ _ _ _ _ H) as (s & Hs & ->). eauto.
  - intros x xs final H.
    destruct (passes_fold _ _ _ _ _ _ _ H) as (ss & Hss & ->).
    assert (Hne : ss <> []).
    { intros ->. cbn [mapM] in Hss.
      destruct (per_pass_scale x); [|discriminate]. cbn [bind] in Hss.
      destruct (mapM per_pass_scale xs); discriminate. }
    destruct (fold_running_max_spec ss None) as (Hmax & Hle & _).
    destruct (Hmax eq_refl Hne) as (m & Hm & Hin).
    exists ss, m. rewrite Hm. repeat split; auto.
    intros s Hs. specialize (Hle s Hs). now rewrite Hm in Hle.
Qed.

(** The scenario of the specification: per-pass scales 0.5 and 0.3. *)
Lemma calibration_running_max_witness :
  exists ss m,
    mapM per_pass_scale [[[224; 1]]; [[672 # 5; 1]]] = Ok ss /\
    Some (1 # 2) = Some m /\ In m ss /\ forall s, In s ss -> s <= m.
Proof.
  apply (proj2 (proj2 (proj2 (calibration_running_max
                                (8, 0)%nat (fun _ _ _ _ _ => Err RuntimeError)
                                [[1; 1]] 1)))).
  vm_compute. reflexivity.
Defined.

(* ------------------------------------------------------------------ *)
(** * Maps that do not fail, quotients by a divisor other than zero *)

Lemma mapM_total {A B : Type} (f : A -> result B) (g : A -> B) (l : list A) :
  (forall a, f a = Ok (g a)) -> mapM f l = Ok (map g l).
Proof.
  intro H. induction l as [|a l IH]; [reflexivity|].
  cbn [mapM map]. now rewrite H, IH.
Qed.

Lemma qdiv_nonzero (x s : Q) : ~ s == 0 -> qdiv x s = Ok (Qred (x / s)).
Proof.
  intro H. unfold qdiv. destruct (Qeq_bool s 0) eqn:E; [|reflexivity].
  now apply Qeq_bool_eq in E.
Qed.

(* ------------------------------------------------------------------ *)
(** * Dotted names *)

Section Names.

Local Open Scope string_scope.

Lemma contains_dot_app (a b : string) :
  contains_dot (a ++ b) = contains_dot a || contains_dot b.
Proof.
  induction a as [|c a IH]; simpl; [reflexivity|].
  rewrite IH. now rewrite orb_assoc.
Qed.

Lemma contains_dot_join (p k : string) : contains_dot (p ++ "." ++ k) = true.
Proof.
  rewrite contains_dot_app. simpl. apply orb_true_r.
Qed.

Lemma rsplit_head_join (p k : string) :
  contains_dot k = false -> rsplit_head (p ++ "." ++ k) = p.
Proof.
  intro Hk. induction p as [|c p IH]; simpl.
  - now rewrite Hk.
  - change (p ++ String "." k) with (p ++ "." ++ k).
    now rewrite contains_dot_join, IH.
Qed.

Lemma slice_from_join (p k : string) :
  slice_from (String.length p + 1) (p ++ "." ++ k) = k.
Proof. induction p as [|c p IH]; simpl; [reflexivity | exact IH]. Qed.

Lemma split_dot_not_nil (s : string) : split_dot s <> [].
Proof.
  induction s as [|c s IH]; simpl; [discriminate|].
  destruct (Ascii.eqb c "."); [discriminate|].
  destruct (split_dot s); discriminate.
Qed.

Lemma split_dot_atom (k : string) : contains_dot k = false -> split_dot k = [k].
Proof.
  induction k as [|c k IH]; simpl; [reflexivity|].
  intro H. apply orb_false_iff in H. destruct H as [Hc Hk].
  now rewrite Hc, IH.
Qed.

Lemma split_dot_join (a b : string) :
  split_dot (a ++ "." ++ b) = (split_dot a ++ split_dot b)%list.
Proof.
  induction a as [|c a IH]; simpl; [reflexivity|].
  change (a ++ String "." b) with (a ++ "." ++ b). rewrite IH.
  destruct (Ascii.eqb c "."); [reflexivity|].
  destruct (split_dot a) eqn:E; [now apply split_dot_not_nil in E | reflexivity].
Qed.

Lemma valid_name_spec (k : string) :
  valid_name k = true -> k <> "" /\ contains_dot k = false.
Proof.
  unfold valid_name. rewrite andb_true_iff, !negb_true_iff.
  intros [H1 H2]. split; [|exact H2]. now apply String.eqb_neq.
Qed.

Lemma submodule_prefix_root (k : string) : submodule_prefix "" k = k.
Proof. reflexivity. Qed.

Lemma submodule_prefix_nested (p k : string) :
  p <> "" -> submodule_prefix p k = p ++ "." ++ k.
Proof.
  intro H. unfold submodule_prefix. apply String.eqb_neq in H. now rewrite H.
Qed.

Lemma append_not_empty (a b : string) : b <> "" -> a ++ b <> "".
Proof. destruct a; simpl; [auto | discriminate]. Qed.

Lemma submodule_prefix_not_empty (p k : string) :
  k <> "" -> submodule_prefix p k <> "".
Proof.
  intro H. unfold submodule_prefix.
  destruct (String.eqb p ""); now repeat apply append_not_empty.
Qed.

Lemma name_of_not_empty (l : layer) (ctx : context) :
  context_ok (l :: ctx) -> name_of (l :: ctx) <> "".
Proof.
  intro H. inversion H as [|? ? [Hv _] _]; subst. simpl.
  apply submodule_prefix_not_empty. now apply valid_name_spec.
Qed.

Lemma split_dot_name_of (l : layer) (ctx : context) :
  context_ok (l :: ctx) -> split_dot (name_of (l :: ctx)) = atoms_of (l :: ctx).
Proof.
  revert l. induction ctx as [|l' ctx IH]; intros l H.
  - inversion H as [|? ? [Hv _] _]; subst. simpl.
    apply split_dot_atom. now apply valid_name_spec.
  - inversion H as [|? ? [Hv _] Hctx]; subst.
    cbn [name_of atoms_of] in *.
    rewrite submodule_prefix_nested by (apply (name_of_not_empty l' ctx Hctx)).
    rewrite split_dot_join, (IH l' Hctx).
    rewrite split_dot_atom by now apply valid_name_spec. reflexivity.
Qed.

End Names.

(** * Ordered dictionaries and rebinding *)

Lemma bind_ok {A : Type} (r : result A) : (x <- r ;; Ok x) = r.
Proof. now destruct r. Qed.

Lemma bind_assoc {A B C : Type} (r : result A) (f : A -> result B) (g : B -> result C) :
  (y <- (x <- r ;; f x) ;; g y) = (x <- r ;; y <- f x ;; g y).
Proof. now destruct r. Qed.

Lemma existsb_eqb_in (k : string) (keys : list string) :
  existsb (String.eqb k) keys = true <-> In k keys.
Proof.
  rewrite existsb_exists. split.
  - intros (x & Hin & E). apply String.eqb_eq in E. now subst.
  - intro H. exists k. split; [exact H | apply String.eqb_refl].
Qed.

Lemma dict_get_middle (k : string) (x : module) (b a : list (string * module)) :
  ~ In k (map fst b) -> dict_get k (b ++ (k, x) :: a) = Some x.
Proof.
  induction b as [|[k' v] b IH]; simpl; intro H.
  - now rewrite String.eqb_refl.
  - destruct (String.eqb k' k) eqn:E.
    + apply String.eqb_eq in E. tauto.
    + apply IH. tauto.
Qed.

Lemma dict_set_middle (k : string) (x v : module) (b a : list (string * module)) :
  ~ In k (map fst b) -> dict_set k v (b ++ (k, x) :: a) = b ++ (k, v) :: a.
Proof.
  induction b as [|[k' w] b IH]; simpl; intro H.
  - now rewrite String.eqb_refl.
  - destruct (String.eqb k' k) eqn:E.
    + apply String.eqb_eq in E. tauto.
    + rewrite IH; [reflexivity | tauto].
Qed.

Lemma with_atoms_plug (f : module -> result module) (ctx : context) :
  context_ok ctx ->
  forall (x : module) (more : list string),
    with_atoms (plug ctx x) (atoms_of ctx ++ more) f
    = (x' <- with_atoms x more f ;; Ok (plug ctx x')).
Proof.
  induction ctx as [|l ctx IH]; intros Hok x more.
  - simpl. now rewrite bind_ok.
  - inversion Hok as [|? ? [Hv Hnin] Hctx]; subst.
    cbn [plug atoms_of]. rewrite <- app_assoc. cbn [app].
    rewrite (IH Hctx). cbn [with_atoms].
    rewrite (dict_get_middle _ _ _ _ Hnin), bind_assoc.
    destruct (with_atoms x more f) as [x'|e]; [|reflexivity].
    cbn [bind]. now rewrite (dict_set_middle _ _ _ _ _ Hnin).
Qed.

(** Rebinding by dotted name replaces the module in the hole of the
    context that has this name. *)
Lemma rebind_plug (l : layer) (ctx : context) (c v : module) :
  context_ok (l :: ctx) ->
  rebind (plug (l :: ctx) c) (name_of (l :: ctx)) v = Ok (plug (l :: ctx) v).
Proof.
  intro Hok. inversion Hok as [|? ? [Hv Hnin] Hctx]; subst.
  destruct (valid_name_spec _ Hv) as [Hne Hdot].
  unfold rebind. destruct ctx as [|l' ctx].
  - cbn [name_of plug]. rewrite submodule_prefix_root, Hdot.
    unfold setattr. now rewrite (dict_set_middle _ _ _ _ _ Hnin).
  - cbn [name_of]. fold (name_of (l' :: ctx)).
    pose proof (name_of_not_empty _ _ Hctx) as Hp.
    rewrite (submodule_prefix_nested _ _ Hp).
    rewrite contains_dot_join, (rsplit_head_join _ _ Hdot), slice_from_join.
    unfold with_submodule.
    rewrite (proj2 (String.eqb_neq _ _) Hp), (split_dot_name_of _ _ Hctx).
    rewrite <- (app_nil_r (atoms_of (l' :: ctx))).
    change (plug (l :: l' :: ctx) c)
      with (plug (l' :: ctx) (Module (before l ++ (key l, c) :: after l))).
    rewrite (with_atoms_plug _ _ Hctx). cbn [with_atoms setattr bind].
    now rewrite (dict_set_middle _ _ _ _ _ Hnin).
Qed.

(* ------------------------------------------------------------------ *)
(** * The traversal *)

Lemma module_at_plug (ctx : context) (m : module) (p : list nat) :
  module_at (plug ctx m) (path_of ctx ++ p) = module_at m p.
Proof.
  revert m p. induction ctx as [|l ctx IH]; intros m p; [reflexivity|].
  cbn [plug path_of]. rewrite <- app_assoc, IH. cbn [app module_at].
  now rewrite nth_error_app2, Nat.sub_diag by apply Nat.le_refl.
Qed.

Lemma module_at_plug_hole (ctx : context) (m : module) :
  module_at (plug ctx m) (path_of ctx) = Some m.
Proof.
  rewrite <- (app_nil_r (path_of ctx)). now rewrite module_at_plug.
Qed.

Lemma with_yields_nil (r : result (module * list (string * module))) :
  with_yields [] r = r.
Proof. now destruct r as [[? ?]|]. Qed.

Lemma with_yields_app (l1 l2 : list (string * module))
      (r : result (module * list (string * module))) :
  with_yields l1 (with_yields l2 r) = with_yields (l1 ++ l2) r.
Proof.
  destruct r as [[final ys]|e]; [|reflexivity].
  unfold with_yields. cbn [bind]. now rewrite app_assoc.
Qed.

Lemma with_yields_bind {A : Type} (l : list (string * module)) (r : result A)
      (k : A -> result (module * list (string * module))) :
  with_yields l (x <- r ;; k x) = (x <- r ;; with_yields l (k x)).
Proof. now destruct r. Qed.

Section Loop.

Variable body : module -> string -> module -> result module.

Lemma yields_step (n : nat) (root : module) (pre : string) (path : list nat)
      (i : nat) (rest : list frame)
      (cs : list (string * module)) (k : string) (c : module) :
  module_at root path = Some (Module cs) ->
  nth_error cs i = Some (k, c) ->
  for_named_modules_yields (S n) body root (Running (Frame pre path i :: rest))
  = (root' <- body root (submodule_prefix pre k) c ;;
     with_yields [(submodule_prefix pre k, c)]
       (for_named_modules_yields n body root'
          (Running (Frame (submodule_prefix pre k) (path ++ [i]) 0
                      :: Frame pre path (S i) :: rest)))).
Proof.
  intros Hat Hnth. cbn [for_named_modules_yields next resume prefix self pos].
  rewrite Hat, Hnth. reflexivity.
Qed.

Lemma yields_skip (n : nat) (root : module) (fr : frame) (rest : list frame) :
  resume root (fr :: rest) = resume root rest ->
  for_named_modules_yields n body root (Running (fr :: rest))
  = for_named_modules_yields n body root (Running rest).
Proof.
  intro H. destruct n; [reflexivity|].
  cbn [for_named_modules_yields next]. now rewrite H.
Qed.

Lemma resume_leaf (root : module) (fr : frame) (rest : list frame) (m : module) :
  module_at root (self fr) = Some m -> is_leaf m = true ->
  resume root (fr :: rest) = resume root rest.
Proof.
  intros Hat Hleaf. cbn [resume]. rewrite Hat. now destruct m.
Qed.

Lemma resume_exhausted (root : module) (fr : frame) (rest : list frame)
      (cs : list (string * module)) :
  module_at root (self fr) = Some (Module cs) -> nth_error cs (pos fr) = None ->
  resume root (fr :: rest) = resume root rest.
Proof.
  intros Hat Hnth. cbn [resume]. now rewrite Hat, Hnth.
Qed.

(** The loop, without the record of what was yielded. *)
Lemma for_named_modules_yields_fst (n : nat) (root : module) (g : generator) :
  for_named_modules n body root g
  = ('(final, _) <- for_named_modules_yields n body root g ;; Ok final).
Proof.
  revert root g. induction n as [|n IH]; intros root g; [reflexivity|].
  cbn [for_named_modules for_named_modules_yields].
  destruct (next root g) as [[[name m] g']|]; [|reflexivity].
  destruct (body root name m) as [root'|e]; [|reflexivity].
  cbn [bind]. rewrite IH.
  now destruct (for_named_modules_yields n body root' g') as [[? ?]|].
Qed.

End Loop.

Lemma size_succ (m : module) :
  size m = match m with
           | Module cs => S (count_children cs)
           | _ => 1%nat
           end.
Proof. now destruct m. Qed.

Lemma count_children_cons (k : string) (c : module) (cs : list (string * module)) :
  count_children ((k, c) :: cs) = (size c + count_children cs)%nat.
Proof. reflexivity. Qed.

Lemma size_pos (m : module) : (1 <= size m)%nat.
Proof. rewrite size_succ. destruct m; lia. Qed.

Lemma unique_middle (a b : list string) (k : string) :
  unique (a ++ k :: b) = true -> ~ In k a.
Proof.
  induction a as [|x a IH]; simpl; [tauto|].
  rewrite andb_true_iff, negb_true_iff. intros [Hx Hu] [->|Hin].
  - assert (In k (a ++ k :: b)) as Hk by (apply in_or_app; right; now left).
    apply existsb_eqb_in in Hk. congruence.
  - now apply IH.
Qed.

Section Traversal.

Variable f : replacement.
Hypothesis f_container : forall cs, f (Module cs) = None.
Hypothesis f_leaf : forall m v, f m = Some (Ok v) -> is_leaf v = true.

Lemma rewrite_leaf (c v : module) :
  is_leaf c = true -> rewrite f c = Ok v -> is_leaf v = true.
Proof.
  intros Hc. destruct c; try discriminate Hc; cbn [rewrite];
    (destruct (f _) as [r|] eqn:E; [intros ->; exact (f_leaf _ _ E) | now intros [= <-]]).
Qed.

Lemma body_of_leaf (l : layer) (ctx : context) (c : module) :
  is_leaf c = true -> context_ok (l :: ctx) ->
  body_of f (plug (l :: ctx) c) (name_of (l :: ctx)) c
  = (v <- rewrite f c ;; Ok (plug (l :: ctx) v)).
Proof.
  intros Hc Hok. unfold body_of.
  destruct c; try discriminate Hc; cbn [rewrite];
    (destruct (f _) as [[v|e]|]; cbn [bind];
     [apply rebind_plug; exact Hok | reflexivity | reflexivity]).
Qed.

Lemma traverse_children (N : nat) :
  forall todo, (count_children todo <= N)%nat ->
  forall ctx done rest n,
    context_ok ctx -> keys_ok done todo ->
    for_named_modules_yields (count_children todo + n) (body_of f)
      (plug ctx (Module (done ++ todo)))
      (Running (Frame (name_of ctx) (path_of ctx) (List.length done) :: rest))
    = (todo' <- rewrite_children f todo ;;
       with_yields (flatten_children (name_of ctx) todo)
         (for_named_modules_yields n (body_of f)
            (plug ctx (Module (done ++ todo'))) (Running rest))).
Proof.
  induction N as [|N IH]; intros todo HN ctx done rest n Hctx (Hu & Hv & Hw).
  - assert (todo = []) as ->.
    { destruct todo as [|[k c] todo]; [reflexivity|]. exfalso.
      rewrite count_children_cons in HN. pose proof (size_pos c). lia. }
    change (count_children []) with 0%nat.
    cbn [rewrite_children mapM bind flatten_children map List.concat plus].
    rewrite with_yields_nil. apply yields_skip.
    eapply resume_exhausted; [apply module_at_plug_hole|].
    cbn [pos]. apply nth_error_None. rewrite app_nil_r. apply Nat.le_refl.
  - destruct todo as [|[k c] todo].
    { change (count_children []) with 0%nat.
      cbn [rewrite_children mapM bind flatten_children map List.concat plus].
      rewrite with_yields_nil. apply yields_skip.
      eapply resume_exhausted; [apply module_at_plug_hole|].
      cbn [pos]. apply nth_error_None. rewrite app_nil_r. apply Nat.le_refl. }
    cbn [map fst forallb snd] in Hu, Hv, Hw.
    apply andb_true_iff in Hv. destruct Hv as [Hk Hv].
    apply andb_true_iff in Hw. destruct Hw as [Hc Hw].
    pose proof (unique_middle _ _ _ Hu) as Hnin.
    set (l := Layer done k todo).
    assert (Hl : context_ok (l :: ctx)).
    { constructor; [split; assumption | exact Hctx]. }
    assert (Hnext : keys_ok (done ++ [(k, c)]) todo /\
                    forall v, map fst (done ++ [(k, v)]) = map fst (done ++ [(k, c)])).
    { split; [|intro v; now rewrite !map_app].
      repeat split; try assumption.
      rewrite map_app, <- app_assoc. exact Hu. }
    destruct Hnext as [(Hu' & _ & _) Hkeys].
    assert (Hat : module_at (plug ctx (Module (done ++ (k, c) :: todo))) (path_of ctx)
                  = Some (Module (done ++ (k, c) :: todo)))
      by apply module_at_plug_hole.
    assert (Hnth : nth_error (done ++ (k, c) :: todo) (List.length done) = Some (k, c)).
    { now rewrite nth_error_app2, Nat.sub_diag by apply Nat.le_refl. }
    pose proof (count_children_cons k c todo) as Hcount.
    rewrite Hcount in HN.
    assert (Hsplit : forall v, done ++ (k, v) :: todo = (done ++ [(k, v)]) ++ todo).
    { intro v. now rewrite <- app_assoc. }
    assert (Hlen : forall v, S (List.length done) = List.length (done ++ [(k, v)])).
    { intro v. rewrite length_app. cbn. lia. }
    destruct (is_leaf c) eqn:Hleaf.
    + (* an affine layer *)
      assert (Hsz : size c = 1%nat) by (destruct c; [reflexivity..|discriminate]).
      rewrite Hcount, Hsz. cbn [plus].
      rewrite (yields_step _ _ _ _ _ _ _ _ _ _ Hat Hnth).
      change (submodule_prefix (name_of ctx) k) with (name_of (l :: ctx)).
      change (plug ctx (Module (done ++ (k, c) :: todo))) with (plug (l :: ctx) c).
      rewrite (body_of_leaf l ctx c Hleaf Hl).
      unfold rewrite_children. cbn [mapM fst snd]. fold (rewrite_children f todo).
      rewrite !bind_assoc.
      destruct (rewrite f c) as [v|e] eqn:Ev; [|reflexivity]. cbn [bind].
      pose proof (rewrite_leaf _ _ Hleaf Ev) as Hvleaf.
      rewrite yields_skip
        by (eapply resume_leaf; [apply (module_at_plug_hole (l :: ctx)) | exact Hvleaf]).
      change (plug (l :: ctx) v) with (plug ctx (Module (done ++ (k, v) :: todo))).
      rewrite (Hsplit v), (Hlen v).
      rewrite (IH todo); [| lia
                          | exact Hctx
                          | repeat split; [now rewrite Hkeys | assumption..] ].
      rewrite with_yields_bind.
      destruct (rewrite_children f todo) as [todo'|e]; [|reflexivity]. cbn [bind].
      rewrite with_yields_app, <- app_assoc. cbn [app].
      unfold flatten_children. cbn [map List.concat fst snd].
      destruct c; try discriminate Hleaf; reflexivity.
    + (* a container *)
      destruct c as [| | | |ds]; try discriminate Hleaf.
      rewrite Hcount, size_succ.
      replace (S (count_children ds) + count_children todo + n)%nat
        with (S (count_children ds + (count_children todo + n)))%nat by lia.
      rewrite (yields_step _ _ _ _ _ _ _ _ _ _ Hat Hnth).
      unfold body_of at 1. rewrite f_container. cbn [bind].
      change (submodule_prefix (name_of ctx) k) with (name_of (l :: ctx)).
      change (path_of ctx ++ [List.length done]) with (path_of (l :: ctx)).
      change (plug ctx (Module (done ++ (k, Module ds) :: todo)))
        with (plug (l :: ctx) (Module ([] ++ ds))).
      change 0%nat with (List.length (@nil (string * module))).
      cbn [well_formed] in Hc. apply andb_true_iff in Hc. destruct Hc as [Hds Hwds].
      unfold children_ok in Hds. apply andb_true_iff in Hds. destruct Hds as [Huds Hvds].
      rewrite (IH ds); [| rewrite size_succ in HN; lia
                        | exact Hl
                        | repeat split; assumption ].
      unfold rewrite_children at 2. cbn [mapM fst snd rewrite].
      fold (rewrite_children f ds). fold (rewrite_children f todo).
      rewrite !bind_assoc, with_yields_bind.
      destruct (rewrite_children f ds) as [ds'|e]; [|reflexivity]. cbn [bind app].
      change (plug (l :: ctx) (Module ds'))
        with (plug ctx (Module (done ++ (k, Module ds') :: todo))).
      rewrite (Hsplit (Module ds')), (Hlen (Module ds')).
      rewrite (IH todo); [| rewrite size_succ in HN; lia
                          | exact Hctx
                          | repeat split; [now rewrite Hkeys | assumption..] ].
      rewrite !with_yields_bind.
      destruct (rewrite_children f todo) as [todo'|e]; [|reflexivity]. cbn [bind].
      rewrite !with_yields_app, <- (app_assoc done). cbn [app].
      reflexivity.
Qed.

End Traversal.

Lemma yields_fresh (body : module -> string -> module -> result module)
      (n : nat) (root : module) :
  for_named_modules_yields (S n) body root Fresh
  = (root' <- body root EmptyString root ;;
     with_yields [(EmptyString, root)]
       (for_named_modules_yields n body root' (Running [Frame EmptyString [] 0]))).
Proof. reflexivity. Qed.

(** The loop over a well-formed graph: it yields the modules the graph
    had when the loop began, and ends with the rewritten graph. *)
Lemma for_named_modules_yields_rewrite (f : replacement) (model : module) :
  (forall cs, f (Module cs) = None) ->
  (forall m v, f m = Some (Ok v) -> is_leaf v = true) ->
  well_formed_model model = true ->
  for_named_modules_yields (fuel model) (body_of f) model Fresh
  = (model' <- rewrite f model ;; Ok (model', flatten EmptyString model)).
Proof.
  intros Hcont Hleaf Hwf.
  destruct model as [| | | |cs]; try discriminate Hwf.
  cbn [well_formed_model well_formed] in Hwf.
  apply andb_true_iff in Hwf. destruct Hwf as [Hk Hw].
  unfold children_ok in Hk. apply andb_true_iff in Hk. destruct Hk as [Hu Hv].
  unfold fuel. rewrite size_succ.
  replace (S (count_children cs)) with (count_children cs + 1)%nat by lia.
  rewrite yields_fresh. unfold body_of at 1.
  rewrite Hcont. cbn [bind].
  pose proof (traverse_children f Hcont Hleaf (count_children cs) cs (Nat.le_refl _)
                [] [] [] 1%nat (Forall_nil _)) as H.
  cbn [plug app name_of path_of List.length] in H.
  rewrite H by (repeat split; assumption). clear H.
  cbn [rewrite]. fold (rewrite_children f cs). rewrite !bind_assoc.
  rewrite with_yields_bind.
  destruct (rewrite_children f cs) as [cs'|e]; [|reflexivity].
  cbn [bind for_named_modules_yields next resume]. rewrite with_yields_app.
  unfold with_yields. cbn [bind]. now rewrite app_nil_r.
Qed.

Lemma for_named_modules_rewrite (f : replacement) (model : module) :
  (forall cs, f (Module cs) = None) ->
  (forall m v, f m = Some (Ok v) -> is_leaf v = true) ->
  well_formed_model model = true ->
  for_named_modules (fuel model) (body_of f) model Fresh = rewrite f model.
Proof.
  intros Hcont Hleaf Hwf.
  rewrite for_named_modules_yields_fst,
    (for_named_modules_yields_rewrite f model Hcont Hleaf Hwf).
  now destruct (rewrite f model).
Qed.

Lemma for_named_modules_ext (body body' : module -> string -> module -> result module) :
  (forall root name m, body root name m = body' root name m) ->
  forall n root g,
    for_named_modules n body root g = for_named_modules n body' root g.
Proof.
  intros H n. induction n as [|n IH]; intros root g; [reflexivity|].
  cbn [for_named_modules]. destruct (next root g) as [[[name m] g']|]; [|reflexivity].
  rewrite H. destruct (body' root name m); [apply IH | reflexivity].
Qed.

Lemma for_named_modules_yields_ext
      (body body' : module -> string -> module -> result module) :
  (forall root name m, body root name m = body' root name m) ->
  forall n root g,
    for_named_modules_yields n body root g = for_named_modules_yields n body' root g.
Proof.
  intros H n. induction n as [|n IH]; intros root g; [reflexivity|].
  cbn [for_named_modules_yields].
  destruct (next root g) as [[[name m] g']|]; [|reflexivity].
  rewrite H. destruct (body' root name m); [cbn [bind]; now rewrite IH | reflexivity].
Qed.

(** ** The three loop bodies *)

Lemma quantize_weights_body_of (root : module) (name : string) (m : module) :
  quantize_weights_body root name m = body_of to_dynamic root name m.
Proof.
  unfold quantize_weights_body, body_of.
  destruct m; try reflexivity. cbn [to_dynamic].
  now destruct (per_tensor_quantize weight) as [[q s]|e].
Qed.

Lemma replace_with_quantizer_body_of (root : module) (name : string) (m : module) :
  replace_with_quantizer_body root name m = body_of to_quantizer root name m.
Proof. now destruct m. Qed.

Lemma replace_with_static_body_of (root : module) (name : string) (m : module) :
  replace_with_static_body root name m = body_of to_static root name m.
Proof. now destruct m. Qed.

Lemma to_dynamic_leaf (m v : module) : to_dynamic m = Some (Ok v) -> is_leaf v = true.
Proof.
  destruct m; try discriminate. cbn [to_dynamic].
  destruct (per_tensor_quantize weight) as [[q s]|e]; [|discriminate].
  now intros [= <-].
Qed.

Lemma to_quantizer_leaf (m v : module) : to_quantizer m = Some (Ok v) -> is_leaf v = true.
Proof. destruct m; try discriminate. now intros [= <-]. Qed.

Lemma to_static_leaf (m v : module) : to_static m = Some (Ok v) -> is_leaf v = true.
Proof. destruct m; try discriminate. now intros [= <-]. Qed.

Lemma quantize_weights_rewrite (model : module) :
  well_formed_model model = true ->
  quantize_weights model = rewrite to_dynamic model.
Proof.
  intro Hwf. unfold quantize_weights.
  rewrite (for_named_modules_ext _ _ quantize_weights_body_of).
  now apply for_named_modules_rewrite; [intro | apply to_dynamic_leaf |].
Qed.

Lemma replace_with_quantizer_rewrite (model : module) :
  well_formed_model model = true ->
  replace_with_quantizer model = rewrite to_quantizer model.
Proof.
  intro Hwf. unfold replace_with_quantizer.
  rewrite (for_named_modules_ext _ _ replace_with_quantizer_body_of).
  now apply for_named_modules_rewrite; [intro | apply to_quantizer_leaf |].
Qed.

Lemma replace_with_static_rewrite (model : module) :
  well_formed_model model = true ->
  replace_with_static model = rewrite to_static model.
Proof.
  intro Hwf. unfold replace_with_static.
  rewrite (for_named_modules_ext _ _ replace_with_static_body_of).
  now apply for_named_modules_rewrite; [intro | apply to_static_leaf |].
Qed.

(* ------------------------------------------------------------------ *)
(** * The rewrite of a graph *)

Lemma module_induction (P : module -> Prop) :
  (forall m, is_leaf m = true -> P m) ->
  (forall cs, Forall (fun kc => P (snd kc)) cs -> P (Module cs)) ->
  forall m, P m.
Proof.
  intros Hleaf Hmod. fix IH 1. intros [ | | | |cs]; try (now apply Hleaf).
  apply Hmod. induction cs as [|[k c] cs IHcs]; constructor; [apply IH | exact IHcs].
Qed.

Lemma mapM_Forall2 {A B : Type} (g : A -> result B) (l : list A) (l' : list B) :
  mapM g l = Ok l' <-> Forall2 (fun a b => g a = Ok b) l l'.
Proof.
  revert l'. induction l as [|a l IH]; intro l'; cbn [mapM].
  - split; [intros [= <-]; constructor | intro H; now inversion H].
  - split.
    + destruct (g a) as [b|e] eqn:E; [|discriminate]. cbn [bind].
      destruct (mapM g l) as [bs|e]; [|discriminate]. cbn [bind].
      intros [= <-]. constructor; [exact E | now apply IH].
    + intro H. inversion H as [|? b ? bs Hb Hbs]; subst.
      rewrite Hb. cbn [bind]. apply IH in Hbs. now rewrite Hbs.
Qed.

Lemma rewrite_children_Forall2 (f : replacement) (cs cs' : list (string * module)) :
  rewrite_children f cs = Ok cs' <->
  Forall2 (fun kc kc' => fst kc' = fst kc /\ rewrite f (snd kc) = Ok (snd kc')) cs cs'.
Proof.
  unfold rewrite_children. rewrite mapM_Forall2. split; intro H.
  - eapply Forall2_impl; [|exact H]. intros [k c] [k' c']. cbn [fst snd].
    destruct (rewrite f c); [|discriminate]. cbn [bind]. now intros [= -> ->].
  - eapply Forall2_impl; [|exact H]. intros [k c] [k' c']. cbn [fst snd].
    now intros [-> ->].
Qed.

Lemma rewrite_module (f : replacement) (cs : list (string * module)) :
  rewrite f (Module cs) = (cs' <- rewrite_children f cs ;; Ok (Module cs')).
Proof. reflexivity. Qed.

Lemma rewrite_leaf_eq (f : replacement) (m : module) :
  is_leaf m = true ->
  rewrite f m = match f m with None => Ok m | Some r => r end.
Proof. now destruct m. Qed.

Lemma flatten_leaf (name : string) (m : module) :
  is_leaf m = true -> flatten name m = [(name, m)].
Proof. now destruct m. Qed.

Lemma flatten_module (name : string) (cs : list (string * module)) :
  flatten name (Module cs) = (name, Module cs) :: flatten_children name cs.
Proof. reflexivity. Qed.

Lemma flatten_children_cons (name k : string) (c : module) (cs : list (string * module)) :
  flatten_children name ((k, c) :: cs)
  = flatten (submodule_prefix name k) c ++ flatten_children name cs.
Proof. reflexivity. Qed.

Lemma Forall2_keys (R : module -> module -> Prop) (cs cs' : list (string * module)) :
  Forall2 (fun kc kc' => fst kc' = fst kc /\ R (snd kc) (snd kc')) cs cs' ->
  map fst cs' = map fst cs.
Proof.
  induction 1 as [|kc kc' cs cs' [Hk _] _ IH]; [reflexivity|].
  cbn [map]. now rewrite Hk, IH.
Qed.

Section Rewrite.

Variable f : replacement.
Hypothesis f_leaf : forall m v, f m = Some (Ok v) -> is_leaf v = true.

Lemma rewrite_is_leaf (m m' : module) :
  rewrite f m = Ok m' -> is_leaf m' = is_leaf m.
Proof.
  destruct (is_leaf m) eqn:Hm.
  - rewrite (rewrite_leaf_eq f m Hm). destruct (f m) as [r|] eqn:E.
    + intros ->. exact (f_leaf _ _ E).
    + now intros [= <-].
  - destruct m; try discriminate Hm. rewrite rewrite_module.
    destruct (rewrite_children f children); [|discriminate]. now intros [= <-].
Qed.

(** Pair by pair, the rewritten graph is the graph with the replaced
    modules replaced. *)
Lemma rewrite_flatten (m : module) :
  forall m' name, rewrite f m = Ok m' ->
                  Forall2 (rewritten f) (flatten name m) (flatten name m').
Proof.
  induction m as [m Hm|cs IH] using module_induction; intros m' name H.
  - pose proof (rewrite_is_leaf _ _ H) as Hm'. rewrite Hm in Hm'.
    rewrite (flatten_leaf _ _ Hm), (flatten_leaf _ _ Hm').
    constructor; [|constructor]. unfold rewritten. cbn [fst snd].
    rewrite Hm, Hm'. auto.
  - rewrite rewrite_module in H.
    destruct (rewrite_children f cs) as [cs'|e] eqn:E; [|discriminate].
    injection H as <-. rewrite !flatten_module.
    constructor; [unfold rewritten; cbn [fst snd is_leaf]; repeat split; discriminate|].
    apply rewrite_children_Forall2 in E.
    induction E as [|[k c] [k' c'] cs cs' [Hk Hc] _ IHE]; [constructor|].
    cbn [fst snd] in Hk, Hc. subst k'. rewrite !flatten_children_cons.
    inversion IH as [|? ? Hhead Htail]; subst.
    apply Forall2_app; [now apply Hhead | now apply IHE].
Qed.

Lemma rewrite_same_names (m m' : module) :
  rewrite f m = Ok m' -> same_names m m'.
Proof.
  intros H name. pose proof (rewrite_flatten m m' name H) as HF.
  induction HF as [|p p' l l' (Hn & _) _ IH]; [reflexivity|].
  cbn [map]. now rewrite Hn, IH.
Qed.

Lemma rewrite_well_formed (m : module) :
  forall m', rewrite f m = Ok m' -> well_formed m = true -> well_formed m' = true.
Proof.
  induction m as [m Hm|cs IH] using module_induction; intros m' H Hwf.
  - pose proof (rewrite_is_leaf _ _ H) as Hm'. rewrite Hm in Hm'. now destruct m'.
  - rewrite rewrite_module in H.
    destruct (rewrite_children f cs) as [cs'|e] eqn:E; [|discriminate].
    injection H as <-. apply rewrite_children_Forall2 in E.
    cbn [well_formed] in *. apply andb_true_iff in Hwf. destruct Hwf as [Hk Hw].
    apply andb_true_iff. split.
    + unfold children_ok in *.
      now rewrite (Forall2_keys (fun c c' => rewrite f c = Ok c') _ _ E).
    + clear Hk. induction E as [|[k c] [k' c'] cs cs' [_ Hc] _ IHE]; [reflexivity|].
      cbn [forallb fst snd] in *. apply andb_true_iff in Hw. destruct Hw as [Hwc Hw].
      inversion IH as [|? ? Hhead Htail]; subst.
      apply andb_true_iff. split; [now apply (Hhead c') | now apply IHE].
Qed.

Lemma rewrite_well_formed_model (m m' : module) :
  rewrite f m = Ok m' -> well_formed_model m = true -> well_formed_model m' = true.
Proof.
  intros H Hwf. destruct m; try discriminate Hwf.
  pose proof (rewrite_is_leaf _ _ H) as Hl.
  pose proof (rewrite_well_formed _ _ H Hwf) as Hw.
  destruct m'; try discriminate Hl. exact Hw.
Qed.

(** A second rewrite finds nothing to replace when no replacement is
    itself replaced. *)
Lemma rewrite_idempotent (m : module) :
  (forall x v, f x = Some (Ok v) -> f v = None) ->
  forall m', rewrite f m = Ok m' ->
             rewrite f m' = Ok m' /\
             forall name, Forall (fun p => f (snd p) = None \/ is_leaf (snd p) = false)
                                 (flatten name m').
Proof.
  intro Hf. induction m as [m Hm|cs IH] using module_induction; intros m' H.
  - pose proof (rewrite_is_leaf _ _ H) as Hm'. rewrite Hm in Hm'.
    rewrite (rewrite_leaf_eq f m Hm) in H.
    assert (Hnone : f m' = None).
    { destruct (f m) as [r|] eqn:E; [subst r; exact (Hf _ _ E) | now injection H as <-]. }
    split.
    + now rewrite (rewrite_leaf_eq f m' Hm'), Hnone.
    + intro name. rewrite (flatten_leaf _ _ Hm'). constructor; [now left | constructor].
  - rewrite rewrite_module in H.
    destruct (rewrite_children f cs) as [cs'|e] eqn:E; [|discriminate].
    injection H as <-. apply rewrite_children_Forall2 in E.
    assert (Hboth : rewrite_children f cs' = Ok cs' /\
                    forall name, Forall (fun p => f (snd p) = None \/ is_leaf (snd p) = false)
                                        (flatten_children name cs')).
    { induction E as [|[k c] [k' c'] cs cs' [_ Hc] _ IHE].
      - split; [reflexivity | intro; constructor].
      - cbn [fst snd] in Hc. inversion IH as [|? ? Hhead Htail]; subst.
        destruct (Hhead c' Hc) as [Hr Hn]. destruct (IHE Htail) as [Hrs Hns].
        split.
        + unfold rewrite_children in *. cbn [mapM fst snd]. rewrite Hr. cbn [bind].
          now rewrite Hrs.
        + intro name. rewrite flatten_children_cons. apply Forall_app. auto. }
    destruct Hboth as [Hr Hn]. split.
    + now rewrite rewrite_module, Hr.
    + intro name. rewrite flatten_module. constructor; [now right | apply Hn].
Qed.

(** The rewrite returns when no replacement raises. *)
Lemma rewrite_total (m : module) :
  forall name,
    Forall (fun p => forall e, f (snd p) <> Some (Err e)) (flatten name m) ->
    exists m', rewrite f m = Ok m'.
Proof.
  induction m as [m Hm|cs IH] using module_induction; intros name H.
  - rewrite (flatten_leaf _ _ Hm) in H. inversion H as [|? ? Hf _]; subst.
    cbn [snd] in Hf. rewrite (rewrite_leaf_eq f m Hm).
    destruct (f m) as [[v|e]|]; eauto. now destruct (Hf e).
  - rewrite flatten_module in H. inversion H as [|? ? _ Hcs]; subst. clear H.
    assert (Hex : exists cs', rewrite_children f cs = Ok cs').
    { induction cs as [|[k c] cs IHcs]; [now exists []|].
      rewrite flatten_children_cons in Hcs. apply Forall_app in Hcs.
      destruct Hcs as [Hc Hcs]. inversion IH as [|? ? Hhead Htail]; subst.
      cbn [snd fst] in Hhead, Hc.
      destruct (Hhead _ Hc) as [c' Hc']. destruct (IHcs Htail Hcs) as [cs' Hcs'].
      exists ((k, c') :: cs'). unfold rewrite_children in *. cbn [mapM fst snd].
      rewrite Hc'. cbn [bind]. now rewrite Hcs'. }
    destruct Hex as [cs' Hcs']. exists (Module cs'). now rewrite rewrite_module, Hcs'.
Qed.

End Rewrite.

Lemma rewrite_nothing (m : module) : rewrite (fun _ => None) m = Ok m.
Proof.
  induction m as [m Hm|cs IH] using module_induction.
  - now rewrite (rewrite_leaf_eq _ m Hm).
  - rewrite rewrite_module.
    assert (H : rewrite_children (fun _ => None) cs = Ok cs).
    { induction cs as [|[k c] cs IHcs]; [reflexivity|].
      inversion IH as [|? ? Hhead Htail]; subst. cbn [snd] in Hhead.
      unfold rewrite_children in *. cbn [mapM fst snd]. rewrite Hhead. cbn [bind].
      now rewrite (IHcs Htail). }
    now rewrite H.
Qed.

(** [list(model.named_modules())] on a well-formed graph. *)
Lemma named_modules_flatten (model : module) :
  well_formed_model model = true ->
  named_modules model = Ok (flatten EmptyString model).
Proof.
  intro Hwf. unfold named_modules.
  rewrite (for_named_modules_yields_ext _ (body_of (fun _ => None)))
    by reflexivity.
  rewrite for_named_modules_yields_rewrite; [|reflexivity|discriminate|exact Hwf].
  now rewrite rewrite_nothing.
Qed.

(* ------------------------------------------------------------------ *)
(** * Calibration leaves the skeleton of the graph alone *)

Lemma same_skeleton_refl (m : module) : same_skeleton m m.
Proof. repeat split; auto. Qed.

Lemma same_skeleton_trans (a b c : module) :
  same_skeleton a b -> same_skeleton b c -> same_skeleton a c.
Proof.
  intros (N1 & L1 & W1) (N2 & L2 & W2). repeat split.
  - intro name. now rewrite N2, N1.
  - now rewrite L2.
  - auto.
Qed.

Lemma same_skeleton_model (m m' : module) :
  same_skeleton m m' -> well_formed_model m = true -> well_formed_model m' = true.
Proof.
  intros (_ & L & W) H. destruct m; try discriminate H.
  destruct m'; try discriminate L. now apply W.
Qed.

Lemma dict_get_split (k : string) (c : module) (cs : list (string * module)) :
  dict_get k cs = Some c ->
  exists b a, cs = b ++ (k, c) :: a /\ ~ In k (map fst b).
Proof.
  induction cs as [|[k' v] cs IH]; [discriminate|]. cbn [dict_get].
  destruct (String.eqb k' k) eqn:E.
  - apply String.eqb_eq in E. subst k'. intros [= ->]. exists [], cs. now split.
  - intro H. destruct (IH H) as (b & a & -> & Hnin).
    exists ((k', v) :: b), a. split; [reflexivity|].
    cbn [map fst In]. apply String.eqb_neq in E. tauto.
Qed.

Lemma flatten_children_app (name : string) (b a : list (string * module)) :
  flatten_children name (b ++ a) = flatten_children name b ++ flatten_children name a.
Proof.
  unfold flatten_children. now rewrite map_app, concat_app.
Qed.

Lemma same_skeleton_child (k : string) (c c' : module) (b a : list (string * module)) :
  same_skeleton c c' ->
  same_skeleton (Module (b ++ (k, c) :: a)) (Module (b ++ (k, c') :: a)).
Proof.
  intros (N & L & W). repeat split.
  - intro name. rewrite !flatten_module, !flatten_children_app, !flatten_children_cons.
    cbn [map]. now rewrite !map_app, N.
  - cbn [well_formed]. rewrite !andb_true_iff. intros [Hk Hw]. split.
    + unfold children_ok in *. now rewrite map_app in *.
    + rewrite forallb_app in *. cbn [forallb snd] in *.
      rewrite !andb_true_iff in *. intuition.
Qed.

Lemma with_atoms_skeleton (g : module -> result module) :
  (forall x x', g x = Ok x' -> same_skeleton x x') ->
  forall atoms m m', with_atoms m atoms g = Ok m' -> same_skeleton m m'.
Proof.
  intros Hg atoms. induction atoms as [|item atoms IH]; intros m m'; cbn [with_atoms].
  - apply Hg.
  - destruct m as [| | | |cs]; try discriminate.
    destruct (dict_get item cs) as [child|] eqn:E; [|discriminate].
    destruct (with_atoms child atoms g) as [child'|e] eqn:E'; [|discriminate].
    cbn [bind]. intros [= <-].
    destruct (dict_get_split _ _ _ E) as (b & a & -> & Hnin).
    rewrite (dict_set_middle _ _ _ _ _ Hnin).
    apply same_skeleton_child. now apply IH.
Qed.

Lemma with_submodule_skeleton (g : module -> result module) (target : string) :
  (forall x x', g x = Ok x' -> same_skeleton x x') ->
  forall m m', with_submodule m target g = Ok m' -> same_skeleton m m'.
Proof.
  intros Hg m m'. unfold with_submodule.
  destruct (String.eqb target ""); [apply Hg | now apply with_atoms_skeleton].
Qed.

Lemma foldM_invariant {A B : Type} (R : B -> B -> Prop) (step : B -> A -> result B) :
  (forall b, R b b) -> (forall a b c, R a b -> R b c -> R a c) ->
  (forall b a b', step b a = Ok b' -> R b b') ->
  forall l b b', foldM step l b = Ok b' -> R b b'.
Proof.
  intros Hrefl Htrans Hstep l. induction l as [|a l IH]; intros b b'; cbn [foldM].
  - intros [= <-]. apply Hrefl.
  - destruct (step b a) as [b1|e] eqn:E; [|discriminate]. cbn [bind].
    intro H. eapply Htrans; [eapply Hstep; exact E | now apply IH].
Qed.

Section Calibration.

Variable cuda_compute_capability : nat * nat.
Variable scaled_mm : tensor -> tensor -> Q -> Q -> option (list Q) -> result tensor.
Variable forward_calls : module -> list nat -> list (string * tensor).

Lemma call_forward_skeleton (root : module) (call : string * tensor) (root' : module) :
  call_forward cuda_compute_capability scaled_mm root call = Ok root' ->
  same_skeleton root root'.
Proof.
  destruct call as [name x]. unfold call_forward.
  apply with_submodule_skeleton. intros m m'.
  destruct m; try (intros [= <-]; apply same_skeleton_refl).
  destruct (FP8StaticLinearQuantizer_forward _ _ _ _ _ _) as [[out a]|e]; [|discriminate].
  cbn [bind]. intros [= <-]. repeat split.
Qed.

Lemma run_model_skeleton (root : module) (row : list nat) (root' : module) :
  run_model cuda_compute_capability scaled_mm forward_calls root row = Ok root' ->
  same_skeleton root root'.
Proof.
  unfold run_model. intro H.
  exact (foldM_invariant same_skeleton _ same_skeleton_refl same_skeleton_trans
           call_forward_skeleton _ _ _ H).
Qed.

Lemma calibration_skeleton (model : module) (rows : list (list nat)) (model' : module) :
  calibration cuda_compute_capability scaled_mm forward_calls model rows = Ok model' ->
  same_skeleton model model'.
Proof.
  unfold calibration. intro H.
  exact (foldM_invariant same_skeleton _ same_skeleton_refl same_skeleton_trans
           run_model_skeleton _ _ _ H).
Qed.

End Calibration.

(* ------------------------------------------------------------------ *)
(** * The phases on a well-formed graph *)

Lemma rewrite_names_preserved (f : replacement) (model model' : module) :
  (forall m v, f m = Some (Ok v) -> is_leaf v = true) ->
  well_formed_model model = true ->
  rewrite f model = Ok model' ->
  names_preserved f model model'.
Proof.
  intros Hleaf Hwf H.
  exists (flatten EmptyString model), (flatten EmptyString model').
  split; [now apply named_modules_flatten|].
  split; [apply named_modules_flatten; now apply (rewrite_well_formed_model f Hleaf model)|].
  split; [now apply (rewrite_same_names f Hleaf) | now apply rewrite_flatten].
Qed.

Lemma same_skeleton_names_kept (model model' : module) :
  well_formed_model model = true ->
  same_skeleton model model' -> names_kept model model'.
Proof.
  intros Hwf Hs.
  exists (flatten EmptyString model), (flatten EmptyString model').
  split; [now apply named_modules_flatten|].
  split; [apply named_modules_flatten; now apply (same_skeleton_model model)|].
  apply (proj1 Hs).
Qed.

Lemma rewrite_same_skeleton (f : replacement) (m m' : module) :
  (forall x v, f x = Some (Ok v) -> is_leaf v = true) ->
  rewrite f m = Ok m' -> same_skeleton m m'.
Proof.
  intros Hleaf H. split; [|split].
  - now apply (rewrite_same_names f Hleaf).
  - now apply (rewrite_is_leaf f Hleaf).
  - now apply (rewrite_well_formed f Hleaf).
Qed.

Lemma to_quantizer_total (m : module) (e : error) : to_quantizer m <> Some (Err e).
Proof. now destruct m. Qed.

Lemma to_static_total (m : module) (e : error) : to_static m <> Some (Err e).
Proof. now destruct m. Qed.

Lemma rewrite_always (f : replacement) (m : module) :
  (forall x e, f x <> Some (Err e)) -> exists m', rewrite f m = Ok m'.
Proof.
  intro H. apply (rewrite_total f m EmptyString).
  apply Forall_forall. intros p _. apply H.
Qed.

Lemma quantize_weights_total (model : module) :
  well_formed_model model = true -> weights_not_empty model ->
  exists model', quantize_weights model = Ok model'.
Proof.
  intros Hwf Hne. rewrite (quantize_weights_rewrite _ Hwf).
  apply (rewrite_total to_dynamic model EmptyString).
  eapply Forall_impl; [|exact Hne]. intros [name m]. cbn [snd].
  destruct m; try discriminate. intros Hw e. cbn [to_dynamic].
  destruct (aminmax_nonempty weight Hw) as (mn & mx & H).
  now rewrite (per_tensor_quantize_ok _ _ _ H).
Qed.

Section Phases.

Variable cuda_compute_capability : nat * nat.
Variable scaled_mm : tensor -> tensor -> Q -> Q -> option (list Q) -> result tensor.
Variable forward_calls : module -> list nat -> list (string * tensor).

Lemma quantize_activations_skeleton (model : module) (rows : list (list nat))
      (model' : module) :
  well_formed_model model = true ->
  quantize_activations cuda_compute_capability scaled_mm forward_calls model rows
  = Ok model' ->
  same_skeleton model model'.
Proof.
  intros Hwf. unfold quantize_activations.
  destruct (replace_with_quantizer model) as [m1|e] eqn:E1; [|discriminate].
  cbn [bind].
  destruct (calibration _ _ _ m1 rows) as [m2|e] eqn:E2; [|discriminate].
  cbn [bind]. intro E3.
  rewrite (replace_with_quantizer_rewrite _ Hwf) in E1.
  pose proof (rewrite_same_skeleton _ _ _ to_quantizer_leaf E1) as S1.
  pose proof (calibration_skeleton _ _ _ _ _ _ E2) as S2.
  pose proof (same_skeleton_model _ _ (same_skeleton_trans _ _ _ S1 S2) Hwf) as Hwf2.
  rewrite (replace_with_static_rewrite _ Hwf2) in E3.
  pose proof (rewrite_same_skeleton _ _ _ to_static_leaf E3) as S3.
  eauto using same_skeleton_trans.
Qed.

End Phases.

(* ------------------------------------------------------------------ *)
(** * C6: the phases keep the names of the graph *)

(** C6: on a well-formed graph each phase (the weight loop, the loop that
    installs the observers, the calibration passes, the loop that freezes
    them, and Phases 2 and 3 as [quantize_activations] runs them) ends
    with a graph that has exactly the dotted names it had before, in the
    same order; a loop changes only the modules it replaces, every other
    module is bound unchanged at its name and a container stays a
    container.  The two later loops always return, the weight loop
    returns when every weight has an element. *)
Theorem phases_preserve_module_names
        (cuda_compute_capability : nat * nat)
        (scaled_mm : tensor -> tensor -> Q -> Q -> option (list Q) -> result tensor)
        (forward_calls : module -> list nat -> list (string * tensor))
        (model : module) (calibration_tokens : list (list nat)) :
  well_formed_model model = true ->
  (forall model', quantize_weights model = Ok model' ->
                  names_preserved to_dynamic model model') /\
  (forall model', replace_with_quantizer model = Ok model' ->
                  names_preserved to_quantizer model model') /\
  (forall model',
      calibration cuda_compute_capability scaled_mm forward_calls
        model calibration_tokens = Ok model' ->
      names_kept model model') /\
  (forall model', replace_with_static model = Ok model' ->
                  names_preserved to_static model model') /\
  (forall model',
      quantize_activations cuda_compute_capability scaled_mm forward_calls
        model calibration_tokens = Ok model' ->
      names_kept model model') /\
  (weights_not_empty model -> exists model', quantize_weights model = Ok model') /\
  (exists model', replace_with_quantizer model = Ok model') /\
  (exists model', replace_with_static model = Ok model').
Proof.
  intro Hwf. repeat split.
  - intros model' H. rewrite (quantize_weights_rewrite _ Hwf) in H.
    now apply rewrite_names_preserved; [apply to_dynamic_leaf | |].
  - intros model' H. rewrite (replace_with_quantizer_rewrite _ Hwf) in H.
    now apply rewrite_names_preserved; [apply to_quantizer_leaf | |].
  - intros model' H. apply (same_skeleton_names_kept _ _ Hwf).
    exact (calibration_skeleton _ _ _ _ _ _ H).
  - intros model' H. rewrite (replace_with_static_rewrite _ Hwf) in H.
    now apply rewrite_names_preserved; [apply to_static_leaf | |].
  - intros model' H. apply (same_skeleton_names_kept _ _ Hwf).
    exact (quantize_activations_skeleton _ _ _ _ _ _ Hwf H).
  - now apply quantize_weights_total.
  - rewrite (replace_with_quantizer_rewrite _ Hwf).
    apply rewrite_always, to_quantizer_total.
  - rewrite (replace_with_static_rewrite _ Hwf).
    apply rewrite_always, to_static_total.
Qed.

(** The scenario: [a.b.c] is rebound under [a.b]; [a], [a.b] and
    [a.norm] stay where they are. *)
Lemma phases_preserve_module_names_witness :
  names_preserved to_dynamic sample_model
    (Module [("a"%string,
              Module [("b"%string,
                       Module [("c"%string, FP8DynamicLinear [[448; 448]] (1 # 224))]);
                      ("norm"%string, Module [])]);
             ("fc"%string, FP8DynamicLinear [[112; -448]] (1 # 112))]).
Proof.
  apply (proj1 (phases_preserve_module_names
                  (8, 0)%nat (fun _ _ _ _ _ => Err RuntimeError) (fun _ _ => [])
                  sample_model [] eq_refl)).
  vm_compute. reflexivity.
Defined.

(* ------------------------------------------------------------------ *)
(** * C7: the weight phase is idempotent *)

Lemma to_dynamic_once (x v : module) : to_dynamic x = Some (Ok v) -> to_dynamic v = None.
Proof.
  destruct x; try discriminate. cbn [to_dynamic].
  destruct (per_tensor_quantize weight) as [[q s]|e]; [|discriminate].
  now intros [= <-].
Qed.

(** C7: when the weight phase has turned a well-formed graph into
    [model'], no module of [model'] is an instance of [Linear], and the
    weight phase applied to [model'] returns [model'] itself; the first
    application returns whenever every weight has an element. *)
Theorem quantize_weights_idempotent (model : module) :
  well_formed_model model = true ->
  (weights_not_empty model -> exists model', quantize_weights model = Ok model') /\
  forall model',
    quantize_weights model = Ok model' ->
    quantize_weights model' = Ok model' /\
    exists l, named_modules model' = Ok l /\
              Forall (fun p => isinstance_Linear (snd p) = false) l.
Proof.
  intro Hwf. split; [now apply quantize_weights_total|].
  intros model' H. rewrite (quantize_weights_rewrite _ Hwf) in H.
  pose proof (rewrite_well_formed_model _ to_dynamic_leaf _ _ H Hwf) as Hwf'.
  destruct (rewrite_idempotent _ to_dynamic_leaf model to_dynamic_once _ H) as [Hr Hn].
  split.
  - now rewrite (quantize_weights_rewrite _ Hwf').
  - exists (flatten EmptyString model'). split; [now apply named_modules_flatten|].
    eapply Forall_impl; [|apply Hn]. intros [name m]. cbn [snd].
    destruct m; try reflexivity. intros [Hf|Hf]; discriminate Hf.
Qed.

Lemma quantize_weights_idempotent_witness :
  quantize_weights
    (Module [("a"%string,
              Module [("b"%string,
                       Module [("c"%string, FP8DynamicLinear [[448; 448]] (1 # 224))]);
                      ("norm"%string, Module [])]);
             ("fc"%string, FP8DynamicLinear [[112; -448]] (1 # 112))])
  = Ok (Module [("a"%string,
                 Module [("b"%string,
                          Module [("c"%string, FP8DynamicLinear [[448; 448]] (1 # 224))]);
                         ("norm"%string, Module [])]);
                ("fc"%string, FP8DynamicLinear [[112; -448]] (1 # 112))]).
Proof.
  apply (proj2 (quantize_weights_idempotent sample_model eq_refl)).
  vm_compute. reflexivity.
Defined.

(* ------------------------------------------------------------------ *)
(** * C9: the bias of an affine layer is dropped *)

Lemma linear_no_bias (input weight : tensor) :
  linear input weight None = mapM (fun row => mapM (dot row) weight) input.
Proof.
  unfold linear. induction input as [|row input IH]; [reflexivity|].
  cbn [mapM]. rewrite IH, bind_ok. reflexivity.
Qed.

Lemma mapM_map {A B C : Type} (g : B -> result C) (h : A -> B) (l : list A) :
  mapM g (map h l) = mapM (fun a => g (h a)) l.
Proof.
  induction l as [|a l IH]; [reflexivity|]. cbn [map mapM]. now rewrite IH.
Qed.

Lemma mapM_ext_Forall {A B : Type} (g g' : A -> result B) (l : list A) :
  Forall (fun a => g a = g' a) l -> mapM g l = mapM g' l.
Proof.
  induction 1 as [|a l Ha _ IH]; [reflexivity|]. cbn [mapM]. now rewrite Ha, IH.
Qed.

Lemma rewrite_without_bias (m : module) :
  rewrite to_dynamic (without_bias m) = rewrite to_dynamic m.
Proof.
  induction m as [m Hm|cs IH] using module_induction.
  - now destruct m.
  - cbn [without_bias]. rewrite !rewrite_module. unfold rewrite_children.
    rewrite mapM_map. cbn [fst snd].
    rewrite (mapM_ext_Forall _ (fun kc => c <- rewrite to_dynamic (snd kc) ;; Ok (fst kc, c)));
      [reflexivity|].
    eapply Forall_impl; [|exact IH]. intros kc H. cbn beta in H. now rewrite H.
Qed.

Lemma well_formed_without_bias (m : module) :
  well_formed (without_bias m) = well_formed m.
Proof.
  induction m as [m Hm|cs IH] using module_induction.
  - now destruct m.
  - cbn [without_bias well_formed]. f_equal.
    + unfold children_ok. rewrite map_map. cbn [fst]. reflexivity.
    + induction IH as [|kc cs Hkc _ IHcs]; [reflexivity|].
      cbn [map forallb snd]. now rewrite Hkc, IHcs.
Qed.

Lemma well_formed_model_without_bias (m : module) :
  well_formed_model (without_bias m) = well_formed_model m.
Proof.
  destruct m; try reflexivity.
  change (well_formed (without_bias (Module children)) = well_formed (Module children)).
  apply well_formed_without_bias.
Qed.

(** C9: each of the three quantized layers hands [None] as the bias to
    the gemm on every forward call, so that on the fall-back path the
    output is the plain product of the dequantized operands; and the
    weight phase takes nothing of a layer's bias along: it yields the same
    graph as on the model whose biases have been removed. *)
Theorem bias_is_discarded
        (cuda_compute_capability : nat * nat)
        (scaled_mm : tensor -> tensor -> Q -> Q -> option (list Q) -> result tensor)
        (weight : tensor) (weight_scale : Q) (x : tensor) (model : module) :
  let gemm := fp8_gemm cuda_compute_capability scaled_mm in
  (FP8DynamicLinear_forward cuda_compute_capability scaled_mm weight weight_scale x
   = ('(qinput, x_scale) <- per_tensor_quantize x ;;
      gemm qinput x_scale weight weight_scale None)) /\
  (forall act_scale,
      FP8StaticLinearQuantizer_forward cuda_compute_capability scaled_mm
        weight weight_scale act_scale x
      = ('(qinput, x_act_scale) <- per_tensor_quantize x ;;
         let a := match act_scale with
                  | None => x_act_scale
                  | Some a0 => if Qgtb x_act_scale a0 then x_act_scale else a0
                  end in
         output <- gemm qinput a weight weight_scale None ;;
         Ok (output, Some a))) /\
  (forall act_scale,
      FP8StaticLinear_forward cuda_compute_capability scaled_mm
        weight weight_scale (Some act_scale) x
      = (qinput <- FP8StaticLinear_per_tensor_quantize x act_scale ;;
         gemm qinput act_scale weight weight_scale None)) /\
  (forall A A_scale,
      gemm A A_scale weight weight_scale None
      = if capability_geb cuda_compute_capability (9, 0)%nat
        then scaled_mm A weight A_scale weight_scale None
        else mapM (fun row => mapM (dot row) (tscale weight weight_scale))
                  (tscale A A_scale)) /\
  (well_formed_model model = true ->
   quantize_weights model = quantize_weights (without_bias model)).
Proof.
  cbv zeta. repeat split.
  - intros A A_scale. unfold fp8_gemm.
    destruct (capability_geb _ _); [reflexivity | apply linear_no_bias].
  - intro Hwf.
    rewrite (quantize_weights_rewrite _ Hwf), quantize_weights_rewrite
      by now rewrite well_formed_model_without_bias.
    now rewrite rewrite_without_bias.
Qed.

Lemma bias_is_discarded_witness :
  quantize_weights sample_model = quantize_weights (without_bias sample_model).
Proof.
  apply (bias_is_discarded (8, 0)%nat (fun _ _ _ _ _ => Err RuntimeError)
           [[1; 1]] 1 [[1; 1]] sample_model).
  reflexivity.
Defined.

(* ------------------------------------------------------------------ *)
(** * C5: the loops rebind while the generator is suspended *)

(** [loop_state] is the loop stopped after [k] iterations. *)
Lemma for_named_modules_loop_state
      (body : module -> string -> module -> result module) (k n : nat) :
  forall root g,
    for_named_modules (k + S n) body root g
    = ('(root', g') <- loop_state k body root g ;;
       for_named_modules (S n) body root' g').
Proof.
  induction k as [|k IH]; intros root g; [reflexivity|].
  cbn [plus for_named_modules loop_state].
  destruct (next root g) as [[[name m] g']|] eqn:E.
  - destruct (body root name m) as [root'|e]; [|reflexivity].
    cbn [bind]. apply IH.
  - cbn [bind for_named_modules]. now rewrite E.
Qed.

(** C5, as stated, on a graph with two affine layers: after the iteration
    that handles [a] the graph already holds the replacement, and the
    generator still has [b] to yield. *)
Lemma quantize_weights_rebinds_during_traversal :
  ~ rebinds_after_traversal quantize_weights_body two_layers.
Proof.
  intro H.
  assert (E : loop_state 2 quantize_weights_body two_layers Fresh
              = Ok (Module [("a"%string, FP8DynamicLinear [[448; 448]] (1 # 224));
                            ("b"%string, Linear [[1; -4]] None)],
                    Running [Frame "a" [0%nat] 0; Frame "" [] 1])).
  { vm_compute. reflexivity. }
  assert (N : next (Module [("a"%string, FP8DynamicLinear [[448; 448]] (1 # 224));
                            ("b"%string, Linear [[1; -4]] None)])
                   (Running [Frame "a" [0%nat] 0; Frame "" [] 1]) <> None).
  { vm_compute. discriminate. }
  specialize (H _ _ _ E N). discriminate H.
Qed.

Lemma loop_rebinds_at_once (body : module -> string -> module -> result module)
      (f : replacement) :
  (forall root name m, body root name m = body_of f root name m) ->
  (forall cs, f (Module cs) = None) ->
  (forall m v, f m = Some (Ok v) -> is_leaf v = true) ->
  rebinds_at_once body f.
Proof.
  intros Hbody Hcont Hleaf l ctx c Hok Hc. rewrite Hbody.
  now apply body_of_leaf.
Qed.

Lemma loop_yields_original_modules
      (body : module -> string -> module -> result module)
      (f : replacement) (model : module) :
  (forall root name m, body root name m = body_of f root name m) ->
  (forall cs, f (Module cs) = None) ->
  (forall m v, f m = Some (Ok v) -> is_leaf v = true) ->
  well_formed_model model = true ->
  yields_original_modules body f model.
Proof.
  intros Hbody Hcont Hleaf Hwf. exists (flatten EmptyString model).
  split; [now apply named_modules_flatten|].
  rewrite (for_named_modules_yields_ext _ _ Hbody).
  now apply for_named_modules_yields_rewrite.
Qed.

(** C5 (amended): no loop takes a snapshot.  The body of each of the
    three loops puts the replacement into the graph at once, while the
    generator is suspended, and the generator goes on from the graph as
    rebound.  On a well-formed graph the pairs a loop is handed are all
    the same exactly the pairs of the graph it began with, each once and
    in the order of [named_modules], never a replacement, and the loop
    ends with the graph in which every module it replaces is replaced. *)
Theorem loops_rebind_while_traversing (model : module) :
  well_formed_model model = true ->
  (rebinds_at_once quantize_weights_body to_dynamic /\
   yields_original_modules quantize_weights_body to_dynamic model) /\
  (rebinds_at_once replace_with_quantizer_body to_quantizer /\
   yields_original_modules replace_with_quantizer_body to_quantizer model) /\
  (rebinds_at_once replace_with_static_body to_static /\
   yields_original_modules replace_with_static_body to_static model).
Proof.
  intro Hwf. repeat split.
  - apply loop_rebinds_at_once;
      [apply quantize_weights_body_of | reflexivity | apply to_dynamic_leaf].
  - apply loop_yields_original_modules;
      [apply quantize_weights_body_of | reflexivity | apply to_dynamic_leaf | exact Hwf].
  - apply loop_rebinds_at_once;
      [apply replace_with_quantizer_body_of | reflexivity | apply to_quantizer_leaf].
  - apply loop_yields_original_modules;
      [apply replace_with_quantizer_body_of | reflexivity | apply to_quantizer_leaf | exact Hwf].
  - apply loop_rebinds_at_once;
      [apply replace_with_static_body_of | reflexivity | apply to_static_leaf].
  - apply loop_yields_original_modules;
      [apply replace_with_static_body_of | reflexivity | apply to_static_leaf | exact Hwf].
Qed.

Lemma loops_rebind_while_traversing_witness :
  yields_original_modules quantize_weights_body to_dynamic sample_model.
Proof.
  exact (proj2 (proj1 (loops_rebind_while_traversing sample_model eq_refl))).
Defined.

(* ------------------------------------------------------------------ *)
(** * C1: Phase 3 takes the observer's scale as it is *)

Example quantize_activations_without_rows :
  quantize_activations (8, 0)%nat (fun _ _ _ _ _ => Err RuntimeError) (fun _ _ => [])
    one_dynamic_layer []
  = Ok (Module [("fc"%string, FP8StaticLinear [[448; 448]] (1 # 224) None)]).
Proof. vm_compute. reflexivity. Qed.

(** C1, as stated, on a model with one layer and a calibration set
    without rows: the observer is never called, its scale is absent when
    Phase 3 begins, and Phase 3 returns the static layer built from it. *)
Lemma quantize_activations_accepts_uncalibrated :
  ~ rejects_uncalibrated (8, 0)%nat (fun _ _ _ _ _ => Err RuntimeError) (fun _ _ => [])
      one_dynamic_layer [].
Proof.
  intro H.
  destruct (H (Module [("fc"%string,
                        FP8StaticLinearQuantizer [[448; 448]] (1 # 224) None)])
              "fc"%string [[448; 448]] (1 # 224)) as [e He].
  - vm_compute. reflexivity.
  - right. left. reflexivity.
  - rewrite quantize_activations_without_rows in He. discriminate He.
Qed.

Lemma rewritten_to_static_frozen (p p' : string * module) :
  rewritten to_static p p' -> frozen p p'.
Proof.
  destruct p as [name m], p' as [name' m']. unfold rewritten, frozen. cbn [fst snd].
  intros (Hn & Hl & Hr). split; [exact Hn|].
  destruct m; try (specialize (Hr eq_refl); now injection Hr as <-).
  exact Hl.
Qed.

(** C1 (amended): Phase 3 checks nothing.  On every well-formed graph it
    returns, and it has replaced each observer by the static layer that
    carries the observer's weight, weight scale and stored activation
    scale as they are, the absent scale of an observer no calibration pass
    has reached included; every other module is left as it is. *)
Theorem replace_with_static_checks_nothing (model : module) :
  well_formed_model model = true ->
  exists model' l l',
    replace_with_static model = Ok model' /\
    named_modules model = Ok l /\ named_modules model' = Ok l' /\
    Forall2 frozen l l'.
Proof.
  intro Hwf.
  destruct (rewrite_always to_static model to_static_total) as [model' H].
  destruct (rewrite_names_preserved _ _ _ to_static_leaf Hwf H)
    as (l & l' & Hl & Hl' & _ & HF).
  exists model', l, l'. rewrite (replace_with_static_rewrite _ Hwf).
  repeat split; try assumption.
  eapply Forall2_impl; [|exact HF]. apply rewritten_to_static_frozen.
Qed.

Lemma replace_with_static_checks_nothing_witness :
  exists model' l l',
    replace_with_static
      (Module [("fc"%string, FP8StaticLinearQuantizer [[448; 448]] (1 # 224) None)])
    = Ok model' /\
    named_modules
      (Module [("fc"%string, FP8StaticLinearQuantizer [[448; 448]] (1 # 224) None)])
    = Ok l /\
    named_modules model' = Ok l' /\ Forall2 frozen l l'.
Proof.
  apply (replace_with_static_checks_nothing
           (Module [("fc"%string, FP8StaticLinearQuantizer [[448; 448]] (1 # 224) None)])).
  reflexivity.
Defined.

(* ------------------------------------------------------------------ *)
(** * More on the code: the cast to float8_e4m3fn *)









Lemma Forall2_map_r {A B : Type} (R : A -> B -> Prop) (g : A -> B) (l : list A) :
  (forall x, In x l -> R x (g x)) -> Forall2 R l (map g l).
Proof.
  induction l as [|x l IH]; intro H; [constructor|].
  cbn [map]. constructor; [apply H; now left | apply IH; intros; apply H; now right].
Qed.



Lemma per_tensor_quantize_inv (t q : tensor) (s : Q) :
  per_tensor_quantize t = Ok (q, s) ->
  exists mn mx,
    aminmax t = Ok (mn, mx) /\
    q = tmap to_float8_e4m3fn
          (tmap (fun x => clamp (qmul x (raw_scale mn mx)) finfo_min finfo_max) t) /\
    s = Qred (1 / raw_scale mn mx).
Proof.
  intro H. destruct (elements t) as [|x xs] eqn:E.
  - now rewrite per_tensor_quantize_empty in H.
  - destruct (aminmax_nonempty t) as (mn & mx & Ha); [congruence|].
    rewrite (per_tensor_quantize_ok _ _ _ Ha) in H. injection H as <- <-.
    now exists mn, mx.
Qed.

Lemma quantize_at_amax (x a : Q) :
  epsilon <= a ->
  (x == a ->
   to_float8_e4m3fn (clamp (qmul x (Qred (finfo_max / a))) finfo_min finfo_max) = 448) /\
  (x == - a ->
   to_float8_e4m3fn (clamp (qmul x (Qred (finfo_max / a))) finfo_min finfo_max) = -448).
Proof.
  intro Ha. assert (Hpos : 0 < a) by (pose proof epsilon_pos; lra).
  unfold qmul, finfo_max. split; intro E.
  - replace (Qred (x * Qred (448 / a))) with (Qred 448); [reflexivity|].
    apply Qred_complete. rewrite Qred_correct, E. field. lra.
  - replace (Qred (x * Qred (448 / a))) with (Qred (-448)); [reflexivity|].
    apply Qred_complete. rewrite Qred_correct, E. field. lra.
Qed.

(** X2: when the largest magnitude [amax] of a tensor is at least
    [epsilon], [per_tensor_quantize] sends the elements equal to [amax]
    to [finfo.max] and those equal to [-amax] to [finfo.min], exactly;
    so some quantized element has magnitude 448 and the range of the
    format is used in full. *)
Theorem absmax_saturates (t q : tensor) (s mn mx : Q) :
  per_tensor_quantize t = Ok (q, s) ->
  aminmax t = Ok (mn, mx) ->
  epsilon <= Qmax (Qabs mn) (Qabs mx) ->
  Forall2 (fun x y => (x == Qmax (Qabs mn) (Qabs mx) -> y = 448) /\
                      (x == - Qmax (Qabs mn) (Qabs mx) -> y = -448))
          (elements t) (elements q) /\
  exists y, In y (elements q) /\ Qabs y == 448.
Proof.
  intros H Ha He. rewrite (per_tensor_quantize_ok _ _ _ Ha) in H. injection H as <- _.
  rewrite (raw_scale_of_amax mn mx _ (Qeq_refl _) He).
  set (a := Qmax (Qabs mn) (Qabs mx)) in *.
  rewrite tmap_tmap, elements_tmap. split.
  - apply Forall2_map_r. intros x _. apply (quantize_at_amax x a He).
  - destruct (amax_spec _ _ _ Ha) as [_ (x & Hx & Hax)]. fold a in Hax.
    eexists. split; [apply in_map; exact Hx|]. cbn beta.
    destruct (quantize_at_amax x a He) as [Hp Hn].
    destruct (Qabs_case x (fun r => r = a -> x == a \/ x == - a)) as [E|E].
    + intros _ ->. now left.
    + intros _ <-. right. ring.
    + exact Hax.
    + now rewrite (Hp E).
    + now rewrite (Hn E).
Qed.

Lemma absmax_saturates_witness :
  Forall2 (fun x y => (x == Qmax (Qabs (-4)) (Qabs 1) -> y = 448) /\
                      (x == - Qmax (Qabs (-4)) (Qabs 1) -> y = -448))
          (elements [[1; -4; 3 # 10]]) (elements [[112; -448; 32]]) /\
  exists y, In y (elements [[112; -448; 32]]) /\ Qabs y == 448.
Proof.
  apply (absmax_saturates [[1; -4; 3 # 10]] [[112; -448; 32]] (1 # 112) (-4) 1).
  - vm_compute. reflexivity.
  - vm_compute. reflexivity.
  - discriminate.
Defined.



Lemma static_quantize_nonzero (t : tensor) (s : Q) :
  ~ s == 0 ->
  FP8StaticLinear_per_tensor_quantize t s
  = Ok (tmap (fun x => to_float8_e4m3fn (clamp (Qred (x / s)) finfo_min finfo_max)) t).
Proof.
  intro Hs. unfold FP8StaticLinear_per_tensor_quantize.
  rewrite (mapM_total _ (map (fun x => Qred (x / s)))).
  - cbn [bind]. fold (tmap (fun x => Qred (x / s)) t). now rewrite !tmap_tmap.
  - intro row. apply mapM_total. intro x. now apply qdiv_nonzero.
Qed.




(** ** The byte size of a dtype *)

Lemma digits_prefix_app (digits rest : string) :
  all_digits digits = true -> starts_with_digit rest = false ->
  digits_prefix (digits ++ rest) = digits.
Proof.
  intros Hd Hr. induction digits as [|c digits IH]; cbn in *.
  - destruct rest as [|d rest]; cbn in *; [reflexivity | now rewrite Hr].
  - apply andb_true_iff in Hd. destruct Hd as [Hc Hd].
    rewrite Hc. f_equal. now apply IH.
Qed.

Lemma bit_search_step (c d : ascii) (s : string) :
  bit_search (String c (String d s))
  = if negb (is_digit c) && is_digit d then Some (digits_prefix (String d s))
    else bit_search (String d s).
Proof. reflexivity. Qed.

Lemma bit_search_first_number (pre digits rest : string) :
  pre <> EmptyString -> no_digits pre = true ->
  digits <> EmptyString -> all_digits digits = true ->
  starts_with_digit rest = false ->
  bit_search (pre ++ digits ++ rest) = Some digits.
Proof.
  intros Hpre Hno Hdig Hall Hrest.
  induction pre as [|c pre IH]; [congruence|].
  cbn [no_digits] in Hno. apply andb_true_iff in Hno. destruct Hno as [Hc Hno].
  destruct pre as [|c' pre].
  - destruct digits as [|d digits]; [congruence|].
    pose proof (digits_prefix_app (String d digits) rest Hall Hrest) as E.
    cbn [all_digits] in Hall. apply andb_true_iff in Hall. destruct Hall as [Hd _].
    change (bit_search (String c (String d (digits ++ rest))) = Some (String d digits)).
    rewrite bit_search_step, Hc, Hd. cbn [andb].
    change (String d (digits ++ rest)) with (String d digits ++ rest)%string.
    now rewrite E.
  - pose proof Hno as Hno'.
    cbn [no_digits] in Hno'. apply andb_true_iff in Hno'. destruct Hno' as [Hc' _].
    specialize (IH ltac:(discriminate) Hno).
    change (bit_search (String c (String c' (pre ++ digits ++ rest))) = Some digits).
    rewrite bit_search_step.
    apply negb_true_iff in Hc'. rewrite Hc', andb_false_r. exact IH.
Qed.

Lemma no_digits_app (a b : string) :
  no_digits (a ++ b) = no_digits a && no_digits b.
Proof.
  induction a as [|c a IH]; cbn; [reflexivity|]. now rewrite IH, andb_assoc.
Qed.

Lemma all_digits_not_no_digits (s : string) :
  s <> EmptyString -> all_digits s = true -> no_digits s = false.
Proof.
  destruct s as [|c s]; [congruence|]. cbn. intros _ H.
  apply andb_true_iff in H. destruct H as [-> _]. reflexivity.
Qed.

Lemma numbered_not_bool (pre digits rest : string) :
  digits <> EmptyString -> all_digits digits = true ->
  String.eqb (pre ++ digits ++ rest) "torch.bool" = false.
Proof.
  intros Hdig Hall. apply String.eqb_neq. intro E.
  assert (H : no_digits (pre ++ digits ++ rest) = true) by now rewrite E.
  rewrite !no_digits_app, (all_digits_not_no_digits _ Hdig Hall) in H.
  now rewrite andb_false_r in H.
Qed.

Lemma bit_search_no_digits (s : string) : no_digits s = true -> bit_search s = None.
Proof.
  induction s as [|c s IH]; [reflexivity|]. cbn [no_digits].
  intro H. apply andb_true_iff in H. destruct H as [_ H].
  destruct s as [|d s]; [reflexivity|].
  pose proof H as H'. cbn [no_digits] in H'.
  apply andb_true_iff in H'. destruct H' as [Hd _]. apply negb_true_iff in Hd.
  change (bit_search (String c (String d s)) = None).
  rewrite bit_search_step, Hd, andb_false_r. now apply IH.
Qed.

(** X4: the byte size of a dtype is read off the first number of its name:
    for a name made of a non-empty part without digits, then a number,
    then anything that does not go on with a digit, the size is that
    number divided by 8, rounded down; what follows the number (the
    [e4m3fn] of [float8_e4m3fn]) plays no part. *)
Theorem new_dtype_byte_size_first_number (pre digits rest : string) :
  pre <> EmptyString -> no_digits pre = true ->
  digits <> EmptyString -> all_digits digits = true ->
  starts_with_digit rest = false ->
  new_dtype_byte_size (pre ++ digits ++ rest) = Some (inject_Z (int digits / 8)).
Proof.
  intros Hpre Hno Hdig Hall Hrest. unfold new_dtype_byte_size.
  rewrite (numbered_not_bool pre digits rest Hdig Hall).
  now rewrite (bit_search_first_number pre digits rest Hpre Hno Hdig Hall Hrest).
Qed.

Lemma new_dtype_byte_size_first_number_witness :
  new_dtype_byte_size "torch.float8_e4m3fn" = Some 1.
Proof.
  apply (new_dtype_byte_size_first_number "torch.float" "8" "_e4m3fn");
    solve [discriminate | reflexivity].
Defined.

(** X5: a dtype narrower than a byte, other than [torch.bool], gets the
    byte size 0: the division by 8 rounds down. *)
Theorem new_dtype_byte_size_sub_byte (pre digits rest : string) :
  pre <> EmptyString -> no_digits pre = true ->
  digits <> EmptyString -> all_digits digits = true ->
  starts_with_digit rest = false ->
  (int digits < 8)%Z ->
  new_dtype_byte_size (pre ++ digits ++ rest) = Some 0.
Proof.
  intros Hpre Hno Hdig Hall Hrest Hlt. unfold new_dtype_byte_size.
  rewrite (numbered_not_bool pre digits rest Hdig Hall).
  rewrite (bit_search_first_number pre digits rest Hpre Hno Hdig Hall Hrest).
  assert (H0 : (0 <= int digits)%Z).
  { unfold int. assert (G : forall s acc, (0 <= acc -> 0 <= int_from acc s)%Z).
    { induction s as [|c s IH]; cbn [int_from]; intros acc Hacc; [exact Hacc|].
      apply IH. lia. }
    now apply G. }
  now rewrite Z.div_small by lia.
Qed.

Lemma new_dtype_byte_size_sub_byte_witness :
  new_dtype_byte_size "torch.uint4" = Some 0.
Proof.
  apply (new_dtype_byte_size_sub_byte "torch.uint" "4" "");
    solve [discriminate | reflexivity].
Defined.

(** X6: a name without any digit, other than [torch.bool], is not a valid
    dtype: the search finds nothing and [ValueError] is raised. *)
Theorem new_dtype_byte_size_no_digit (dtype : string) :
  dtype <> "torch.bool"%string -> no_digits dtype = true ->
  new_dtype_byte_size dtype = None.
Proof.
  intros Hb Hno. unfold new_dtype_byte_size.
  apply String.eqb_neq in Hb. rewrite Hb.
  now rewrite bit_search_no_digits.
Qed.

Lemma new_dtype_byte_size_no_digit_witness :
  new_dtype_byte_size "torch.half" = None.
Proof.
  apply (new_dtype_byte_size_no_digit "torch.half"); [discriminate | reflexivity].
Defined.

(** ** The gemm and the forward passes *)

Lemma capability_below_hopper (c : nat * nat) :
  (fst c < 9)%nat -> capability_geb c (9, 0)%nat = false.
Proof.
  intro H. unfold capability_geb. cbn [fst snd].
  apply orb_false_iff. split.
  - apply Nat.ltb_ge. lia.
  - apply andb_false_iff. left. apply Nat.eqb_neq. lia.
Qed.

Lemma dot_scale (sa sb : Q) (a b : list Q) :
  dot (map (fun x => qmul x sa) a) (map (fun y => qmul y sb) b)
  = (r <- dot a b ;; Ok (qmul r (qmul sa sb))).
Proof.
  revert b. induction a as [|x a IH]; intros [|y b]; cbn [map dot bind];
    try reflexivity.
  rewrite IH. destruct (dot a b) as [r|e]; cbn [bind]; [|reflexivity].
  f_equal. unfold qmul. apply Qred_complete.
  rewrite !Qred_correct. ring.
Qed.

Lemma mapM_bind_map {A B C : Type} (g : A -> result B) (h : B -> C) (g' : A -> result C)
      (l : list A) :
  (forall a, g' a = (b <- g a ;; Ok (h b))) ->
  mapM g' l = (bs <- mapM g l ;; Ok (map h bs)).
Proof.
  intro H. induction l as [|a l IH]; [reflexivity|].
  cbn [mapM]. rewrite H, IH.
  destruct (g a) as [b|e]; cbn [bind]; [|reflexivity].
  now destruct (mapM g l).
Qed.

Lemma linear_scale (sa sb : Q) (A B : tensor) :
  linear (tscale A sa) (tscale B sb) None
  = (out <- linear A B None ;; Ok (tscale out (qmul sa sb))).
Proof.
  rewrite !linear_no_bias. unfold tscale, tmap. rewrite mapM_map.
  apply mapM_bind_map. intro row. rewrite mapM_map.
  apply mapM_bind_map. intro w. apply dot_scale.
Qed.

Lemma fp8_gemm_fallback_eq
      (cuda_compute_capability : nat * nat)
      (scaled_mm : tensor -> tensor -> Q -> Q -> option (list Q) -> result tensor)
      (A B : tensor) (A_scale B_scale : Q) :
  (fst cuda_compute_capability < 9)%nat ->
  fp8_gemm cuda_compute_capability scaled_mm A A_scale B B_scale None
  = (out <- linear A B None ;; Ok (tscale out (qmul A_scale B_scale))).
Proof.
  intro H. unfold fp8_gemm. rewrite (capability_below_hopper _ H).
  apply linear_scale.
Qed.

(** X7: on a device whose major compute capability is below 9, whatever
    the minor one, [fp8_gemm] without bias does not use the native
    primitive: it returns the product of [A] and the transpose of [B]
    with every entry multiplied by [A_scale * B_scale], and raises
    whenever that product does. *)
Theorem fp8_gemm_fallback
        (cuda_compute_capability : nat * nat)
        (scaled_mm : tensor -> tensor -> Q -> Q -> option (list Q) -> result tensor)
        (A B : tensor) (A_scale B_scale : Q) :
  (fst cuda_compute_capability < 9)%nat ->
  fp8_gemm cuda_compute_capability scaled_mm A A_scale B B_scale None
  = (out <- linear A B None ;; Ok (tscale out (qmul A_scale B_scale))).
Proof.
  apply fp8_gemm_fallback_eq.
Qed.

Lemma fp8_gemm_fallback_witness :
  fp8_gemm (8, 9)%nat (fun _ _ _ _ _ => Err RuntimeError)
           [[448; -224]] (1 # 224) [[448; 0]; [0; 448]] (1 # 448) None
  = Ok [[2; -1]].
Proof.
  rewrite (fp8_gemm_fallback (8, 9)%nat (fun _ _ _ _ _ => Err RuntimeError)
             [[448; -224]] [[448; 0]; [0; 448]] (1 # 224) (1 # 448)).
  - reflexivity.
  - cbn [fst]. lia.
Defined.

Lemma dot_length (a b : list Q) (r : Q) : dot a b = Ok r -> List.length b = List.length a.
Proof.
  revert b r. induction a as [|x a IH]; intros [|y b] r; cbn [dot]; try discriminate.
  - reflexivity.
  - destruct (dot a b) as [r'|e] eqn:E; [|discriminate]. intros _.
    cbn [List.length]. f_equal. exact (IH _ _ E).
Qed.

Lemma mapM_length {A B : Type} (g : A -> result B) (l : list A) (l' : list B) :
  mapM g l = Ok l' -> List.length l' = List.length l.
Proof.
  intro H. apply mapM_Forall2 in H.
  induction H; cbn [List.length]; [reflexivity | now f_equal].
Qed.

Lemma linear_shape (input weight out : tensor) :
  linear input weight None = Ok out ->
  List.length out = List.length input /\
  Forall (fun row => List.length row = List.length weight) out /\
  Forall (fun row => Forall (fun w => List.length w = List.length row) weight) input.
Proof.
  rewrite linear_no_bias. intro H. split; [exact (mapM_length _ _ _ H)|].
  apply mapM_Forall2 in H. induction H as [|row o input out Hrow _ IH].
  - split; constructor.
  - destruct IH as [IH1 IH2]. split; constructor; try assumption.
    + exact (mapM_length _ _ _ Hrow).
    + apply mapM_Forall2 in Hrow. clear - Hrow.
      induction Hrow as [|w r ws rs Hw _ IH]; constructor; [|exact IH].
      exact (dot_length _ _ _ Hw).
Qed.

Lemma tmap_rows (f : Q -> Q) (t : tensor) :
  map (@List.length Q) (tmap f t) = map (@List.length Q) t.
Proof.
  unfold tmap. rewrite map_map. apply map_ext. intro row. apply length_map.
Qed.

(** X8: on a device below capability 9 the output of
    [FP8DynamicLinear.forward] has one row for each row of the input and
    one column for each row of the weight, and it is returned only if
    every row of the input is as long as every row of the weight. *)
Theorem dynamic_forward_shape
        (cuda_compute_capability : nat * nat)
        (scaled_mm : tensor -> tensor -> Q -> Q -> option (list Q) -> result tensor)
        (weight : tensor) (weight_scale : Q) (x out : tensor) :
  (fst cuda_compute_capability < 9)%nat ->
  FP8DynamicLinear_forward cuda_compute_capability scaled_mm weight weight_scale x
  = Ok out ->
  List.length out = List.length x /\
  Forall (fun row => List.length row = List.length weight) out /\
  Forall (fun row => Forall (fun w => List.length w = List.length row) weight) x.
Proof.
  intros Hcap. unfold FP8DynamicLinear_forward.
  destruct (per_tensor_quantize x) as [[q s]|e] eqn:E; [|discriminate]. cbn [bind].
  rewrite (fp8_gemm_fallback_eq _ scaled_mm _ _ _ _ Hcap).
  destruct (linear q weight None) as [o|e] eqn:El; [|discriminate]. cbn [bind].
  intro H. injection H as <-.
  destruct (per_tensor_quantize_inv _ _ _ E) as (mn & mx & _ & Eq & _).
  destruct (linear_shape _ _ _ El) as (H1 & H2 & H3).
  assert (Hrows : map (@List.length Q) q = map (@List.length Q) x).
  { rewrite Eq. now rewrite !tmap_rows. }
  split; [|split].
  - unfold tscale, tmap. rewrite length_map, H1.
    rewrite <- (length_map (@List.length Q) q), Hrows. apply length_map.
  - unfold tscale, tmap. apply Forall_map.
    eapply Forall_impl; [|exact H2]. intros row Hr. now rewrite length_map.
  - assert (G : forall l l' : tensor,
               map (@List.length Q) l = map (@List.length Q) l' ->
               Forall (fun row => Forall (fun w => List.length w = List.length row) weight) l ->
               Forall (fun row => Forall (fun w => List.length w = List.length row) weight) l').
    { induction l as [|r l IH]; intros [|r' l'] Hm Hf; try discriminate; constructor.
      - cbn [map] in Hm. injection Hm as Hr _. inversion Hf; subst.
        eapply Forall_impl; [|eassumption]. cbn beta. intros w Hw. congruence.
      - cbn [map] in Hm. injection Hm as _ Hm. inversion Hf; subst. now apply (IH l'). }
    exact (G q x Hrows H3).
Qed.

Lemma dynamic_forward_shape_witness :
  List.length [[2; -1]] = List.length [[2; -1]] /\
  Forall (fun row => List.length row = List.length [[448; 0]; [0; 448]]) [[2; -1]] /\
  Forall (fun row => Forall (fun w => List.length w = List.length row) [[448; 0]; [0; 448]])
         [[2; -1]].
Proof.
  apply (dynamic_forward_shape (8, 9)%nat (fun _ _ _ _ _ => Err RuntimeError)
           [[448; 0]; [0; 448]] (1 # 448) [[2; -1]] [[2; -1]]).
  - cbn [fst]. lia.
  - vm_compute. reflexivity.
Defined.

(** X9: an input without elements makes [FP8DynamicLinear.forward] and
    [FP8StaticLinearQuantizer.forward] raise, on any device and whatever
    the weight: the reduction of [per_tensor_quantize] has nothing to
    reduce.  [FP8StaticLinear.forward] does no reduction: on a device
    below capability 9 it maps the input without rows to the output
    without rows. *)
Theorem forward_on_empty_input
        (cuda_compute_capability : nat * nat)
        (scaled_mm : tensor -> tensor -> Q -> Q -> option (list Q) -> result tensor)
        (weight : tensor) (weight_scale : Q) (act_scale : option Q) (x : tensor) :
  elements x = [] ->
  FP8DynamicLinear_forward cuda_compute_capability scaled_mm weight weight_scale x
  = Err RuntimeError /\
  FP8StaticLinearQuantizer_forward cuda_compute_capability scaled_mm
    weight weight_scale act_scale x
  = Err RuntimeError /\
  (forall s, (fst cuda_compute_capability < 9)%nat -> ~ s == 0 ->
             FP8StaticLinear_forward cuda_compute_capability scaled_mm
               weight weight_scale (Some s) [] = Ok []).
Proof.
  intro H. split; [|split].
  - unfold FP8DynamicLinear_forward. now rewrite (per_tensor_quantize_empty _ H).
  - unfold FP8StaticLinearQuantizer_forward.
    now rewrite (per_tensor_quantize_empty _ H).
  - intros s Hcap Hs. unfold FP8StaticLinear_forward.
    rewrite (static_quantize_nonzero _ _ Hs). cbn [bind tmap map].
    now rewrite (fp8_gemm_fallback_eq _ scaled_mm _ _ _ _ Hcap).
Qed.

Lemma forward_on_empty_input_witness :
  FP8DynamicLinear_forward (8, 9)%nat (fun _ _ _ _ _ => Err RuntimeError)
    [[448; 0]] (1 # 448) [[]; []]
  = Err RuntimeError /\
  FP8StaticLinearQuantizer_forward (8, 9)%nat (fun _ _ _ _ _ => Err RuntimeError)
    [[448; 0]] (1 # 448) None [[]; []]
  = Err RuntimeError /\
  (forall s, (fst (8, 9)%nat < 9)%nat -> ~ s == 0 ->
             FP8StaticLinear_forward (8, 9)%nat (fun _ _ _ _ _ => Err RuntimeError)
               [[448; 0]] (1 # 448) (Some s) [] = Ok []).
Proof.
  apply (forward_on_empty_input (8, 9)%nat (fun _ _ _ _ _ => Err RuntimeError)
           [[448; 0]] (1 # 448) None [[]; []]).
  reflexivity.
Defined.

(** ** Names and the graph *)

Lemma get_atoms_plug (ctx : context) :
  context_ok ctx ->
  forall (x : module) (more : list string),
    get_atoms (plug ctx x) (atoms_of ctx ++ more) = get_atoms x more.
Proof.
  induction ctx as [|l ctx IH]; intros Hok x more; [reflexivity|].
  inversion Hok as [|? ? [Hv Hnin] Hctx]; subst.
  cbn [plug atoms_of]. rewrite <- app_assoc. cbn [app].
  rewrite (IH Hctx). cbn [get_atoms].
  now rewrite (dict_get_middle _ _ _ _ Hnin).
Qed.

Lemma get_submodule_plug (ctx : context) (x : module) :
  context_ok ctx -> get_submodule (plug ctx x) (name_of ctx) = Ok x.
Proof.
  intro Hok. unfold get_submodule. destruct ctx as [|l ctx]; [reflexivity|].
  pose proof (name_of_not_empty _ _ Hok) as Hne.
  apply String.eqb_neq in Hne. rewrite Hne.
  rewrite (split_dot_name_of _ _ Hok).
  rewrite <- (app_nil_r (atoms_of (l :: ctx))).
  now rewrite (get_atoms_plug _ Hok).
Qed.

(** Every pair of the traversal of a well-formed graph is a module in its
    context, under the name of the context. *)
Lemma flatten_in_context (m : module) :
  forall (ctx0 : context) (n : string) (x : module),
    well_formed m = true -> context_ok ctx0 ->
    In (n, x) (flatten (name_of ctx0) m) ->
    exists ctx, context_ok ctx /\ plug ctx x = plug ctx0 m /\ name_of ctx = n /\
                (ctx = [] -> ctx0 = []).
Proof.
  induction m as [m Hleaf|cs IH] using module_induction; intros ctx0 n x Hwf Hok Hin.
  - rewrite (flatten_leaf _ _ Hleaf) in Hin. destruct Hin as [E|[]].
    injection E as <- <-. exists ctx0. auto.
  - rewrite flatten_module in Hin. destruct Hin as [E|Hin].
    { injection E as <- <-. exists ctx0. auto. }
    unfold flatten_children in Hin. apply in_concat in Hin.
    destruct Hin as (part & Hpart & Hin). apply in_map_iff in Hpart.
    destruct Hpart as ([k c] & <- & Hkc). cbn [fst snd] in Hin.
    destruct (in_split _ _ Hkc) as (b & a & ->).
    cbn [well_formed] in Hwf. apply andb_true_iff in Hwf. destruct Hwf as [Hkeys Hsub].
    unfold children_ok in Hkeys. apply andb_true_iff in Hkeys.
    destruct Hkeys as [Hu Hv]. rewrite map_app in Hu, Hv. cbn [map fst] in Hu, Hv.
    rewrite forallb_app in Hv, Hsub. apply andb_true_iff in Hv, Hsub.
    destruct Hv as [_ Hv], Hsub as [_ Hsub]. cbn [forallb snd] in Hv, Hsub.
    apply andb_true_iff in Hv, Hsub. destruct Hv as [Hv _], Hsub as [Hc _].
    assert (Hl : context_ok (Layer b k a :: ctx0)).
    { constructor; [|exact Hok]. split; [exact Hv | exact (unique_middle _ _ _ Hu)]. }
    rewrite Forall_forall in IH. specialize (IH _ Hkc). cbn [snd] in IH.
    destruct (IH (Layer b k a :: ctx0) n x Hc Hl Hin) as (ctx & Hctx & Hplug & Hname & Hnil).
    exists ctx. repeat split; try assumption.
    intro E. specialize (Hnil E). discriminate.
Qed.

Lemma flatten_root_context (model : module) (n : string) (x : module) :
  well_formed model = true -> In (n, x) (flatten EmptyString model) ->
  exists ctx, context_ok ctx /\ plug ctx x = model /\ name_of ctx = n.
Proof.
  intros Hwf Hin.
  destruct (flatten_in_context model [] n x Hwf (Forall_nil _) Hin)
    as (ctx & Hok & Hplug & Hname & _).
  now exists ctx.
Qed.

Lemma well_formed_model_well_formed (model : module) :
  well_formed_model model = true -> well_formed model = true.
Proof. now destruct model. Qed.

(** X11: on a well-formed graph [get_submodule] and [named_modules] agree:
    every name the traversal yields resolves, and it resolves to the
    module it was yielded with. *)
Theorem get_submodule_of_named_modules (model : module) :
  well_formed_model model = true ->
  exists l, named_modules model = Ok l /\
            Forall (fun p => get_submodule model (fst p) = Ok (snd p)) l.
Proof.
  intro Hwf. exists (flatten EmptyString model).
  split; [exact (named_modules_flatten _ Hwf)|].
  apply Forall_forall. intros [n x] Hin. cbn [fst snd].
  destruct (flatten_root_context _ _ _ (well_formed_model_well_formed _ Hwf) Hin)
    as (ctx & Hok & <- & <-).
  now apply get_submodule_plug.
Qed.

Lemma get_submodule_of_named_modules_witness :
  exists l, named_modules sample_model = Ok l /\
            Forall (fun p => get_submodule sample_model (fst p) = Ok (snd p)) l.
Proof.
  apply (get_submodule_of_named_modules sample_model). reflexivity.
Defined.

(** X12: the rebinding the loops end with, at a name the traversal of a
    well-formed graph yields for a module other than the root, does not
    raise, and afterwards [get_submodule] finds the new module at that
    name. *)
Theorem rebind_then_get_submodule
        (model : module) (l : list (string * module)) (name : string) (m value : module) :
  well_formed_model model = true ->
  named_modules model = Ok l -> In (name, m) l -> name <> EmptyString ->
  exists model', rebind model name value = Ok model' /\
                 get_submodule model' name = Ok value.
Proof.
  intros Hwf Hl Hin Hname.
  rewrite (named_modules_flatten _ Hwf) in Hl. injection Hl as <-.
  destruct (flatten_root_context _ _ _ (well_formed_model_well_formed _ Hwf) Hin)
    as (ctx & Hok & <- & <-).
  destruct ctx as [|layer ctx]; [now contradiction Hname|].
  exists (plug (layer :: ctx) value). split.
  - now apply rebind_plug.
  - now apply get_submodule_plug.
Qed.

Lemma rebind_then_get_submodule_witness :
  exists model', rebind sample_model "a.b.c" (FP8DynamicLinear [[448; 448]] (1 # 224))
                 = Ok model' /\
                 get_submodule model' "a.b.c"
                 = Ok (FP8DynamicLinear [[448; 448]] (1 # 224)).
Proof.
  apply (rebind_then_get_submodule sample_model (flatten EmptyString sample_model)
           "a.b.c" (Linear [[2; 2]] (Some [1]))).
  - reflexivity.
  - reflexivity.
  - vm_compute. tauto.
  - discriminate.
Defined.

(** ** Errors of the weight pass *)

Lemma mapM_err_in {A B : Type} (g : A -> result B) (l : list A) (e : error) :
  mapM g l = Err e -> exists a, In a l /\ g a = Err e.
Proof.
  induction l as [|a l IH]; cbn [mapM]; [discriminate|].
  destruct (g a) as [b|e'] eqn:E; cbn [bind].
  - destruct (mapM g l) as [bs|e'']; cbn [bind]; [discriminate|].
    intros [= ->]. destruct (IH eq_refl) as (a' & Hin & Ha'). exists a'. split; [now right | exact Ha'].
  - intros [= ->]. exists a. split; [now left | exact E].
Qed.

Lemma mapM_err_of {A B : Type} (g : A -> result B) (l : list A) (a : A) (e : error) :
  In a l -> g a = Err e -> exists e', mapM g l = Err e'.
Proof.
  induction l as [|x l IH]; [intros []|]. cbn [mapM].
  intros [->|Hin] Ha.
  - rewrite Ha. now exists e.
  - destruct (g x) as [b|e']; cbn [bind]; [|now exists e'].
    destruct (IH Hin Ha) as (e' & ->). now exists e'.
Qed.

Lemma rewrite_to_dynamic_err (m : module) :
  forall (name : string) (e : error),
    rewrite to_dynamic m = Err e ->
    e = RuntimeError /\ Exists empty_weight (flatten name m).
Proof.
  induction m as [m Hleaf|cs IH] using module_induction; intros name e H.
  - rewrite (flatten_leaf _ _ Hleaf).
    destruct m; try discriminate. cbn [rewrite to_dynamic] in H.
    destruct (elements weight) as [|x xs] eqn:E.
    + rewrite (per_tensor_quantize_empty _ E) in H. injection H as <-.
      split; [reflexivity|]. constructor. exact E.
    + destruct (aminmax_nonempty weight) as (mn & mx & Ha); [congruence|].
      now rewrite (per_tensor_quantize_ok _ _ _ Ha) in H.
  - rewrite rewrite_module in H.
    destruct (rewrite_children to_dynamic cs) as [cs'|e'] eqn:E; [discriminate|].
    injection H as ->. apply mapM_err_in in E. destruct E as ([k c] & Hin & Hc).
    cbn [fst snd] in Hc.
    destruct (rewrite to_dynamic c) as [c'|e'] eqn:Ec; [discriminate|].
    injection Hc as ->. rewrite Forall_forall in IH.
    destruct (IH _ Hin (submodule_prefix name k) e Ec) as [-> Hex].
    split; [reflexivity|]. rewrite flatten_module. apply Exists_cons_tl.
    apply Exists_exists in Hex. destruct Hex as (p & Hp & Hempty).
    apply Exists_exists. exists p. split; [|exact Hempty].
    unfold flatten_children. apply in_concat.
    exists (flatten (submodule_prefix name k) c). split; [|exact Hp].
    apply in_map_iff. now exists (k, c).
Qed.

Lemma rewrite_to_dynamic_empty (m : module) :
  forall name : string,
    Exists empty_weight (flatten name m) -> exists e, rewrite to_dynamic m = Err e.
Proof.
  induction m as [m Hleaf|cs IH] using module_induction; intros name H.
  - rewrite (flatten_leaf _ _ Hleaf) in H.
    inversion H as [? ? Hm|? ? Hm]; subst; [|inversion Hm].
    unfold empty_weight in Hm. cbn [snd] in Hm. destruct m; try contradiction.
    exists RuntimeError. cbn [rewrite to_dynamic].
    now rewrite (per_tensor_quantize_empty _ Hm).
  - rewrite flatten_module in H.
    inversion H as [? ? Hm|? ? Hm]; subst; [contradiction|].
    apply Exists_exists in Hm. destruct Hm as (p & Hp & Hempty).
    unfold flatten_children in Hp. apply in_concat in Hp.
    destruct Hp as (part & Hpart & Hp). apply in_map_iff in Hpart.
    destruct Hpart as ([k c] & <- & Hin). cbn [fst snd] in Hp.
    rewrite Forall_forall in IH.
    destruct (IH _ Hin (submodule_prefix name k)) as (e & He).
    { apply Exists_exists. now exists p. }
    cbn [snd] in He.
    destruct (mapM_err_of (fun kc => c <- rewrite to_dynamic (snd kc) ;; Ok (fst kc, c))
                cs (k, c) e Hin) as (e' & He').
    { cbn [fst snd]. now rewrite He. }
    exists e'. rewrite rewrite_module. unfold rewrite_children. now rewrite He'.
Qed.

(** X13: on a well-formed graph [quantize_weights] raises exactly when
    some [nn.Linear] of the graph has a weight without elements, and what
    it raises is the RuntimeError of the reduction: neither the traversal
    nor the resolution of a dotted name fails. *)
Theorem quantize_weights_raises (model : module) :
  well_formed_model model = true ->
  exists l, named_modules model = Ok l /\
            (Exists empty_weight l <-> quantize_weights model = Err RuntimeError) /\
            (forall e, quantize_weights model = Err e -> e = RuntimeError).
Proof.
  intro Hwf. exists (flatten EmptyString model).
  split; [exact (named_modules_flatten _ Hwf)|].
  rewrite (quantize_weights_rewrite _ Hwf).
  split; [split|].
  - intro H. destruct (rewrite_to_dynamic_empty _ _ H) as (e & He).
    destruct (rewrite_to_dynamic_err _ EmptyString _ He) as [-> _]. exact He.
  - intro H. exact (proj2 (rewrite_to_dynamic_err _ EmptyString _ H)).
  - intros e H. exact (proj1 (rewrite_to_dynamic_err _ EmptyString _ H)).
Qed.

Lemma quantize_weights_raises_witness :
  exists l, named_modules (Module [("fc"%string, Linear [[]] None)]) = Ok l /\
            (Exists empty_weight l <->
             quantize_weights (Module [("fc"%string, Linear [[]] None)]) = Err RuntimeError) /\
            (forall e, quantize_weights (Module [("fc"%string, Linear [[]] None)]) = Err e ->
                       e = RuntimeError).
Proof.
  apply (quantize_weights_raises (Module [("fc"%string, Linear [[]] None)])).
  reflexivity.
Defined.

(** ** The whole pipeline *)

Lemma observed_refl (p : string * module) : observed p p.
Proof.
  split; [reflexivity|]. destruct (snd p); eauto.
Qed.

Lemma observed_trans (p q r : string * module) :
  observed p q -> observed q r -> observed p r.
Proof.
  destruct p as [n m], q as [n' m'], r as [n'' m'']. unfold observed. cbn [fst snd].
  intros [-> H] [-> H']. split; [reflexivity|].
  destruct m; try (subst m'; exact H').
  - destruct H as (a & ->). exact H'.
  - destruct m'; try discriminate. exact H'.
Qed.

Lemma Forall2_reflexive {A : Type} (R : A -> A -> Prop) (l : list A) :
  (forall a, R a a) -> Forall2 R l l.
Proof.
  intro H. induction l; constructor; auto.
Qed.

Lemma Forall2_transitive {A : Type} (R : A -> A -> Prop) (l1 l2 l3 : list A) :
  (forall a b c, R a b -> R b c -> R a c) ->
  Forall2 R l1 l2 -> Forall2 R l2 l3 -> Forall2 R l1 l3.
Proof.
  intros H H12. revert l3. induction H12; intros l3 H23; inversion H23; subst;
    constructor; eauto.
Qed.

Lemma same_but_scales_refl (m : module) : same_but_scales m m.
Proof.
  intro name. apply Forall2_reflexive, observed_refl.
Qed.

Lemma same_but_scales_trans (a b c : module) :
  same_but_scales a b -> same_but_scales b c -> same_but_scales a c.
Proof.
  intros H H' name. exact (Forall2_transitive _ _ _ _ observed_trans (H name) (H' name)).
Qed.

Lemma same_but_scales_child (k : string) (c c' : module) (b a : list (string * module)) :
  same_but_scales c c' ->
  same_but_scales (Module (b ++ (k, c) :: a)) (Module (b ++ (k, c') :: a)).
Proof.
  intros H name.
  rewrite !flatten_module, !flatten_children_app, !flatten_children_cons.
  constructor; [now split|].
  apply Forall2_app; [apply Forall2_reflexive, observed_refl|].
  apply Forall2_app; [apply H | apply Forall2_reflexive, observed_refl].
Qed.

Lemma with_atoms_scales (g : module -> result module) :
  (forall x x', g x = Ok x' -> same_but_scales x x') ->
  forall atoms m m', with_atoms m atoms g = Ok m' -> same_but_scales m m'.
Proof.
  intros Hg atoms. induction atoms as [|item atoms IH]; intros m m'; cbn [with_atoms].
  - apply Hg.
  - destruct m as [| | | |cs]; try discriminate.
    destruct (dict_get item cs) as [child|] eqn:E; [|discriminate].
    destruct (with_atoms child atoms g) as [child'|e] eqn:E'; [|discriminate].
    cbn [bind]. intros [= <-].
    destruct (dict_get_split _ _ _ E) as (b & a & -> & Hnin).
    rewrite (dict_set_middle _ _ _ _ _ Hnin).
    apply same_but_scales_child. now apply IH.
Qed.

Lemma with_submodule_scales (g : module -> result module) (target : string) :
  (forall x x', g x = Ok x' -> same_but_scales x x') ->
  forall m m', with_submodule m target g = Ok m' -> same_but_scales m m'.
Proof.
  intros Hg m m'. unfold with_submodule.
  destruct (String.eqb target ""); [apply Hg | now apply with_atoms_scales].
Qed.

Section Scales.

Variable cuda_compute_capability : nat * nat.
Variable scaled_mm : tensor -> tensor -> Q -> Q -> option (list Q) -> result tensor.
Variable forward_calls : module -> list nat -> list (string * tensor).

Lemma call_forward_scales (root : module) (call : string * tensor) (root' : module) :
  call_forward cuda_compute_capability scaled_mm root call = Ok root' ->
  same_but_scales root root'.
Proof.
  destruct call as [name x]. unfold call_forward.
  apply with_submodule_scales. intros m m'.
  destruct m; try (intros [= <-]; apply same_but_scales_refl).
  destruct (FP8StaticLinearQuantizer_forward _ _ _ _ _ _) as [[out a]|e]; [|discriminate].
  cbn [bind]. intros [= <-] name'. cbn [flatten].
  constructor; [|constructor]. split; [reflexivity|]. cbn [snd]. eauto.
Qed.

Lemma run_model_scales (root : module) (row : list nat) (root' : module) :
  run_model cuda_compute_capability scaled_mm forward_calls root row = Ok root' ->
  same_but_scales root root'.
Proof.
  unfold run_model. intro H.
  exact (foldM_invariant same_but_scales _ same_but_scales_refl same_but_scales_trans
           call_forward_scales _ _ _ H).
Qed.

Lemma calibration_scales (model : module) (rows : list (list nat)) (model' : module) :
  calibration cuda_compute_capability scaled_mm forward_calls model rows = Ok model' ->
  same_but_scales model model'.
Proof.
  unfold calibration. intro H.
  exact (foldM_invariant same_but_scales _ same_but_scales_refl same_but_scales_trans
           run_model_scales _ _ _ H).
Qed.

End Scales.

Lemma pipeline_pair (p p1 pq pc p' : string * module) :
  rewritten to_dynamic p p1 -> rewritten to_quantizer p1 pq ->
  observed pq pc -> rewritten to_static pc p' ->
  fully_quantized p p'.
Proof.
  destruct p as [n m], p1 as [n1 m1], pq as [nq mq], pc as [nc mc], p' as [n' m'].
  unfold rewritten, observed, fully_quantized. cbn [fst snd].
  intros (-> & L1 & R1) (-> & L2 & R2) (-> & O) (-> & L4 & R4).
  split; [reflexivity|].
  destruct m as [w b|w s|w s a|w s a|cs].
  - specialize (R1 eq_refl). cbn [rewrite to_dynamic] in R1.
    destruct (per_tensor_quantize w) as [[q s]|e]; [|discriminate].
    cbn [bind] in R1. injection R1 as <-.
    specialize (R2 eq_refl). cbn [rewrite to_quantizer] in R2. injection R2 as <-.
    destruct O as (a & ->).
    specialize (R4 eq_refl). cbn [rewrite to_static] in R4. injection R4 as <-.
    now exists q, s, a.
  - specialize (R1 eq_refl). cbn [rewrite to_dynamic] in R1. injection R1 as <-.
    specialize (R2 eq_refl). cbn [rewrite to_quantizer] in R2. injection R2 as <-.
    destruct O as (a & ->).
    specialize (R4 eq_refl). cbn [rewrite to_static] in R4. injection R4 as <-.
    now exists a.
  - specialize (R1 eq_refl). cbn [rewrite to_dynamic] in R1. injection R1 as <-.
    specialize (R2 eq_refl). cbn [rewrite to_quantizer] in R2. injection R2 as <-.
    destruct O as (a' & ->).
    specialize (R4 eq_refl). cbn [rewrite to_static] in R4. injection R4 as <-.
    now exists a'.
  - specialize (R1 eq_refl). cbn [rewrite to_dynamic] in R1. injection R1 as <-.
    specialize (R2 eq_refl). cbn [rewrite to_quantizer] in R2. injection R2 as <-.
    subst mc.
    specialize (R4 eq_refl). cbn [rewrite to_static] in R4. now injection R4 as <-.
  - cbn [is_leaf] in L1. destruct m1; try discriminate L1.
    cbn [is_leaf] in L2. destruct mq; try discriminate L2.
    destruct mc; try discriminate O. exact L4.
Qed.

Lemma Forall2_chain {A : Type} (R1 R2 R3 R4 R : A -> A -> Prop) :
  (forall a b c d e, R1 a b -> R2 b c -> R3 c d -> R4 d e -> R a e) ->
  forall l0 l1 l2 l3 l4,
    Forall2 R1 l0 l1 -> Forall2 R2 l1 l2 -> Forall2 R3 l2 l3 -> Forall2 R4 l3 l4 ->
    Forall2 R l0 l4.
Proof.
  intros H l0 l1 l2 l3 l4 H1. revert l2 l3 l4.
  induction H1; intros l2 l3 l4 H2 H3 H4;
    inversion H2; subst; inversion H3; subst; inversion H4; subst;
    constructor; eauto.
Qed.

(** X14: [quantize_weights] followed by [quantize_activations], on a
    well-formed graph and when both return, leaves a graph with the same
    names in which every affine layer is an [FP8StaticLinear]: an
    [nn.Linear] with the per-tensor quantization of its weight and the
    scale of that quantization, a layer of one of the three classes with
    the weight and weight scale it had; no [nn.Linear], dynamic layer or
    observer is left. *)
Theorem pipeline_quantizes_every_layer
        (cuda_compute_capability : nat * nat)
        (scaled_mm : tensor -> tensor -> Q -> Q -> option (list Q) -> result tensor)
        (forward_calls : module -> list nat -> list (string * tensor))
        (model weight_quantized quantized : module)
        (calibration_tokens : list (list nat)) :
  well_formed_model model = true ->
  quantize_weights model = Ok weight_quantized ->
  quantize_activations cuda_compute_capability scaled_mm forward_calls
    weight_quantized calibration_tokens = Ok quantized ->
  exists l l',
    named_modules model = Ok l /\ named_modules quantized = Ok l' /\
    Forall2 fully_quantized l l'.
Proof.
  intros Hwf H1 H. unfold quantize_activations in H.
  rewrite (quantize_weights_rewrite _ Hwf) in H1.
  pose proof (rewrite_well_formed_model _ to_dynamic_leaf _ _ H1 Hwf) as Hwf1.
  destruct (replace_with_quantizer weight_quantized) as [mq|e] eqn:E2; [|discriminate].
  cbn [bind] in H.
  destruct (calibration _ _ _ mq calibration_tokens) as [mc|e] eqn:E3; [|discriminate].
  cbn [bind] in H.
  rewrite (replace_with_quantizer_rewrite _ Hwf1) in E2.
  pose proof (rewrite_well_formed_model _ to_quantizer_leaf _ _ E2 Hwf1) as Hwfq.
  pose proof (same_skeleton_model _ _ (calibration_skeleton _ _ _ _ _ _ E3) Hwfq) as Hwfc.
  rewrite (replace_with_static_rewrite _ Hwfc) in H.
  pose proof (rewrite_well_formed_model _ to_static_leaf _ _ H Hwfc) as Hwf'.
  exists (flatten EmptyString model), (flatten EmptyString quantized).
  split; [exact (named_modules_flatten _ Hwf)|].
  split; [exact (named_modules_flatten _ Hwf')|].
  exact (Forall2_chain _ _ _ _ _ pipeline_pair _ _ _ _ _
           (rewrite_flatten _ to_dynamic_leaf _ _ EmptyString H1)
           (rewrite_flatten _ to_quantizer_leaf _ _ EmptyString E2)
           (calibration_scales _ _ _ _ _ _ E3 EmptyString)
           (rewrite_flatten _ to_static_leaf _ _ EmptyString H)).
Qed.

Lemma pipeline_quantizes_every_layer_witness :
  exists l l',
    named_modules sample_model = Ok l /\
    named_modules
      (Module [("a"%string,
                Module [("b"%string,
                         Module [("c"%string,
                                  FP8StaticLinear [[448; 448]] (1 # 224) (Some (3 # 448)))]);
                        ("norm"%string, Module [])]);
               ("fc"%string, FP8StaticLinear [[112; -448]] (1 # 112) (Some (1 # 224)))])
    = Ok l' /\
    Forall2 fully_quantized l l'.
Proof.
  apply (pipeline_quantizes_every_layer
           (8, 9)%nat (fun _ _ _ _ _ => Err RuntimeError)
           (fun _ _ => [("fc"%string, [[1; 2]]); ("a.b.c"%string, [[3; -1]])])
           sample_model
           (Module [("a"%string,
                     Module [("b"%string,
                              Module [("c"%string, FP8DynamicLinear [[448; 448]] (1 # 224))]);
                             ("norm"%string, Module [])]);
                    ("fc"%string, FP8DynamicLinear [[112; -448]] (1 # 112))])
           _ [[1%nat]; [2%nat]]).
  - reflexivity.
  - vm_compute. reflexivity.
  - vm_compute. reflexivity.
Defined.

(** ** Quantizing what has been quantized *)











(** ** The output of an observer *)

(** X18: on a device below capability 9 an observer quantizes its input
    with the input's own scale but dequantizes with the scale it has
    stored after the update, the running maximum: its output is the
    product of the quantized input and the weight times
    [act_scale * weight_scale], where [FP8DynamicLinear.forward] on the
    same input gives that product times [x_scale * weight_scale], and
    [x_scale <= act_scale]. *)
Theorem observer_output_uses_stored_scale
        (cuda_compute_capability : nat * nat)
        (scaled_mm : tensor -> tensor -> Q -> Q -> option (list Q) -> result tensor)
        (weight : tensor) (weight_scale : Q) (act_scale : option Q)
        (x out : tensor) (act_scale' : option Q) :
  (fst cuda_compute_capability < 9)%nat ->
  FP8StaticLinearQuantizer_forward cuda_compute_capability scaled_mm
    weight weight_scale act_scale x = Ok (out, act_scale') ->
  exists (qinput : tensor) (x_scale stored : Q) (product : tensor),
    per_tensor_quantize x = Ok (qinput, x_scale) /\
    linear qinput weight None = Ok product /\
    act_scale' = Some stored /\ x_scale <= stored /\
    out = tscale product (qmul stored weight_scale) /\
    FP8DynamicLinear_forward cuda_compute_capability scaled_mm weight weight_scale x
    = Ok (tscale product (qmul x_scale weight_scale)).
Proof.
  intros Hcap. unfold FP8StaticLinearQuantizer_forward, FP8DynamicLinear_forward.
  destruct (per_tensor_quantize x) as [[q s]|e]; [|discriminate]. cbn [bind].
  rewrite !(fp8_gemm_fallback_eq _ scaled_mm _ _ _ _ Hcap).
  destruct (linear q weight None) as [o|e] eqn:El; [|discriminate]. cbn [bind].
  intro H. injection H as <- <-.
  exists q, s. eexists. exists o.
  split; [reflexivity|]. split; [exact El|]. split; [reflexivity|].
  split; [|split; reflexivity].
  destruct act_scale as [a|]; [|apply Qle_refl].
  destruct (Qgtb s a) eqn:E; [apply Qle_refl | now apply Qgtb_false].
Qed.

Lemma observer_output_uses_stored_scale_witness :
  exists (qinput : tensor) (x_scale stored : Q) (product : tensor),
    per_tensor_quantize [[1; -2]] = Ok (qinput, x_scale) /\
    linear qinput [[448; 0]] None = Ok product /\
    Some (1 # 112) = Some stored /\ x_scale <= stored /\
    [[2]] = tscale product (qmul stored (1 # 448)) /\
    FP8DynamicLinear_forward (8, 9)%nat (fun _ _ _ _ _ => Err RuntimeError)
      [[448; 0]] (1 # 448) [[1; -2]]
    = Ok (tscale product (qmul x_scale (1 # 448))).
Proof.
  apply (observer_output_uses_stored_scale (8, 9)%nat (fun _ _ _ _ _ => Err RuntimeError)
           [[448; 0]] (1 # 448) (Some (1 # 112)) [[1; -2]] [[2]] (Some (1 # 112))).
  - cbn [fst]. lia.
  - vm_compute. reflexivity.
Defined.

(** ** Running the activation pass again *)

Lemma settled_of_flatten (m : module) :
  forall name, Forall settled_pair (flatten name m) -> settled m = true.
Proof.
  induction m as [m Hleaf|cs IH] using module_induction; intros name H.
  - rewrite (flatten_leaf _ _ Hleaf) in H. inversion H as [|? ? Hp _]; subst.
    unfold settled_pair in Hp. cbn [snd] in Hp. now destruct m.
  - rewrite flatten_module in H. inversion H as [|? ? _ Hcs]; subst.
    cbn [settled]. apply forallb_forall. intros [k c] Hin. cbn [snd].
    rewrite Forall_forall in IH. apply (IH _ Hin (submodule_prefix name k)).
    apply Forall_forall. intros p Hp. rewrite Forall_forall in Hcs. apply Hcs.
    unfold flatten_children. apply in_concat.
    exists (flatten (submodule_prefix name k) c). split; [|exact Hp].
    apply in_map_iff. now exists (k, c).
Qed.

Lemma rewrite_settled (f : replacement) (m : module) :
  (forall x, settled x = true -> is_leaf x = true -> f x = None) ->
  settled m = true -> rewrite f m = Ok m.
Proof.
  intro Hf. induction m as [m Hleaf|cs IH] using module_induction; intro Hs.
  - rewrite (rewrite_leaf_eq f m Hleaf). now rewrite (Hf m Hs Hleaf).
  - rewrite rewrite_module. cbn [settled] in Hs.
    assert (E : rewrite_children f cs = Ok cs).
    { unfold rewrite_children. induction IH as [|[k c] cs Hc _ IHcs]; [reflexivity|].
      cbn [forallb snd] in Hs. apply andb_true_iff in Hs. destruct Hs as [Hs1 Hs2].
      cbn [mapM fst snd]. cbn [snd] in Hc. rewrite (Hc Hs1). cbn [bind].
      now rewrite (IHcs Hs2). }
    now rewrite E.
Qed.

Lemma to_quantizer_settled (x : module) :
  settled x = true -> is_leaf x = true -> to_quantizer x = None.
Proof. now destruct x. Qed.

Lemma to_static_settled (x : module) :
  settled x = true -> is_leaf x = true -> to_static x = None.
Proof. now destruct x. Qed.

Lemma settled_child (k : string) (c : module) (b a : list (string * module)) :
  settled (Module (b ++ (k, c) :: a)) = true -> settled c = true.
Proof.
  cbn [settled]. rewrite forallb_app. cbn [forallb snd].
  rewrite !andb_true_iff. tauto.
Qed.

Lemma with_atoms_settled (g : module -> result module) :
  (forall x, settled x = true -> g x = Ok x) ->
  forall atoms m m', settled m = true -> with_atoms m atoms g = Ok m' -> m' = m.
Proof.
  intros Hg atoms. induction atoms as [|item atoms IH]; intros m m' Hs; cbn [with_atoms].
  - rewrite (Hg m Hs). now intros [= <-].
  - destruct m as [| | | |cs]; try discriminate.
    destruct (dict_get item cs) as [child|] eqn:E; [|discriminate].
    destruct (dict_get_split _ _ _ E) as (b & a & -> & Hnin).
    destruct (with_atoms child atoms g) as [child'|e] eqn:E'; [|discriminate].
    cbn [bind]. intros [= <-].
    rewrite (IH _ _ (settled_child _ _ _ _ Hs) E').
    now rewrite (dict_set_middle _ _ _ _ _ Hnin).
Qed.

Section Settled.

Variable cuda_compute_capability : nat * nat.
Variable scaled_mm : tensor -> tensor -> Q -> Q -> option (list Q) -> result tensor.
Variable forward_calls : module -> list nat -> list (string * tensor).

Lemma call_forward_settled (root : module) (call : string * tensor) (root' : module) :
  call_forward cuda_compute_capability scaled_mm root call = Ok root' ->
  settled root = true -> root' = root.
Proof.
  destruct call as [name x]. unfold call_forward, with_submodule. intros H Hs.
  assert (Hg : forall m, settled m = true ->
                 match m with
                 | FP8StaticLinearQuantizer weight weight_scale act_scale =>
                     '(_, act_scale) <-
                       FP8StaticLinearQuantizer_forward cuda_compute_capability scaled_mm
                         weight weight_scale act_scale x ;;
                     Ok (FP8StaticLinearQuantizer weight weight_scale act_scale)
                 | _ => Ok m
                 end = Ok m).
  { intros m Hm. now destruct m. }
  destruct (String.eqb name "").
  - rewrite (Hg root Hs) in H. now injection H as <-.
  - exact (with_atoms_settled _ Hg _ _ _ Hs H).
Qed.

Lemma run_model_settled (root : module) (row : list nat) (root' : module) :
  run_model cuda_compute_capability scaled_mm forward_calls root row = Ok root' ->
  settled root = true -> root' = root.
Proof.
  unfold run_model. intro H.
  refine (foldM_invariant (fun a b => settled a = true -> b = a) _ _ _
            call_forward_settled _ _ _ H).
  - reflexivity.
  - intros a b c Hab Hbc Ha. specialize (Hab Ha). subst b. now apply Hbc.
Qed.

Lemma calibration_settled (model : module) (rows : list (list nat)) (model' : module) :
  calibration cuda_compute_capability scaled_mm forward_calls model rows = Ok model' ->
  settled model = true -> model' = model.
Proof.
  unfold calibration. intro H.
  refine (foldM_invariant (fun a b => settled a = true -> b = a) _ _ _
            run_model_settled _ _ _ H).
  - reflexivity.
  - intros a b c Hab Hbc Ha. specialize (Hab Ha). subst b. now apply Hbc.
Qed.

Lemma quantize_activations_settled_id (model : module) (rows : list (list nat))
      (model' : module) :
  well_formed_model model = true -> settled model = true ->
  quantize_activations cuda_compute_capability scaled_mm forward_calls model rows
  = Ok model' ->
  model' = model.
Proof.
  intros Hwf Hs. unfold quantize_activations.
  rewrite (replace_with_quantizer_rewrite _ Hwf).
  rewrite (rewrite_settled _ _ to_quantizer_settled Hs). cbn [bind].
  destruct (calibration _ _ _ model rows) as [mc|e] eqn:E; [|discriminate].
  cbn [bind]. rewrite (calibration_settled _ _ _ E Hs).
  rewrite (replace_with_static_rewrite _ Hwf).
  rewrite (rewrite_settled _ _ to_static_settled Hs). now intros [= <-].
Qed.

Lemma activation_pair (p0 p pq pc p' : string * module) :
  p0 = p -> rewritten to_quantizer p pq -> observed pq pc ->
  rewritten to_static pc p' -> settled_pair p'.
Proof.
  destruct p as [n m], pq as [nq mq], pc as [nc mc], p' as [n' m'].
  unfold rewritten, observed, settled_pair. cbn [fst snd].
  intros _ (_ & L2 & R2) (_ & O) (_ & L4 & R4).
  destruct m as [w b|w s|w s a|w s a|cs].
  - specialize (R2 eq_refl). cbn [rewrite to_quantizer] in R2. injection R2 as <-.
    subst mc. specialize (R4 eq_refl). cbn [rewrite to_static] in R4.
    now injection R4 as <-.
  - specialize (R2 eq_refl). cbn [rewrite to_quantizer] in R2. injection R2 as <-.
    destruct O as (a & ->). specialize (R4 eq_refl). cbn [rewrite to_static] in R4.
    now injection R4 as <-.
  - specialize (R2 eq_refl). cbn [rewrite to_quantizer] in R2. injection R2 as <-.
    destruct O as (a' & ->). specialize (R4 eq_refl). cbn [rewrite to_static] in R4.
    now injection R4 as <-.
  - specialize (R2 eq_refl). cbn [rewrite to_quantizer] in R2. injection R2 as <-.
    subst mc. specialize (R4 eq_refl). cbn [rewrite to_static] in R4.
    now injection R4 as <-.
  - cbn [is_leaf] in L2. destruct mq; try discriminate L2.
    destruct mc; try discriminate O. cbn [is_leaf] in L4. now destruct m'.
Qed.

Lemma quantize_activations_settles (model : module) (rows : list (list nat))
      (model' : module) :
  well_formed_model model = true ->
  quantize_activations cuda_compute_capability scaled_mm forward_calls model rows
  = Ok model' ->
  settled model' = true.
Proof.
  intros Hwf. unfold quantize_activations.
  destruct (replace_with_quantizer model) as [mq|e] eqn:E1; [|discriminate].
  cbn [bind].
  destruct (calibration _ _ _ mq rows) as [mc|e] eqn:E2; [|discriminate].
  cbn [bind]. intro E3.
  rewrite (replace_with_quantizer_rewrite _ Hwf) in E1.
  pose proof (rewrite_well_formed_model _ to_quantizer_leaf _ _ E1 Hwf) as Hwfq.
  pose proof (same_skeleton_model _ _ (calibration_skeleton _ _ _ _ _ _ E2) Hwfq) as Hwfc.
  rewrite (replace_with_static_rewrite _ Hwfc) in E3.
  apply (settled_of_flatten model' EmptyString).
  pose proof (Forall2_chain _ _ _ _ (fun _ p' => settled_pair p') activation_pair
                _ _ _ _ _
                (Forall2_reflexive eq (flatten EmptyString model) (@eq_refl _))
                (rewrite_flatten _ to_quantizer_leaf _ _ EmptyString E1)
                (calibration_scales _ _ _ _ _ _ E2 EmptyString)
                (rewrite_flatten _ to_static_leaf _ _ EmptyString E3)) as HF.
  clear - HF. induction HF; constructor; assumption.
Qed.

End Settled.

(** X19: [quantize_activations] is idempotent: on the graph a first run
    returned, a second run, whatever its calibration rows and the device,
    finds no dynamic layer to replace and no observer to calibrate or
    freeze, and when it returns it returns the graph unchanged, every
    [act_scale] included. *)
Theorem quantize_activations_idempotent
        (cuda_compute_capability cuda_compute_capability' : nat * nat)
        (scaled_mm scaled_mm' : tensor -> tensor -> Q -> Q -> option (list Q) -> result tensor)
        (forward_calls forward_calls' : module -> list nat -> list (string * tensor))
        (model once twice : module) (rows rows' : list (list nat)) :
  well_formed_model model = true ->
  quantize_activations cuda_compute_capability scaled_mm forward_calls model rows
  = Ok once ->
  quantize_activations cuda_compute_capability' scaled_mm' forward_calls' once rows'
  = Ok twice ->
  twice = once.
Proof.
  intros Hwf H1 H2.
  pose proof (quantize_activations_settles _ _ _ _ _ _ Hwf H1) as Hs.
  pose proof (same_skeleton_model _ _
                (quantize_activations_skeleton _ _ _ _ _ _ Hwf H1) Hwf) as Hwf1.
  exact (quantize_activations_settled_id _ _ _ _ _ _ Hwf1 Hs H2).
Qed.

Lemma quantize_activations_idempotent_witness :
  Module [("fc"%string, FP8StaticLinear [[448; 448]] (1 # 224) (Some (1 # 224)))]
  = Module [("fc"%string, FP8StaticLinear [[448; 448]] (1 # 224) (Some (1 # 224)))].
Proof.
  apply (quantize_activations_idempotent
           (8, 9)%nat (8, 0)%nat
           (fun _ _ _ _ _ => Err RuntimeError) (fun _ _ _ _ _ => Err RuntimeError)
           (fun _ _ => [("fc"%string, [[1; 2]])]) (fun _ _ => [("fc"%string, [[5; 7]])])
           one_dynamic_layer _ _ [[1%nat]] [[1%nat]; [2%nat]]).
  - reflexivity.
  - vm_compute. reflexivity.
  - vm_compute. reflexivity.
Defined.

(* ------------------------------------------------------------------ *)
(** * The quantizers in the arithmetic of the dtype *)

Lemma pow2_pos (e : Z) : 0 < Float.pow2 e.
Proof. apply Qpower_0_lt. reflexivity. Qed.

Lemma pow2_le (e e' : Z) : (e <= e')%Z -> Float.pow2 e <= Float.pow2 e'.
Proof. intro H. apply Qpower_le_compat_l; [exact H | discriminate]. Qed.

Lemma pow2_of_nonneg (n : Z) : (0 <= n)%Z -> Float.pow2 n == inject_Z (2 ^ n).
Proof. intro H. unfold Float.pow2. now rewrite (Zpower_Qpower 2 n H). Qed.

Lemma pow2_minus (a b : Z) : Float.pow2 (a - b) == Float.pow2 a / Float.pow2 b.
Proof. apply Qpower_minus. discriminate. Qed.

Lemma Qdiv_le_compat (a b c d : Q) :
  0 <= a -> 0 < d -> a <= c -> d <= b -> a / b <= c / d.
Proof.
  intros Ha Hd Hac Hdb.
  assert (Hb : 0 < b) by lra.
  assert (Hq : 0 <= a / b) by (apply Qle_shift_div_l; [exact Hb | lra]).
  apply Qle_shift_div_l; [exact Hd|].
  apply Qle_trans with (a / b * b).
  - rewrite !(Qmult_comm (a / b)). apply Qmult_le_compat_r; assumption.
  - assert (E : a / b * b == a) by (field; lra). lra.
Qed.

(** [floor_log2] is below the logarithm. *)
Lemma floor_log2_le (x : Q) : 0 < x -> Float.pow2 (Float.floor_log2 x) <= x.
Proof.
  intro Hx. unfold Float.floor_log2.
  destruct (Qle_bool _ x) eqn:E; [now apply Qle_bool_iff|]. clear E.
  destruct x as [n d]. cbn [Qnum Qden].
  assert (Hn : (0 < n)%Z).
  { unfold Qlt in Hx. cbn in Hx. lia. }
  pose proof (Z.log2_spec n Hn) as [Hlo _].
  pose proof (Z.log2_spec (Z.pos d) (Pos2Z.is_pos d)) as [_ Hhi].
  pose proof (Z.log2_nonneg n) as Ha.
  pose proof (Z.log2_nonneg (Z.pos d)) as Hb.
  set (a := Z.log2 n) in *. set (b := Z.log2 (Z.pos d)) in *.
  replace (a - b - 1)%Z with (a - Z.succ b)%Z by lia.
  rewrite pow2_minus, (pow2_of_nonneg a Ha), (pow2_of_nonneg (Z.succ b)) by lia.
  rewrite (Qmake_Qdiv n d).
  apply Qdiv_le_compat.
  - rewrite <- (Zle_Qle 0). lia.
  - rewrite <- (Zlt_Qlt 0). lia.
  - rewrite <- Zle_Qle. exact Hlo.
  - rewrite <- Zle_Qle. lia.
Qed.

Lemma round_half_even_bounds (y : Q) :
  y - (1 # 2) <= inject_Z (Float.round_half_even y) <= y + (1 # 2).
Proof.
  unfold Float.round_half_even.
  pose proof (Qfloor_le y) as Hlo. pose proof (Qlt_floor y) as Hhi.
  rewrite inject_Z_plus in Hhi. change (inject_Z 1) with 1 in Hhi.
  set (n := Qfloor y) in *.
  assert (E1 : inject_Z (n + 1) == inject_Z n + 1) by (rewrite inject_Z_plus; reflexivity).
  destruct (Qcompare (y - inject_Z n) (1 # 2)) eqn:C.
  - apply Qeq_alt in C. destruct (Z.even n); [|rewrite E1]; split; lra.
  - apply Qlt_alt in C. split; lra.
  - apply Qgt_alt in C. rewrite E1. split; lra.
Qed.

(** A number of the normal or subnormal range that is not near the top
    of the format is rounded to a finite number within a factor of two. *)
Lemma round_bounds (f : Float.format) (x : Q) :
  (1 <= Float.precision f)%Z ->
  Float.min_positive f <= x -> 2 * x <= Float.max_finite f ->
  exists r, Float.round f x = Float.Finite r /\ x * (1 # 2) <= r /\ r <= 2 * x.
Proof.
  intros Hp Hlo Hhi.
  assert (Hx : 0 < x).
  { eapply Qlt_le_trans; [apply (pow2_pos (Float.etiny f)) | exact Hlo]. }
  unfold Float.round.
  destruct (Qeq_bool x 0) eqn:E0.
  { apply Qeq_bool_iff in E0. lra. }
  assert (E1 : Qle_bool 0 x = true) by (apply Qle_bool_iff; lra).
  rewrite E1. unfold Float.round_positive.
  set (e := Z.max (Float.floor_log2 x - (Float.precision f - 1)) (Float.etiny f)).
  assert (He : Float.pow2 e <= x).
  { unfold e. destruct (Z.max_spec (Float.floor_log2 x - (Float.precision f - 1))
                                   (Float.etiny f)) as [[_ ->]|[_ ->]].
    - exact Hlo.
    - apply Qle_trans with (Float.pow2 (Float.floor_log2 x)).
      + apply pow2_le. lia.
      + now apply floor_log2_le. }
  pose proof (pow2_pos e) as Hpe.
  set (y := x / Float.pow2 e).
  assert (Ey : y * Float.pow2 e == x) by (unfold y; field; lra).
  assert (Hy : 1 <= y).
  { unfold y. apply Qle_shift_div_l; [exact Hpe | lra]. }
  pose proof (round_half_even_bounds y) as [Hm1 Hm2].
  set (m := inject_Z (Float.round_half_even y)) in *.
  assert (Hr1 : x * (1 # 2) <= m * Float.pow2 e).
  { rewrite <- Ey.
    assert (G : y * (1 # 2) * Float.pow2 e <= m * Float.pow2 e).
    { apply Qmult_le_compat_r; lra. }
    lra. }
  assert (Hr2 : m * Float.pow2 e <= 2 * x).
  { rewrite <- Ey.
    assert (G : m * Float.pow2 e <= 2 * y * Float.pow2 e).
    { apply Qmult_le_compat_r; lra. }
    lra. }
  assert (Hfin : Qle_bool (m * Float.pow2 e) (Float.max_finite f) = true).
  { apply Qle_bool_iff. lra. }
  rewrite Hfin. eexists. split; [reflexivity|]. rewrite Qred_correct. split; assumption.
Qed.

Lemma float_elements_tmap (g : Float.value -> Float.value) (t : Float.tensor) :
  Float.elements (Float.tmap g t) = map g (Float.elements t).
Proof.
  unfold Float.elements, Float.tmap. induction t as [|row t IH]; [reflexivity|].
  cbn [map List.concat]. now rewrite map_app, IH.
Qed.

Section Closure.

Variable P : Q -> Prop.
Hypothesis P_abs : forall q, P q -> P (Qabs q).

Lemma min_finite_with (a b : Float.value) :
  finite_with P a -> finite_with P b -> finite_with P (Float.min a b).
Proof.
  intros (x & -> & Hx) (y & -> & Hy). cbn [Float.min Float.leb].
  destruct (Qle_bool x y); [now exists x | now exists y].
Qed.

Lemma max_finite_with (a b : Float.value) :
  finite_with P a -> finite_with P b -> finite_with P (Float.max a b).
Proof.
  intros (x & -> & Hx) (y & -> & Hy). cbn [Float.max Float.leb].
  destruct (Qle_bool x y); [now exists y | now exists x].
Qed.

Lemma fold_finite_with (op : Float.value -> Float.value -> Float.value) :
  (forall a b, finite_with P a -> finite_with P b -> finite_with P (op a b)) ->
  forall xs x, Forall (finite_with P) xs -> finite_with P x ->
               finite_with P (fold_left op xs x).
Proof.
  intros Hop xs. induction xs as [|y xs IH]; intros x Hxs Hx; [exact Hx|].
  inversion Hxs; subst. cbn [fold_left]. apply IH; [assumption | now apply Hop].
Qed.

(** The largest magnitude of a tensor of finite numbers is a finite
    number, and not negative. *)
Lemma amax_finite_with (t : Float.tensor) (min_val max_val : Float.value) :
  Float.aminmax t = Ok (min_val, max_val) ->
  Forall (finite_with P) (Float.elements t) ->
  exists a, Float.max (Float.abs min_val) (Float.abs max_val) = Float.Finite a /\
            P a /\ 0 <= a.
Proof.
  unfold Float.aminmax. destruct (Float.elements t) as [|x xs]; [discriminate|].
  intros [= <- <-] H. inversion H as [|? ? Hx Hxs]; subst.
  destruct (fold_finite_with Float.min min_finite_with xs x Hxs Hx) as (mn & -> & Hmn).
  destruct (fold_finite_with Float.max max_finite_with xs x Hxs Hx) as (mx & -> & Hmx).
  cbn [Float.abs Float.max Float.leb].
  destruct (Qle_bool (Qabs mn) (Qabs mx)); eexists; (split; [reflexivity|]);
    split; auto using Qabs_nonneg.
Qed.

End Closure.

Lemma float_aminmax_nonempty (t : Float.tensor) :
  Float.elements t <> [] -> exists mn mx, Float.aminmax t = Ok (mn, mx).
Proof.
  unfold Float.aminmax. destruct (Float.elements t); [congruence | eauto].
Qed.

(** The divisor of [per_tensor_quantize] on a tensor of finite numbers:
    a finite number, at least what [1e-12] is in the dtype. *)
Lemma denominator_finite (P : Q -> Prop) (f : Float.format) (t : Float.tensor)
      (e : Q) (d : Float.value) :
  (forall q, P q -> P (Qabs q)) ->
  Float.round f epsilon = Float.Finite e ->
  Forall (finite_with P) (Float.elements t) ->
  Float.denominator f t = Ok d ->
  exists d', d = Float.Finite d' /\ e <= d' /\ (d' == e \/ P d').
Proof.
  intros HP He Ht. unfold Float.denominator.
  destruct (Float.aminmax t) as [[mn mx]|err] eqn:Ea; [|discriminate].
  cbn [bind]. intros [= <-].
  destruct (amax_finite_with P HP t mn mx Ea Ht) as (a & -> & Ha & Ha0).
  rewrite He. unfold Float.clamp_min. cbn [Float.max Float.leb].
  destruct (Qle_bool a e) eqn:E.
  - exists e. split; [reflexivity|]. split; [apply Qle_refl | left; reflexivity].
  - exists a. split; [reflexivity|]. split; [|now right].
    apply Qlt_le_weak, Qnot_le_lt. intro L. apply Qle_bool_iff in L. congruence.
Qed.

Lemma abs_in_range (B q : Q) : Qabs q <= B -> Qabs (Qabs q) <= B.
Proof. intro H. now rewrite (Qabs_pos (Qabs q)) by apply Qabs_nonneg. Qed.

Lemma Qle_bool_true (a b : Q) : Qle_bool a b = true -> a <= b.
Proof. apply Qle_bool_iff. Qed.

Lemma guard_ok_spec (f : Float.format) :
  guard_ok f = true ->
  exists e,
    Float.round f epsilon = Float.Finite e /\ 0 < e /\ e <= Float.max_finite f /\
    (1 <= Float.precision f)%Z /\
    Float.min_positive f <= 448 / Float.max_finite f /\
    2 * (448 / e) <= Float.max_finite f /\
    Float.min_positive Float.float32 <= 224 / Float.max_finite f /\
    2 * (896 / e) <= Float.max_finite Float.float32 /\
    Float.min_positive Float.float32 <= e / 1792 /\
    2 * (Float.max_finite f / 112) <= Float.max_finite Float.float32.
Proof.
  unfold guard_ok. destruct (Float.round f epsilon) as [e| | |]; try discriminate.
  rewrite !andb_true_iff, negb_true_iff, Z.leb_le.
  intros [[[[[[[[H1 H2] H3] H4] H5] H6] H7] H8] H9].
  exists e. split; [reflexivity|].
  split.
  { apply Qnot_le_lt. intro L. apply Qle_bool_iff in L. congruence. }
  repeat split; try (apply Qle_bool_true; assumption). exact H3.
Qed.

Lemma guard_ok_float32 : guard_ok Float.float32 = true.
Proof. vm_compute. reflexivity. Qed.

Lemma guard_ok_bfloat16 : guard_ok Float.bfloat16 = true.
Proof. vm_compute. reflexivity. Qed.

Lemma div_finite (f : Float.format) (x y : Q) :
  ~ y == 0 -> Float.div f (Float.Finite x) (Float.Finite y) = Float.round f (x / y).
Proof.
  intro H. cbn [Float.div]. destruct (Qeq_bool y 0) eqn:E; [|reflexivity].
  now apply Qeq_bool_iff in E.
Qed.

Lemma round_zero (f : Float.format) (x : Q) : x == 0 -> Float.round f x = Float.Finite 0.
Proof.
  intro H. unfold Float.round. now rewrite (proj2 (Qeq_bool_iff x 0) H).
Qed.

Lemma quantize_zero_value (f : Float.format) (x : Float.value) (r : Q) :
  is_zero x ->
  Float.to_float8_e4m3fn
    (Float.clamp (Float.mul f x (Float.Finite r)) finfo_min finfo_max)
  = Float.Finite 0.
Proof.
  intros (v & -> & Hv). cbn [Float.mul].
  rewrite round_zero by (rewrite Hv; ring). reflexivity.
Qed.

Lemma scale_positive_of_guard (f : Float.format) (t : Float.tensor) :
  guard_ok f = true ->
  Float.elements t <> [] ->
  Forall (finite_in f) (Float.elements t) ->
  exists q s,
    Float.per_tensor_quantize f t = Ok (q, Float.Finite s) /\ 0 < s /\
    (Forall is_zero (Float.elements t) ->
     Forall (fun y => y = Float.Finite 0) (Float.elements q)).
Proof.
  intros Hg Hne Ht.
  destruct (guard_ok_spec f Hg) as (e & He & c1 & c2 & c3 & c4 & c5 & c6 & c7 & c8 & c9).
  set (M := Float.max_finite f) in *.
  set (M32 := Float.max_finite Float.float32) in *.
  set (t32 := Float.min_positive Float.float32) in *.
  assert (HM : 0 < M) by lra.
  unfold Float.per_tensor_quantize.
  destruct (Float.denominator f t) as [d|err] eqn:Ed.
  2:{ destruct (float_aminmax_nonempty t Hne) as (mn & mx & Ha).
      unfold Float.denominator in Ed. rewrite Ha in Ed. discriminate Ed. }
  destruct (denominator_finite (fun q => Qabs q <= M) f t e d (abs_in_range M) He Ht Ed)
    as (d' & -> & Hed & Hd).
  assert (HdM : d' <= M).
  { destruct Hd as [E|Hd]; [lra|]. eapply Qle_trans; [apply Qle_Qabs | exact Hd]. }
  assert (Hd0 : 0 < d') by lra.
  cbn [bind].
  (* the scale in the dtype of the tensor *)
  set (x1 := finfo_max / d').
  assert (Hx1 : 448 / M <= x1 /\ x1 <= 448 / e).
  { unfold x1, finfo_max. split; apply Qdiv_le_compat; lra. }
  assert (HiM : 0 < 448 / M) by (apply Qlt_shift_div_l; lra).
  assert (Hie : 0 < 448 / e) by (apply Qlt_shift_div_l; lra).
  assert (E6 : 224 / M == 448 / M * (1 # 2)) by (field; lra).
  assert (E7 : 896 / e == 2 * (448 / e)) by (field; lra).
  assert (E8 : 112 / M == 448 / M * (1 # 4)) by (field; lra).
  assert (E9 : 1792 / e == 4 * (448 / e)) by (field; lra).
  destruct (round_bounds f x1 c3) as (r1 & Er1 & Hr1 & Hr1'); [lra | fold M; lra |].
  rewrite (div_finite f finfo_max d') by lra. fold x1. rewrite Er1.
  (* its conversion to float32 *)
  destruct (round_bounds Float.float32 r1) as (r2 & Er2 & Hr2 & Hr2');
    [vm_compute; discriminate | fold t32; lra | fold M32; lra |].
  cbn [Float.float]. rewrite Er2.
  (* the reciprocal *)
  assert (Hr2pos : 0 < r2) by lra.
  assert (Hlo : 112 / M <= r2) by lra.
  assert (Hhi : r2 <= 1792 / e) by lra.
  set (x3 := 1 / r2).
  assert (Hx3 : e / 1792 <= x3 /\ x3 <= M / 112).
  { unfold x3. split.
    - assert (E : e / 1792 == 1 / (1792 / e)) by (field; lra). rewrite E.
      apply Qdiv_le_compat; lra.
    - assert (E : M / 112 == 1 / (112 / M)) by (field; lra). rewrite E.
      apply Qdiv_le_compat; lra. }
  unfold Float.reciprocal. rewrite (div_finite Float.float32 1 r2) by lra.
  fold x3. clearbody x3.
  destruct Hx3 as [Hx3 Hx3'].
  destruct (round_bounds Float.float32 x3) as (s & Es & Hs & _);
    [vm_compute; discriminate
    | exact (Qle_trans _ _ _ c8 Hx3)
    | apply Qle_trans with (2 * (M / 112)); [|exact c9];
      apply Qmult_le_l; [reflexivity | exact Hx3']
    |].
  rewrite Es.
  assert (H0 : 0 < e / 1792) by (apply Qlt_shift_div_l; lra).
  assert (Hx3pos : 0 < x3) by (eapply Qlt_le_trans; eassumption).
  do 2 eexists. split; [reflexivity|]. split; [lra|].
  intro Hz. rewrite !float_elements_tmap, map_map. apply Forall_map.
  eapply Forall_impl; [|exact Hz]. intros x Hx. now apply quantize_zero_value.
Qed.

(* ------------------------------------------------------------------ *)
(** * C2: the scale of [per_tensor_quantize] *)

(** The all-2.0 tensor in float32: every element saturates, and the
    scale is the float32 nearest to 1/224. *)
Example quantize_twos_float32 :
  Float.per_tensor_quantize Float.float32 [[Float.Finite 2; Float.Finite 2]]
  = Ok ([[Float.Finite 448; Float.Finite 448]], Float.round Float.float32 (1 # 224)).
Proof. vm_compute. reflexivity. Qed.

Example quantize_zeros_float32 :
  Float.per_tensor_quantize Float.float32 [[Float.Finite 0; Float.Finite 0]]
  = Ok ([[Float.Finite 0; Float.Finite 0]],
        Float.Finite (10540997 # 4722366482869645213696)).
Proof. vm_compute. reflexivity. Qed.

(** C2, as stated, fails at three tensors: at the tensor without elements
    [aminmax] raises; at the all-zero float16 tensor [1e-12] is zero in
    the dtype, the divisor is zero, and the call returns the scale 0 and
    NaN elements; at a tensor with a NaN the scale is NaN. *)
Lemma per_tensor_quantize_without_positive_scale :
  Float.per_tensor_quantize Float.float32 [] = Err RuntimeError /\
  Float.per_tensor_quantize Float.float16 [[Float.Finite 0; Float.Finite 0]]
  = Ok ([[Float.NaN; Float.NaN]], Float.Finite 0) /\
  Float.per_tensor_quantize Float.float32 [[Float.NaN; Float.Finite 1]]
  = Ok ([[Float.NaN; Float.NaN]], Float.NaN) /\
  ~ positive_scale (Float.per_tensor_quantize Float.float32 []) /\
  ~ positive_scale
      (Float.per_tensor_quantize Float.float16 [[Float.Finite 0; Float.Finite 0]]) /\
  ~ positive_scale
      (Float.per_tensor_quantize Float.float32 [[Float.NaN; Float.Finite 1]]).
Proof.
  assert (E1 : Float.per_tensor_quantize Float.float32 [] = Err RuntimeError)
    by reflexivity.
  assert (E2 : Float.per_tensor_quantize Float.float16 [[Float.Finite 0; Float.Finite 0]]
               = Ok ([[Float.NaN; Float.NaN]], Float.Finite 0))
    by (vm_compute; reflexivity).
  assert (E3 : Float.per_tensor_quantize Float.float32 [[Float.NaN; Float.Finite 1]]
               = Ok ([[Float.NaN; Float.NaN]], Float.NaN))
    by (vm_compute; reflexivity).
  repeat split; try assumption.
  - rewrite E1. intros (q & s & H & _). discriminate H.
  - rewrite E2. intros (q & s & H & Hs). injection H as _ <-. discriminate Hs.
  - rewrite E3. intros (q & s & H & _). discriminate H.
Qed.

(** C2 (amended): [per_tensor_quantize] raises no division error in any
    dtype: on a tensor with at least one element it returns.  On a
    float32 or bfloat16 tensor of finite numbers with at least one element
    the returned scale is a strictly positive number, and when all
    elements are zero all quantized elements are zero. *)
Theorem per_tensor_quantize_scale_positive (f : Float.format) (t : Float.tensor) :
  Float.elements t <> [] ->
  (exists q s, Float.per_tensor_quantize f t = Ok (q, s)) /\
  (f = Float.float32 \/ f = Float.bfloat16 ->
   Forall (finite_in f) (Float.elements t) ->
   exists q s,
     Float.per_tensor_quantize f t = Ok (q, Float.Finite s) /\ 0 < s /\
     (Forall is_zero (Float.elements t) ->
      Forall (fun y => y = Float.Finite 0) (Float.elements q))).
Proof.
  intro Hne. split.
  - destruct (float_aminmax_nonempty t Hne) as (mn & mx & Ha).
    unfold Float.per_tensor_quantize, Float.denominator. rewrite Ha. cbn [bind]. eauto.
  - intros Hf Ht. apply scale_positive_of_guard; [|exact Hne | exact Ht].
    destruct Hf as [-> | ->]; [apply guard_ok_float32 | apply guard_ok_bfloat16].
Qed.

Lemma per_tensor_quantize_scale_positive_witness :
  exists q s,
    Float.per_tensor_quantize Float.float32 [[Float.Finite 0; Float.Finite 0]]
    = Ok (q, Float.Finite s) /\ 0 < s /\
    (Forall is_zero (Float.elements [[Float.Finite 0; Float.Finite 0]]) ->
     Forall (fun y => y = Float.Finite 0) (Float.elements q)).
Proof.
  apply (proj2 (per_tensor_quantize_scale_positive
                  Float.float32 [[Float.Finite 0; Float.Finite 0]] ltac:(discriminate))).
  - now left.
  - repeat constructor; exists 0; (split; [reflexivity | vm_compute; discriminate]).
Defined.

(* ------------------------------------------------------------------ *)
(** * C10: the static quantizer divides by the frozen scale as it is *)








